(** * Backward chaining with unification, and the Prolog surface parser

    A shallow embedding of [task_7/backward_chain.py] (term model,
    unifier, prover, solution surfacing) and of
    [task_8/prolog_parser.py] (facts and rules from text), with the
    properties the specification states about them.

    Conventions of the embedding:
    - a Python [str] is a [string]; only the ASCII fragment is modelled:
      the character classes [is_space], [is_upper] and [is_word] of the
      parser are those of [str.strip], [str.isupper] and [\w] on ASCII
      characters, and hold of no byte above 127, whereas Python's
      classes reach beyond ASCII (the no-break space is white space,
      [É] is upper case and a word character). A statement that depends
      on these classes is made of ASCII texts ([ascii_text] below);
    - a binding environment [Dict[str, str]] is a [gmap string string];
      the source never mutates a dictionary that it has handed out
      ([Fact.match] copies its argument first), so environments are
      values;
    - the sets [seen] of the chain-walking loops and the set
      [proved_goals] are [gset]s;
    - [kb.facts] is a Python [set]; the source only iterates over it, and
      the list of the model fixes one iteration order. *)

From Stdlib Require Import Ascii String DecimalString.
From stdpp Require Import gmap strings list fin_maps.

Open Scope string_scope.
Open Scope list_scope.

Abbreviation bindings := (gmap string string).

(** ** Term model *)

(** [arg.startswith('?')]: the source marks a variable by its spelling. *)
Definition is_var (s : string) : bool :=
  match s with
  | String "?"%char _ => true
  | _ => false
  end.

(** [class Fact]: a predicate name and a tuple of arguments. *)
Record Fact : Type := mkFact { predicate : string; args : list string }.

#[global] Instance Fact_eq_dec : EqDecision Fact.
Proof. solve_decision. Defined.

#[global] Instance Fact_countable : Countable Fact :=
  inj_countable' (fun f => (predicate f, args f))
                 (fun p => mkFact (fst p) (snd p))
                 (fun f => match f with mkFact _ _ => eq_refl end).

(** [class Rule]: [conclusion :- premises]. *)
Record Rule : Type := mkRule { conclusion : Fact; premises : list Fact }.

(** An atom is ground when none of its arguments is a variable. *)
Definition is_ground (f : Fact) : bool := forallb (fun a => negb (is_var a)) (args f).

(** *** [Fact.substitute]

    The loop of lines 41-50, for one argument:
<<
    value = arg; seen = {arg}
    while value in bindings:
        if value in seen and value != arg: break
        next_value = bindings[value]
        if next_value == value: break
        seen.add(value); value = next_value
>>
    One unit of fuel is one evaluation of the loop condition; [None] is
    "out of fuel". *)
Fixpoint substitute_walk (fuel : nat) (b : bindings) (arg value : string)
    (seen : gset string) : option string :=
  match fuel with
  | 0 => None
  | S fuel' =>
      match b !! value with
      | None => Some value
      | Some next_value =>
          if bool_decide (value ∈ seen) && negb (bool_decide (value = arg))
          then Some value
          else if bool_decide (next_value = value) then Some value
          else substitute_walk fuel' b arg next_value ({[value]} ∪ seen)
      end
  end.

(** The walk needs at most [2 * size b + 2] evaluations of the loop
    condition ([substitute_walk_fuel] below), so the default is never
    taken. *)
Definition substitute_arg (b : bindings) (arg : string) : string :=
  default arg (substitute_walk (2 * size b + 2) b arg arg {[arg]}).

Definition substitute (f : Fact) (b : bindings) : Fact :=
  mkFact (predicate f) (map (substitute_arg b) (args f)).

(** *** [Fact._resolve_binding]

    Lines 56-64:
<<
    value = var; seen = {var}
    while value in bindings:
        next_value = bindings[value]
        if next_value == value or next_value in seen: break
        seen.add(next_value); value = next_value
    return value
>> *)
Fixpoint resolve_walk (fuel : nat) (b : bindings) (value : string)
    (seen : gset string) : option string :=
  match fuel with
  | 0 => None
  | S fuel' =>
      match b !! value with
      | None => Some value
      | Some next_value =>
          if bool_decide (next_value = value) || bool_decide (next_value ∈ seen)
          then Some value
          else resolve_walk fuel' b next_value ({[next_value]} ∪ seen)
      end
  end.

Definition _resolve_binding (var : string) (b : bindings) : string :=
  default var (resolve_walk (size b + 2) b var {[var]}).

(** *** [Fact.match]

    The body of the [for] loop over [zip(self.args, other.args)],
    lines 82-101; [None] is the early [return None]. *)
Definition match_arg (self_arg other_arg : string) (b : bindings) : option bindings :=
  let resolved_self := if is_var self_arg then _resolve_binding self_arg b else self_arg in
  let resolved_other := if is_var other_arg then _resolve_binding other_arg b else other_arg in
  if is_var resolved_self && is_var resolved_other then
    if bool_decide (resolved_self ≠ resolved_other)
    then Some (<[resolved_self := resolved_other]> b)
    else Some b
  else if is_var resolved_self then Some (<[resolved_self := resolved_other]> b)
  else if is_var resolved_other then Some (<[resolved_other := resolved_self]> b)
  else if bool_decide (resolved_self ≠ resolved_other) then None
  else Some b.

Fixpoint match_args (pairs : list (string * string)) (b : bindings) : option bindings :=
  match pairs with
  | [] => Some b
  | (self_arg, other_arg) :: rest =>
      match match_arg self_arg other_arg b with
      | None => None
      | Some b' => match_args rest b'
      end
  end.

(** [self.match(other, bindings)]; the caller's dictionary is copied
    first, so the result is a new environment. *)
Definition Fact_match (self other : Fact) (b : bindings) : option bindings :=
  if bool_decide (predicate self ≠ predicate other) then None
  else if bool_decide (length (args self) ≠ length (args other)) then None
  else match_args (zip (args self) (args other)) b.

(** ** Knowledge base *)

(** [class KnowledgeBase]: [facts] in the order in which the set is
    iterated, [rules] in insertion order. *)
Record KnowledgeBase : Type := mkKB { facts : list Fact; rules : list Rule }.

Definition empty_kb : KnowledgeBase := mkKB [] [].

(** [kb.add_fact]: [self.facts.add(fact)], duplicates coalesce. *)
Definition add_fact (k : KnowledgeBase) (f : Fact) : KnowledgeBase :=
  if bool_decide (f ∈ facts k) then k else mkKB (facts k ++ [f]) (rules k).

(** [kb.add_rule]: [self.rules.append(rule)]. *)
Definition add_rule (k : KnowledgeBase) (r : Rule) : KnowledgeBase :=
  mkKB (facts k) (rules k ++ [r]).

(** ** Prover state *)

(** The messages handed to [_trace_print]. *)
Inductive trace_msg : Type :=
  | TGoal (g : Fact)
  | TMaxDepth (g : Fact)
  | TCycle (g : Fact)
  | TAlreadyProved (g : Fact)
  | TMatchedFact (f : Fact)
  | TTryingRule (r : Rule)
  | TRuleSucceeded (r : Rule)
  | TRuleFailed (r : Rule)
  | TCannotProve (g : Fact).

(** What a call leaves behind besides its result: the calls of
    [_trace_print], each with the indentation [trace_depth] it was made
    at, and the pushes on [current_goals], each with the stack it
    produced. The history is ghost state: no function of the model
    reads it. The text printed is that of the [Print] events when
    [trace] is set, and nothing otherwise. *)
Inductive event : Type :=
  | Print (depth : nat) (m : trace_msg)
  | Push (stack : list Fact).

(** The attributes of [BackwardChainer] that its methods assign, and
    the history, newest event first. *)
Record prover_state : Type := mkState {
  trace_depth : nat;
  proved_goals : gset Fact;
  rule_counter : nat;
  current_goals : list Fact;
  history : list event
}.

(** The state set up by [__init__], lines 150-154. *)
Definition initial_state : prover_state := mkState 0 ∅ 0 [] [].

Definition _trace_print (m : trace_msg) (st : prover_state) : prover_state :=
  mkState (trace_depth st) (proved_goals st) (rule_counter st) (current_goals st)
          (Print (trace_depth st) m :: history st).

(** [self.trace_depth += 1] and [self.trace_depth -= 1]. *)
Definition enter (st : prover_state) : prover_state :=
  mkState (S (trace_depth st)) (proved_goals st) (rule_counter st) (current_goals st)
          (history st).

Definition leave (st : prover_state) : prover_state :=
  mkState (pred (trace_depth st)) (proved_goals st) (rule_counter st) (current_goals st)
          (history st).

(** [self.current_goals.append(g)] and [self.current_goals.pop()]. *)
Definition push_goal (g : Fact) (st : prover_state) : prover_state :=
  mkState (trace_depth st) (proved_goals st) (rule_counter st) (current_goals st ++ [g])
          (Push (current_goals st ++ [g]) :: history st).

Definition pop_goal (st : prover_state) : prover_state :=
  mkState (trace_depth st) (proved_goals st) (rule_counter st)
          (removelast (current_goals st)) (history st).

(** [matched_hypothesis = hypothesis.substitute(match_bindings);
    self.proved_goals.add(matched_hypothesis)], lines 239-240 and
    261-262. *)
Definition record_proved (hypothesis : Fact) (match_bindings : bindings)
    (st : prover_state) : prover_state :=
  mkState (trace_depth st) ({[substitute hypothesis match_bindings]} ∪ proved_goals st)
          (rule_counter st) (current_goals st) (history st).

(** [self.proved_goals.clear()]. *)
Definition clear_proved (st : prover_state) : prover_state :=
  mkState (trace_depth st) ∅ (rule_counter st) (current_goals st) (history st).

(** ** Rule renaming *)

(** [f"_{self.rule_counter}"]. *)
Definition suffix_of (n : nat) : string :=
  "_" +:+ NilEmpty.string_of_uint (Nat.to_uint n).

(** The set [variables] of lines 170-173, as a list. *)
Definition rule_variables (r : Rule) : list string :=
  filter (fun a => is_var a = true) (args (conclusion r))
  ++ flat_map (fun p => filter (fun a => is_var a = true) (args p)) (premises r).

(** [renaming = {var: var + suffix for var in variables}]. *)
Definition renaming_of (suffix : string) (vars : list string) : bindings :=
  list_to_map (map (fun v => (v, v +:+ suffix)) vars).

(** [renaming.get(arg, arg)] over the arguments of an atom. *)
Definition rename_fact (renaming : bindings) (f : Fact) : Fact :=
  mkFact (predicate f) (map (fun a => default a (renaming !! a)) (args f)).

Definition _rename_rule_variables (r : Rule) (st : prover_state) : Rule * prover_state :=
  let st1 := mkState (trace_depth st) (proved_goals st) (S (rule_counter st))
                     (current_goals st) (history st) in
  let renaming := renaming_of (suffix_of (rule_counter st1)) (rule_variables r) in
  (mkRule (rename_fact renaming (conclusion r)) (map (rename_fact renaming) (premises r)),
   st1).

(** ** The prover *)

Section Prover.

Variable kb : KnowledgeBase.

(** One iteration of the loop over [self.kb.facts], lines 234-244:
    [acc] is the list [results] and the state. *)
Definition fact_step (hypothesis : Fact) (b : bindings)
    (acc : list bindings * prover_state) (fact : Fact) : list bindings * prover_state :=
  match Fact_match hypothesis fact b with
  | Some match_bindings =>
      (fst acc ++ [match_bindings],
       record_proved hypothesis match_bindings (_trace_print (TMatchedFact fact) (snd acc)))
  | None => acc
  end.

(** [_prove_premises], lines 287-308, over the function [call] that
    stands for [self.backchain_to_goal]. *)
Definition _prove_premises_with
    (call : Fact -> bindings -> prover_state -> list bindings * prover_state)
    : list Fact -> bindings -> prover_state -> list bindings * prover_state :=
  fix prove_premises (premises : list Fact) (b : bindings) (st : prover_state) :=
    match premises with
    | [] => ([b], st)
    | first_premise :: remaining_premises =>
        let first := call first_premise b st in
        match fst first with
        | [] => ([], snd first)
        | _ =>
            fold_left
              (fun (acc : list bindings * prover_state) (result_bindings : bindings) =>
                 match remaining_premises with
                 | [] => (fst acc ++ [result_bindings], snd acc)
                 | _ =>
                     let remaining :=
                       prove_premises remaining_premises result_bindings (snd acc) in
                     (fst acc ++ fst remaining, snd remaining)
                 end)
              (fst first) ([], snd first)
        end
    end.

(** One iteration of the loop over [self.kb.rules], lines 247-265. *)
Definition rule_step
    (call : Fact -> bindings -> prover_state -> list bindings * prover_state)
    (hypothesis : Fact) (b : bindings)
    (acc : list bindings * prover_state) (rule : Rule) : list bindings * prover_state :=
  let renamed := _rename_rule_variables rule (snd acc) in
  match Fact_match hypothesis (conclusion (fst renamed)) b with
  | Some match_bindings =>
      let st1 := _trace_print (TTryingRule rule) (snd renamed) in
      let proved := _prove_premises_with call (premises (fst renamed)) match_bindings st1 in
      match fst proved with
      | [] => (fst acc, _trace_print (TRuleFailed rule) (snd proved))
      | _ =>
          (fst acc ++ fst proved,
           record_proved hypothesis match_bindings
             (_trace_print (TRuleSucceeded rule) (snd proved)))
      end
  | None => (fst acc, snd renamed)
  end.

(** [backchain_to_goal], lines 201-274. The argument [budget] is
    [max_depth - trace_depth] at the call: the test of line 213,
    [self.trace_depth > self.max_depth] after the increment of line
    205, holds exactly when the budget is [0], and a nested call runs
    with [trace_depth] one higher, hence with the budget one lower
    ([budget_is_depth_test] and [backchain_trace_depth] below: a call
    restores [trace_depth], so every call made from one activation
    sees the same depth). *)
Fixpoint backchain (budget : nat) (hypothesis : Fact) (b : bindings)
    (st : prover_state) : list bindings * prover_state :=
  let st1 := enter (_trace_print (TGoal (substitute hypothesis b)) st) in
  let bound_hypothesis := substitute hypothesis b in
  match budget with
  | 0 => ([], leave (_trace_print (TMaxDepth bound_hypothesis) st1))
  | S budget' =>
      if bool_decide (bound_hypothesis ∈ current_goals st1) then
        ([], leave (_trace_print (TCycle bound_hypothesis) st1))
      else if bool_decide (bound_hypothesis ∈ proved_goals st1) then
        ([b], leave (_trace_print (TAlreadyProved bound_hypothesis) st1))
      else
        let st2 := push_goal bound_hypothesis st1 in
        let after_facts := fold_left (fact_step hypothesis b) (facts kb) ([], st2) in
        let after_rules :=
          fold_left (rule_step (backchain budget') hypothesis b) (rules kb) after_facts in
        let st3 :=
          match fst after_rules with
          | [] => _trace_print (TCannotProve bound_hypothesis) (snd after_rules)
          | _ => snd after_rules
          end in
        (fst after_rules, leave (pop_goal st3))
  end.

Definition _prove_premises (budget : nat) :=
  _prove_premises_with (backchain budget).

End Prover.

(** [class BackwardChainer]: the knowledge base and the two settings
    fixed by [__init__], and the state. A negative [max_depth] makes
    the test of line 213 hold in every call, as [0] does. *)
Record BackwardChainer : Type := mkChainer {
  kb : KnowledgeBase;
  trace : bool;
  max_depth : nat;
  state : prover_state
}.

(** [BackwardChainer(kb, trace, max_depth)]. *)
Definition BackwardChainer_init (k : KnowledgeBase) (tr : bool) (md : nat) : BackwardChainer :=
  mkChainer k tr md initial_state.

(** [BackwardChainer(kb)]: [trace=False], [max_depth=50]. *)
Definition BackwardChainer_new (k : KnowledgeBase) : BackwardChainer :=
  BackwardChainer_init k false 50.

(** [self.backchain_to_goal(hypothesis, bindings)] on the object. *)
Definition backchain_to_goal (c : BackwardChainer) (hypothesis : Fact) (b : bindings)
    : list bindings * BackwardChainer :=
  let r := backchain (kb c) (max_depth c - trace_depth (state c)) hypothesis b (state c) in
  (fst r, mkChainer (kb c) (trace c) (max_depth c) (snd r)).

(** The statement [self.proved_goals.clear()] that opens [prove] and
    [prove_with_bindings]. *)
Definition at_entry (c : BackwardChainer) : BackwardChainer :=
  mkChainer (kb c) (trace c) (max_depth c) (clear_proved (state c)).

(** [prove], lines 320-322. *)
Definition prove (c : BackwardChainer) (hypothesis : Fact) : bool * BackwardChainer :=
  let r := backchain_to_goal (at_entry c) hypothesis ∅ in
  (bool_decide (0 < length (fst r)), snd r).

(** [prove_with_bindings], lines 334-335. *)
Definition prove_with_bindings (c : BackwardChainer) (hypothesis : Fact)
    : list bindings * BackwardChainer :=
  backchain_to_goal (at_entry c) hypothesis ∅.

(** ** Solution surfacing: [extract_query_bindings] *)

(** The loop of lines 449-455:
<<
    while value in bindings and value.startswith('?'):
        if value in seen: break
        seen.add(value); value = bindings[value]
>> *)
Fixpoint extract_walk (fuel : nat) (b : bindings) (value : string)
    (seen : gset string) : option string :=
  match fuel with
  | 0 => None
  | S fuel' =>
      match b !! value with
      | Some next_value =>
          if is_var value then
            if bool_decide (value ∈ seen) then Some value
            else extract_walk fuel' b next_value ({[value]} ∪ seen)
          else Some value
      | None => Some value
      end
  end.

(** The body of [for var in query_vars], lines 447-458, on the
    dictionary [clean_bindings]. *)
Definition clean_step (b : bindings) (clean_bindings : bindings) (var : string) : bindings :=
  match b !! var with
  | Some first_value =>
      let value := default first_value (extract_walk (size b + 1) b first_value {[var]}) in
      if is_var value then clean_bindings else <[var := value]> clean_bindings
  | None => clean_bindings
  end.

(** [query_vars]: the variables of the query. The order in which the
    set is iterated does not show in [clean_bindings], a dictionary. *)
Definition query_vars (fact : Fact) : list string :=
  filter (fun a => is_var a = true) (args fact).

Definition clean_bindings_of (fact : Fact) (b : bindings) : bindings :=
  fold_left (clean_step b) (query_vars fact) ∅.

(** Lines 465-471: duplicates removed, first occurrences kept. *)
Fixpoint unique_results (seen_bindings : list bindings) (result : list bindings)
    : list bindings :=
  match result with
  | [] => []
  | binding :: rest =>
      if bool_decide (binding ∈ seen_bindings) then unique_results seen_bindings rest
      else binding :: unique_results (binding :: seen_bindings) rest
  end.

Definition extract_query_bindings (fact : Fact) (bindings_list : list bindings)
    : list bindings :=
  unique_results []
    (filter (fun clean => clean ≠ ∅) (map (clean_bindings_of fact) bindings_list)).

(** [solve] of the specification: [prove_with_bindings] followed by
    [extract_query_bindings], as the callers of the source pair them. *)
Definition solve (c : BackwardChainer) (goal : Fact) : list bindings * BackwardChainer :=
  let r := prove_with_bindings c goal in
  (extract_query_bindings goal (fst r), snd r).

(** ** Printing: [Fact.__repr__] and [Rule.__repr__] *)

(** Lines 31-34: [predicate(a, b)], and the bare predicate for an atom
    without arguments. *)
Definition Fact_repr (f : Fact) : string :=
  match args f with
  | [] => predicate f
  | _ => predicate f +:+ "(" +:+ String.concat ", " (args f) +:+ ")"
  end.

(** Lines 112-116. *)
Definition Rule_repr (r : Rule) : string :=
  match premises r with
  | [] => Fact_repr (conclusion r)
  | _ => Fact_repr (conclusion r) +:+ " :- "
         +:+ String.concat ", " (map Fact_repr (premises r))
  end.

(** ** The parser *)

Module Parser.

(** *** Characters and strings *)

Definition chars (s : string) : list ascii := list_ascii_of_string s.
Definition str (l : list ascii) : string := string_of_list_ascii l.

Definition code (c : ascii) : nat := nat_of_ascii c.

(** The ASCII white space of [str.strip()]: tab to carriage return,
    the four separators [\x1c] to [\x1f], and the blank. *)
Definition is_space (c : ascii) : bool :=
  (((9 <=? code c) && (code c <=? 13)) || ((28 <=? code c) && (code c <=? 32)))%nat.

(** [c.isupper()] on an ASCII character. *)
Definition is_upper (c : ascii) : bool := ((65 <=? code c) && (code c <=? 90))%nat.

(** The class [\w] of the regular expression, on ASCII characters. *)
Definition is_word (c : ascii) : bool :=
  (((48 <=? code c) && (code c <=? 57)) || is_upper c
   || ((97 <=? code c) && (code c <=? 122)) || (code c =? 95))%nat.

Definition is_char (a c : ascii) : bool := bool_decide (c = a).

Fixpoint lstrip_chars (p : ascii -> bool) (l : list ascii) : list ascii :=
  match l with
  | c :: l' => if p c then lstrip_chars p l' else l
  | [] => []
  end.

Definition rstrip_chars (p : ascii -> bool) (l : list ascii) : list ascii :=
  rev (lstrip_chars p (rev l)).

(** [s.strip()] and [s.rstrip('.')]. *)
Definition strip (s : string) : string :=
  str (rstrip_chars is_space (lstrip_chars is_space (chars s))).

Definition rstrip_dots (s : string) : string :=
  str (rstrip_chars (is_char ".") (chars s)).

(** [s.startswith(p)] and [p in s]. *)
Fixpoint starts_with (p l : list ascii) : bool :=
  match p, l with
  | [], _ => true
  | a :: p', c :: l' => bool_decide (a = c) && starts_with p' l'
  | _ :: _, [] => false
  end.

Fixpoint contains (p l : list ascii) : bool :=
  starts_with p l
  || match l with
     | [] => false
     | _ :: l' => contains p l'
     end.

(** *** The regular expression [(\w+)\((.*?)\)] under [re.match] *)

(** The longest prefix of characters of a class, and the rest. *)
Fixpoint span (p : ascii -> bool) (l : list ascii) : list ascii * list ascii :=
  match l with
  | c :: l' => if p c then (c :: fst (span p l'), snd (span p l')) else ([], l)
  | [] => ([], [])
  end.

(** [(.*?)\)]: the shortest run of characters other than the line
    feed that a closing parenthesis follows. *)
Fixpoint until_close (l : list ascii) : option (list ascii) :=
  match l with
  | [] => None
  | c :: l' =>
      if is_char ")" c then Some []
      else if is_char "010" c then None
      else option_map (cons c) (until_close l')
  end.

(** The two groups of the match. [\w+] is greedy and the character
    after it must be the opening parenthesis, which is not a word
    character: only the longest run of word characters can match. *)
Definition match_atom (s : string) : option (string * string) :=
  match span is_word (chars s) with
  | (c :: name, op :: rest) =>
      if is_char "(" op then
        match until_close rest with
        | Some inner => Some (str (c :: name), str inner)
        | None => None
        end
      else None
  | _ => None
  end.

(** [s.split(',')]. *)
Fixpoint split_commas (l : list ascii) : list (list ascii) :=
  match l with
  | [] => [[]]
  | c :: l' =>
      if is_char "," c then [] :: split_commas l'
      else match split_commas l' with
           | piece :: pieces => (c :: piece) :: pieces
           | [] => [[c]]
           end
  end.

(** *** [parse_prolog_fact] *)

(** Lines 65-73: the conversion of one argument. *)
Definition convert_arg (arg : string) : string :=
  if bool_decide (arg = "_") then "?_"
  else match arg with
       | String c _ => if is_upper c then "?" +:+ arg else arg
       | EmptyString => arg
       end.

Definition parse_prolog_fact (fact_str : string) : option Fact :=
  let fact_str := rstrip_dots (strip fact_str) in
  match match_atom fact_str with
  | None => None
  | Some (predicate, args_str) =>
      if bool_decide (args_str = "") then Some (mkFact predicate [])
      else
        let args_raw := map (fun piece => strip (str piece)) (split_commas (chars args_str)) in
        Some (mkFact predicate (map convert_arg args_raw))
  end.

(** *** [split_premises] *)

(** The loop of lines 92-104; [paren_depth] may go below zero. *)
Fixpoint split_premises_loop (l : list ascii) (premises : list string)
    (current : list ascii) (paren_depth : Z) : list string * list ascii :=
  match l with
  | [] => (premises, current)
  | char :: l' =>
      if is_char "(" char then
        split_premises_loop l' premises (current ++ [char]) (paren_depth + 1)
      else if is_char ")" char then
        split_premises_loop l' premises (current ++ [char]) (paren_depth - 1)
      else if is_char "," char && bool_decide (paren_depth = 0%Z) then
        split_premises_loop l' (premises ++ [strip (str current)]) [] paren_depth
      else
        split_premises_loop l' premises (current ++ [char]) paren_depth
  end.

Definition split_premises (premises_str : string) : list string :=
  let r := split_premises_loop (chars premises_str) [] [] 0%Z in
  if bool_decide (strip (str (snd r)) = "") then fst r
  else fst r ++ [strip (str (snd r))].

(** *** [parse_prolog_rule] *)

(** [s.split(':-')] when it has exactly two parts: the text before
    the first [:-] and the text after it, free of [:-]. *)
Fixpoint split_first (p l : list ascii) : option (list ascii * list ascii) :=
  if starts_with p l then Some ([], drop (length p) l)
  else match l with
       | [] => None
       | c :: l' => option_map (fun r => (c :: fst r, snd r)) (split_first p l')
       end.

Definition split_rule (rule_str : string) : option (string * string) :=
  match split_first (chars ":-") (chars rule_str) with
  | Some (before, after) =>
      if contains (chars ":-") after then None else Some (str before, str after)
  | None => None
  end.

(** The test of line 151. *)
Definition skipped (premise_str : string) : bool :=
  contains (chars "\=") (chars premise_str) || starts_with (chars "_") (chars premise_str).

(** The loop of lines 149-156. *)
Fixpoint parse_premises (premise_strs : list string) : list Fact :=
  match premise_strs with
  | [] => []
  | premise_str :: rest =>
      if skipped premise_str then parse_premises rest
      else match parse_prolog_fact premise_str with
           | Some premise => premise :: parse_premises rest
           | None => parse_premises rest
           end
  end.

Definition parse_prolog_rule (rule_str : string) : option Rule :=
  let rule_str := rstrip_dots (strip rule_str) in
  match split_rule rule_str with
  | None => None
  | Some (before, after) =>
      let conclusion_str := strip before in
      let premises_str := strip after in
      match parse_prolog_fact conclusion_str with
      | None => None
      | Some conclusion =>
          Some (mkRule conclusion (parse_premises (split_premises premises_str)))
      end
  end.

(** *** [parse_prolog_line] *)

Inductive clause : Type :=
  | ParsedFact (f : Fact)
  | ParsedRule (r : Rule).

Definition parse_prolog_line (line : string) : option clause :=
  let line := strip line in
  if bool_decide (line = "") || starts_with (chars "%") (chars line) then None
  else if contains (chars ":-") (chars line) then option_map ParsedRule (parse_prolog_rule line)
  else option_map ParsedFact (parse_prolog_fact line).

(** *** [parse_prolog_file] *)

(** [s.endswith('.')]. *)
Definition ends_with_dot (s : string) : bool :=
  match rev (chars s) with
  | c :: _ => is_char "." c
  | [] => false
  end.

(** The body of the loop over the lines of the file, lines 205-225, on
    [facts], [rules] and [current_statement]. *)
Definition file_step (acc : list Fact * list Rule * string) (line : string)
    : list Fact * list Rule * string :=
  match acc with
  | (facts, rules, current_statement) =>
      let line := strip line in
      if bool_decide (line = "") || starts_with (chars "%") (chars line) then acc
      else
        let current_statement := current_statement +:+ " " +:+ line in
        if ends_with_dot (strip current_statement) then
          match parse_prolog_line current_statement with
          | Some (ParsedFact fact) => (facts ++ [fact], rules, "")
          | Some (ParsedRule rule) => (facts, rules ++ [rule], "")
          | None => (facts, rules, "")
          end
        else (facts, rules, current_statement)
  end.

(** [parse_prolog_file], on the lines that iterating over the open file
    yields. *)
Definition parse_prolog_file (lines : list string) : list Fact * list Rule :=
  fst (fold_left file_step lines ([], [], "")).

(** *** [convert_to_python_variable] *)

Definition convert_to_python_variable (prolog_var : string) : string :=
  match prolog_var with
  | String c _ => if is_upper c then "?" +:+ prolog_var else prolog_var
  | EmptyString => prolog_var
  end.

End Parser.

(** ** Documents: [kb_to_chromadb.py] and [build_kb_from_retrieved] *)

(** The dictionaries with the keys [text], [prolog], [predicate] and
    [type] that [create_fact_document] and [create_rule_document]
    build, and that [query_kb] returns. *)
Record document : Type := mkDocument {
  text : string;
  prolog : string;
  doc_predicate : string;
  doc_type : string
}.

(** [create_fact_document], lines 45-72. [None] is the [IndexError] of
    [args[0]] or [args[1]]. *)
Definition create_fact_document (fact : Fact) : option document :=
  let fact_str := Fact_repr fact in
  let pred := predicate fact in
  let description :=
    if bool_decide (pred = "park_worker") then
      a0 ← args fact !! 0; Some (a0 +:+ " is a park worker")
    else if bool_decide (pred = "boss") then
      a0 ← args fact !! 0; Some (a0 +:+ " is a boss")
    else if bool_decide (pred = "park_manager") then
      a0 ← args fact !! 0; Some (a0 +:+ " is a park manager")
    else if bool_decide (pred = "character_type") then
      a0 ← args fact !! 0; a1 ← args fact !! 1; Some (a0 +:+ " is a " +:+ a1)
    else if bool_decide (pred = "friends") then
      a0 ← args fact !! 0; a1 ← args fact !! 1;
      Some (a0 +:+ " and " +:+ a1 +:+ " are friends")
    else if bool_decide (pred = "reports_to") then
      a0 ← args fact !! 0; a1 ← args fact !! 1;
      Some (a0 +:+ " reports to " +:+ a1)
    else Some fact_str in
  d ← description; Some (mkDocument d fact_str pred "fact").

(** [create_rule_document], lines 85-108. *)
Definition create_rule_document (rule : Rule) : document :=
  let rule_str := Rule_repr rule in
  let pred := predicate (conclusion rule) in
  let description :=
    if bool_decide (pred = "in_charge_of") then
      "Someone is in charge of another person if that person reports to them"
    else if bool_decide (pred = "work_together") then
      "Two people work together if they are both park workers and different people"
    else if bool_decide (pred = "has_authority") then
      "Someone has authority if they are a boss or park manager"
    else if bool_decide (pred = "is_subordinate") then
      "Someone is a subordinate if they report to someone"
    else "Rule: " +:+ rule_str in
  mkDocument description rule_str pred "rule".

(** One iteration of the loop of [build_kb_from_retrieved], lines
    171-181 of [langchain_reasoner.py] (and of [build_kb_node], lines
    348-357 of [langgraph_reasoner.py]). *)
Definition build_kb_step (kb : KnowledgeBase) (doc : document) : KnowledgeBase :=
  match Parser.parse_prolog_line (prolog doc) with
  | Some (Parser.ParsedFact obj) => add_fact kb obj
  | Some (Parser.ParsedRule obj) => add_rule kb obj
  | None => kb
  end.

Definition build_kb_from_retrieved (retrieved_docs : list document) : KnowledgeBase :=
  fold_left build_kb_step retrieved_docs empty_kb.


(** ** The reasoning pipelines *)

#[global] Instance Rule_eq_dec : EqDecision Rule.
Proof. solve_decision. Defined.

#[global] Instance clause_eq_dec : EqDecision Parser.clause.
Proof. solve_decision. Defined.

(** [s.replace("```", "")]: the occurrences of the fence, from the
    left and without overlap, are removed. *)
Fixpoint remove_fences (l : list ascii) : list ascii :=
  match l with
  | "`"%char :: "`"%char :: "`"%char :: rest => remove_fences rest
  | c :: rest => c :: remove_fences rest
  | [] => []
  end.

(** What a prover with [trace] set has printed: the messages and their
    indentation, oldest first; nothing when [trace] is not set. *)
Definition printed (c : BackwardChainer) : list (nat * trace_msg) :=
  if trace c then
    rev (omap (fun e => match e with
                        | Print depth m => Some (depth, m)
                        | Push _ => None
                        end) (history (state c)))
  else [].

(** *** [LangChainReasoner], [task_8/langchain_reasoner.py] *)

Module LangChain.

(** The dictionary that [reason] returns: lines 219-224 when the
    question could not be turned into an atom, lines 259-270
    otherwise. *)
Inductive reasoning : Type :=
  | Failed (question error : string)
  | Answered (question query : string) (result : bool)
      (trace : list (nat * trace_msg)) (retrieved_kb : list string)
      (kb_facts kb_rules : nat).

Section Reasoner.

(** The two services that the pipeline calls: the vector store behind
    [query_kb], and the language model behind [parse_chain], with the
    content of its response; [None] is an exception raised by the
    call. *)
Variable query_kb : string -> nat -> list document.
Variable parse_chain : string -> option string.

(** [parse_question_to_fact], lines 140-157. *)
Definition parse_question_to_fact (question : string) : option Fact :=
  match parse_chain question with
  | None => None
  | Some content =>
      let prolog_query := Parser.strip content in
      let prolog_query :=
        Parser.strip (Parser.str (remove_fences (Parser.chars prolog_query))) in
      Parser.parse_prolog_fact prolog_query
  end.

(** [reason], lines 205-270. *)
Definition reason (question : string) (verbose : bool) : reasoning :=
  let retrieved_docs := query_kb question 15 in
  match parse_question_to_fact question with
  | None => Failed question "Failed to parse question"
  | Some fact =>
      let kb := build_kb_from_retrieved retrieved_docs in
      let chainer := BackwardChainer_init kb verbose 50 in
      let r := prove chainer fact in
      Answered question (Fact_repr fact) (fst r) (printed (snd r))
        (map prolog retrieved_docs) (length (facts kb)) (length (rules kb))
  end.

End Reasoner.

End LangChain.

(** *** The retrieval loop of [LangGraphReasoner],
    [task_9/langgraph_reasoner.py] *)

Module LangGraph.

(** [s.lower()]. *)
Definition lower (s : string) : string :=
  Parser.str (map (fun c => if Parser.is_upper c
                            then ascii_of_nat (Parser.code c + 32) else c)
                (Parser.chars s)).

(** The two targets of the conditional edge. *)
Inductive route : Type := refine | parse.

Section Graph.

(** Relevancy scores, with the test [score < 0.7] and the score [0.0]. *)
Variable Score : Type.
Variable below_threshold : Score -> bool.
Variable zero : Score.

(** The entries of [ReasoningState] that the nodes [retrieve],
    [judge_relevancy] and [refine] and the edge [should_refine] read
    or assign. *)
Record ReasoningState : Type := mkReasoningState {
  question : string;
  retrieved_docs : list document;
  relevancy_score : Score;
  relevancy_explanation : string;
  needs_refinement : bool;
  refinement_query : string;
  iteration : Z;
  max_iterations : Z
}.

(** The vector store behind [query_kb], and the language model of
    [judge_relevancy_node] together with the decoding of its response,
    lines 233-258: the score, the explanation and the refinement. *)
Variable query_kb : string -> nat -> list document.
Variable judge : ReasoningState -> Score * string * string.

(** The state that [reason] starts the graph with, lines 443-457. *)
Definition initial_state (q : string) (max_iter : Z) : ReasoningState :=
  mkReasoningState q [] zero "" false "" 0 max_iter.

(** [retrieve_node], lines 166-178: every state of the graph holds the
    key [refinement_query], so that [state.get] returns its value. *)
Definition retrieve_node (st : ReasoningState) : ReasoningState :=
  let query := refinement_query st in
  let docs := query_kb query 15 in
  mkReasoningState (question st) docs (relevancy_score st) (relevancy_explanation st)
    (needs_refinement st) (refinement_query st) (iteration st) (max_iterations st).

(** [judge_relevancy_node], lines 260-275. *)
Definition judge_relevancy_node (st : ReasoningState) : ReasoningState :=
  match judge st with
  | (score, explanation, refinement) =>
      let needs := below_threshold score
                   && negb (bool_decide (lower refinement = "none")) in
      mkReasoningState (question st) (retrieved_docs st) score explanation needs
        (if needs then refinement else question st) (iteration st) (max_iterations st)
  end.

(** [should_refine], lines 157-159. *)
Definition should_refine (st : ReasoningState) : route :=
  if needs_refinement st && bool_decide (iteration st < max_iterations st)%Z
  then refine else parse.

(** [refine_node], lines 283-298. *)
Definition refine_node (st : ReasoningState) : ReasoningState :=
  let additional_docs := query_kb (refinement_query st) 10 in
  let existing_prolog := map prolog (retrieved_docs st) in
  let new_docs :=
    filter (fun d => prolog d ∉ existing_prolog) additional_docs in
  let combined_docs := retrieved_docs st ++ new_docs in
  mkReasoningState (question st) combined_docs (relevancy_score st)
    (relevancy_explanation st) false (refinement_query st) (iteration st + 1)
    (max_iterations st).

(** The nodes of the graph from its entry point to [parse], lines
    117-126: the node that is run next. *)
Inductive node : Type := at_retrieve | at_judge_relevancy | at_refine | at_parse.

(** One step of the compiled graph, lines 129-141: the node is run on
    the state, and the edge that leaves it gives the node to run next.
    The node [parse] and the nodes behind it are not modelled: a run is
    followed until [parse] is the node to run. *)
Definition graph_step (cfg : node * ReasoningState) : node * ReasoningState :=
  match cfg with
  | (at_retrieve, st) => (at_judge_relevancy, retrieve_node st)
  | (at_judge_relevancy, st) =>
      let st1 := judge_relevancy_node st in
      (match should_refine st1 with
       | refine => at_refine
       | parse => at_parse
       end, st1)
  | (at_refine, st) => (at_judge_relevancy, refine_node st)
  | (at_parse, st) => (at_parse, st)
  end.

(** The graph after [steps] steps. [self.graph.invoke(initial_state)],
    line 460, runs the graph step by step from [retrieve] on the state
    that [reason] builds, and gives up with a [GraphRecursionError]
    when the number of steps reaches the recursion limit of the library
    (25 unless configured) before the graph has ended: what the source
    goes through is [run steps] for the numbers [steps] below that
    limit. *)
Fixpoint run (steps : nat) (cfg : node * ReasoningState) : node * ReasoningState :=
  match steps with
  | 0 => cfg
  | S steps' => run steps' (graph_step cfg)
  end.

End Graph.

Arguments question {Score} _.
Arguments retrieved_docs {Score} _.
Arguments relevancy_score {Score} _.
Arguments relevancy_explanation {Score} _.
Arguments needs_refinement {Score} _.
Arguments refinement_query {Score} _.
Arguments iteration {Score} _.
Arguments max_iterations {Score} _.
Arguments initial_state {Score} zero q max_iter.
Arguments retrieve_node {Score} query_kb st.
Arguments judge_relevancy_node {Score} below_threshold judge st.
Arguments should_refine {Score} st.
Arguments refine_node {Score} query_kb st.
Arguments graph_step {Score} below_threshold query_kb judge cfg.
Arguments run {Score} below_threshold query_kb judge steps cfg.

End LangGraph.

(** ** Notions used in the statements *)

(** Every key of an environment is a variable: what [Fact.match]
    maintains, since it only ever assigns to a resolved variable. *)
Definition keys_are_vars (b : bindings) : Prop :=
  forall k v, b !! k = Some v -> is_var k = true.

(** An atom with [suffix] appended to each of its variables, and its
    constants as they are. *)
Definition add_suffix (suffix : string) (f : Fact) : Fact :=
  mkFact (predicate f) (map (fun a => if is_var a then a +:+ suffix else a) (args f)).

(** ASCII characters and ASCII texts: those on which the character
    classes of the parser are the ones of Python. *)
Definition is_ascii (c : ascii) : bool := (Parser.code c <? 128)%nat.

Definition ascii_text (s : string) : bool := forallb is_ascii (Parser.chars s).

(** The atoms that survive printing and parsing: the predicate is a
    non-empty run of ASCII word characters; there is at least one
    argument; an argument is not empty, is not [_], does not start with
    an upper case letter, and is made of ASCII characters other than
    white space and [,], [(], [)], [:] and [\]. *)
Definition ok_char (c : ascii) : bool :=
  is_ascii c
  && negb (Parser.is_space c)
  && negb (bool_decide (c ∈ Parser.chars ",():\")).

Definition reloadable_arg (a : string) : bool :=
  match Parser.chars a with
  | [] => false
  | c :: _ =>
      negb (Parser.is_upper c) && negb (bool_decide (a = "_"))
      && forallb ok_char (Parser.chars a)
  end.

Definition is_identifier (s : string) : bool :=
  match Parser.chars s with
  | [] => false
  | cs => forallb Parser.is_word cs
  end.

Definition reloadable (f : Fact) : bool :=
  is_identifier (predicate f)
  && match args f with
     | [] => false
     | l => forallb reloadable_arg l
     end.

(** A premise moreover has a predicate that does not start with an
    underscore, and a rule has at least one premise. *)
Definition reloadable_premise (f : Fact) : bool :=
  reloadable f
  && negb (Parser.starts_with (Parser.chars "_") (Parser.chars (predicate f))).

Definition reloadable_rule (r : Rule) : bool :=
  reloadable (conclusion r)
  && match premises r with
     | [] => false
     | l => forallb reloadable_premise l
     end.

(** What follows the first item in the text of [', '.join(items)]. *)
Definition more_args (l : list string) : list ascii :=
  flat_map (fun x => ","%char :: " "%char :: Parser.chars x) l.

(** The document that [ingest_kb_to_chromadb] stores for a clause. *)
Definition document_of (c : Parser.clause) : option document :=
  match c with
  | Parser.ParsedFact f => create_fact_document f
  | Parser.ParsedRule r => Some (create_rule_document r)
  end.

Definition reloadable_clause (c : Parser.clause) : bool :=
  match c with
  | Parser.ParsedFact f => reloadable f
  | Parser.ParsedRule r => reloadable_rule r
  end.

(** [kb.add_fact] or [kb.add_rule], by the kind of the clause. *)
Definition add_clause (kb : KnowledgeBase) (c : Parser.clause) : KnowledgeBase :=
  match c with
  | Parser.ParsedFact f => add_fact kb f
  | Parser.ParsedRule r => add_rule kb r
  end.

Definition clause_fact (c : Parser.clause) : option Fact :=
  match c with Parser.ParsedFact f => Some f | Parser.ParsedRule _ => None end.

Definition clause_rule (c : Parser.clause) : option Rule :=
  match c with Parser.ParsedRule r => Some r | Parser.ParsedFact _ => None end.

(** [str(obj)] for the fact or rule of a clause. *)
Definition clause_repr (c : Parser.clause) : string :=
  match c with
  | Parser.ParsedFact f => Fact_repr f
  | Parser.ParsedRule r => Rule_repr r
  end.

(** The line of a knowledge base file for a clause: its text, a period
    and the end of the line. *)
Definition clause_line (c : Parser.clause) : string :=
  clause_repr c +:+ "." +:+ String "010"%char "".

(** A line that [parse_prolog_file] counts as the end of a statement. *)
Definition closes_statement (line : string) : bool :=
  negb (Parser.starts_with (Parser.chars "%") (Parser.chars (Parser.strip line)))
  && Parser.ends_with_dot (Parser.strip line).

(** The number of clauses in the state of the loop of
    [parse_prolog_file]. *)
Definition clauses_read (acc : list Fact * list Rule * string) : nat :=
  length (fst (fst acc)) + length (snd (fst acc)).

(** An answer: an environment that binds variables to constants. *)
Definition answer (b : bindings) : Prop :=
  forall k v, b !! k = Some v -> is_var k = true /\ is_var v = false.

(** An argument as [parse_prolog_fact] returns it: without white space
    around it, not [_], not starting with an upper case letter, and
    free of commas, closing parentheses and line feeds. *)
Definition parsed_arg (a : string) : Prop :=
  Parser.strip a = a
  /\ a <> "_"
  /\ (forall c r, a = String c r -> Parser.is_upper c = false)
  /\ (","%char ∉ Parser.chars a) /\ (")"%char ∉ Parser.chars a) /\ ("010"%char ∉ Parser.chars a).


(** The state in which the loop over [self.kb.rules], lines 247-265,
    of a call of [backchain_to_goal] that expands its goal reaches a
    rule: [before] are the rules in front of it, which the loop has
    been through, after the loop over the facts. *)
Definition rules_loop_state (c : BackwardChainer) (hypothesis : Fact) (b : bindings)
    (before : list Rule) : prover_state :=
  let bound_hypothesis := substitute hypothesis b in
  let st2 := push_goal bound_hypothesis
               (enter (_trace_print (TGoal bound_hypothesis) (state c))) in
  let nested := backchain (kb c) (max_depth c - S (trace_depth (state c))) in
  snd (fold_left (rule_step nested hypothesis b) before
         (fold_left (fact_step hypothesis b) (facts (kb c)) ([], st2))).

(** From [st] to [st'] the proved set has lost nothing. *)
Definition grows (st st' : prover_state) : Prop :=
  proved_goals st ⊆ proved_goals st'.

(** A chain of bindings: [chain b n value v] says that [n] steps from
    [value], each from a variable that [b] binds to what [b] binds it
    to, lead to [v], which [b] does not bind or which is no variable. *)
Inductive chain (b : bindings) : nat -> string -> string -> Prop :=
  | chain_end value :
      b !! value = None \/ is_var value = false -> chain b 0 value value
  | chain_next n value next_value v :
      is_var value = true -> b !! value = Some next_value ->
      chain b n next_value v -> chain b (S n) value v.

(** The cleaned environment of [b] for a query: it binds the
    variables of the query that [b] binds and whose chain in [b] ends
    at a constant, to that constant, and nothing else. *)
Definition reports (goal : Fact) (b clean : bindings) : Prop :=
  forall var v,
    clean !! var = Some v <->
    var ∈ args goal /\ is_var var = true /\ is_var v = false
    /\ exists first_value n, b !! var = Some first_value /\ chain b n first_value v.

(** The steps that a run of the graph from a node still takes, at
    most, until [parse] is the node to run. *)
Definition steps_to_parse {Score : Type}
    (cfg : LangGraph.node * LangGraph.ReasoningState Score) : nat :=
  match cfg with
  | (LangGraph.at_retrieve, st) =>
      2 + 2 * Z.to_nat (LangGraph.max_iterations st - LangGraph.iteration st)
  | (LangGraph.at_judge_relevancy, st) =>
      1 + 2 * Z.to_nat (LangGraph.max_iterations st - LangGraph.iteration st)
  | (LangGraph.at_refine, st) =>
      2 + 2 * Z.to_nat (LangGraph.max_iterations st - LangGraph.iteration st - 1)
  | (LangGraph.at_parse, _) => 0
  end.

(** What every step of the graph keeps, on the way from [retrieve] to
    [parse] for the question [q] and the limit [max_iter]. *)
Definition retrieval_invariant {Score : Type}
    (query_kb : string -> nat -> list document) (q : string) (max_iter : Z)
    (cfg : LangGraph.node * LangGraph.ReasoningState Score) : Prop :=
  LangGraph.question (snd cfg) = q
  /\ LangGraph.max_iterations (snd cfg) = max_iter
  /\ (0 <= LangGraph.iteration (snd cfg) <= Z.max 0 max_iter)%Z
  /\ (fst cfg = LangGraph.at_refine -> (LangGraph.iteration (snd cfg) < max_iter)%Z)
  /\ (fst cfg = LangGraph.at_parse -> LangGraph.should_refine (snd cfg) = LangGraph.parse)
  /\ (fst cfg <> LangGraph.at_retrieve ->
      exists more, LangGraph.retrieved_docs (snd cfg) = query_kb "" 15 ++ more)
  /\ (fst cfg = LangGraph.at_retrieve -> LangGraph.refinement_query (snd cfg) = "").

(** The goal expansions recorded in a history: one [Goal: ...] line per
    call of [backchain_to_goal]. *)
Fixpoint count_expansions (evs : list event) : nat :=
  match evs with
  | [] => 0
  | Print _ (TGoal _) :: evs' => S (count_expansions evs')
  | _ :: evs' => count_expansions evs'
  end.

Definition expansions (st : prover_state) : nat := count_expansions (history st).

(** Every goal stack recorded in a history has at most [limit] entries. *)
Definition stacks_within (limit : nat) (evs : list event) : Prop :=
  forall stack, Push stack ∈ evs -> length stack <= limit.

(** Bounds on a call of [_prove_premises] over [k] premises, when a call
    of [backchain_to_goal] returns at most [rb] environments and expands
    at most [sb] goals. *)
Fixpoint premises_results_bound (rb k : nat) : nat :=
  match k with
  | 0 => 1
  | S k' => rb * premises_results_bound rb k'
  end.

Fixpoint premises_steps_bound (rb sb k : nat) : nat :=
  match k with
  | 0 => 0
  | S k' => sb + rb * premises_steps_bound rb sb k'
  end.

(** Bounds on a call of [backchain_to_goal] with a given budget: the
    number of environments returned and the number of goals expanded. *)
Fixpoint results_bound (k : KnowledgeBase) (budget : nat) : nat :=
  match budget with
  | 0 => 0
  | S budget' =>
      1 + length (facts k)
      + sum_list (map (fun r => premises_results_bound (results_bound k budget')
                                  (length (premises r)))
                      (rules k))
  end.

Fixpoint steps_bound (k : KnowledgeBase) (budget : nat) : nat :=
  match budget with
  | 0 => 1
  | S budget' =>
      1 + sum_list (map (fun r => premises_steps_bound (results_bound k budget')
                                    (steps_bound k budget') (length (premises r)))
                        (rules k))
  end.

(** The objects that a program reaches through the constructor and
    calls of the two public methods that have returned. (A call that
    Python ends with a [RecursionError] does not return; it leaves its
    goals on the stack.) *)
Inductive reachable : BackwardChainer -> Prop :=
  | reachable_init k tr md : reachable (BackwardChainer_init k tr md)
  | reachable_prove c hypothesis :
      reachable c -> reachable (snd (prove c hypothesis))
  | reachable_prove_with_bindings c hypothesis :
      reachable c -> reachable (snd (prove_with_bindings c hypothesis)).

(** What a stretch of execution may do to the state: expand at most
    [sb] goals, leave the goal stack and [trace_depth] as they were,
    never lower the rule counter, and record no goal stack longer than
    [limit]. *)
Definition extends (limit sb : nat) (st st' : prover_state) : Prop :=
  expansions st' <= expansions st + sb
  /\ current_goals st' = current_goals st
  /\ trace_depth st' = trace_depth st
  /\ rule_counter st <= rule_counter st'
  /\ (stacks_within limit (history st) -> stacks_within limit (history st')).

(** The specification of [backchain_to_goal] with budget [k], on a
    state whose goal stack leaves room for [k] more entries. *)
Definition call_spec (limit k rb sb : nat)
    (call : Fact -> bindings -> prover_state -> list bindings * prover_state) : Prop :=
  forall h b st,
    length (current_goals st) + k <= limit ->
    length (fst (call h b st)) <= rb /\ extends limit sb st (snd (call h b st)).

(** ** Sample knowledge bases *)

(** A fragment of [create_animal_knowledge_base]. *)
Definition animals : KnowledgeBase :=
  mkKB [mkFact "has_fur" ["dog"]; mkFact "warm_blooded" ["dog"]]
       [mkRule (mkFact "mammal" ["?X"])
               [mkFact "has_fur" ["?X"]; mkFact "warm_blooded" ["?X"]]].

(** [create_family_knowledge_base]. *)
Definition family : KnowledgeBase :=
  mkKB [mkFact "father" ["john"; "mary"]; mkFact "father" ["john"; "tom"];
        mkFact "mother" ["susan"; "mary"]; mkFact "mother" ["susan"; "tom"];
        mkFact "father" ["tom"; "alice"]; mkFact "mother" ["jane"; "alice"]]
       [mkRule (mkFact "parent" ["?X"; "?Y"]) [mkFact "father" ["?X"; "?Y"]];
        mkRule (mkFact "parent" ["?X"; "?Y"]) [mkFact "mother" ["?X"; "?Y"]];
        mkRule (mkFact "grandparent" ["?X"; "?Z"])
               [mkFact "parent" ["?X"; "?Y"]; mkFact "parent" ["?Y"; "?Z"]]].

(** A rule with two variables over two unrelated facts. *)
Definition collision_kb : KnowledgeBase :=
  mkKB [mkFact "q" ["a"]; mkFact "s" ["b"]]
       [mkRule (mkFact "p" ["?A"; "?B"]) [mkFact "q" ["?A"]; mkFact "s" ["?B"]]].

(** * Properties *)

(** ** The chain walks never run out of fuel *)

Lemma size_diff_step (D seen : gset string) (x : string) :
  x ∈ D -> x ∉ seen ->
  S (size (D ∖ ({[x]} ∪ seen))) = size (D ∖ seen).
Proof.
  intros Hd Hs.
  assert (D ∖ seen = {[x]} ∪ (D ∖ ({[x]} ∪ seen))) as ->.
  { apply set_eq. intros y.
    rewrite elem_of_union, !elem_of_difference, elem_of_union, elem_of_singleton.
    destruct (decide (y = x)) as [->|]; tauto. }
  rewrite (size_union {[x]} (D ∖ ({[x]} ∪ seen))).
  - rewrite size_singleton. done.
  - intros y. rewrite elem_of_singleton, elem_of_difference, elem_of_union,
      elem_of_singleton. tauto.
Qed.

Lemma size_dom_diff_step (b : bindings) (seen : gset string) (x : string) :
  x ∈ dom b -> x ∉ seen ->
  S (size (dom b ∖ ({[x]} ∪ seen))) = size (dom b ∖ seen).
Proof. apply size_diff_step. Qed.

Lemma size_dom_diff_le (b : bindings) (seen : gset string) :
  size (dom b ∖ seen) <= size b.
Proof.
  rewrite <- (size_dom (D:=gset string)). apply subseteq_size.
  intros y. rewrite elem_of_difference. tauto.
Qed.

Lemma resolve_walk_fuel (b : bindings) (fuel : nat) :
  forall value seen,
    (b !! value = None /\ 1 <= fuel) \/ size (dom b ∖ seen) + 2 <= fuel ->
    is_Some (resolve_walk fuel b value seen).
Proof.
  induction fuel as [|fuel IH]; intros value seen H.
  - exfalso. destruct H as [[_ H]|H]; lia.
  - simpl. destruct (b !! value) as [next|] eqn:Hv; [|eauto].
    destruct H as [[? _]|H]; [congruence|].
    destruct (bool_decide (next = value) || bool_decide (next ∈ seen)) eqn:Hc; [eauto|].
    apply orb_false_iff in Hc as [_ Hc]. apply bool_decide_eq_false in Hc.
    apply IH. destruct (b !! next) eqn:Hn.
    + right. pose proof (size_dom_diff_step b seen next) as E.
      rewrite <- E in H; [lia| |done]. apply elem_of_dom. eauto.
    + left. split; [done|lia].
Qed.

Lemma resolve_binding_walk (var : string) (b : bindings) :
  resolve_walk (size b + 2) b var {[var]} = Some (_resolve_binding var b).
Proof.
  unfold _resolve_binding.
  destruct (resolve_walk_fuel b (size b + 2) var {[var]}) as [v ->]; [|done].
  right. pose proof (size_dom_diff_le b {[var]}). lia.
Qed.

Lemma extract_walk_fuel (b : bindings) (fuel : nat) :
  forall value seen,
    size (dom b ∖ seen) + 1 <= fuel ->
    is_Some (extract_walk fuel b value seen).
Proof.
  induction fuel as [|fuel IH]; intros value seen H; [lia|].
  simpl. destruct (b !! value) as [next|] eqn:Hv; [|eauto].
  destruct (is_var value); [|eauto].
  destruct (bool_decide (value ∈ seen)) eqn:Hc; [eauto|].
  apply bool_decide_eq_false in Hc. apply IH.
  pose proof (size_dom_diff_step b seen value) as E.
  rewrite <- E in H; [lia| |done]. apply elem_of_dom. eauto.
Qed.


Lemma size_diff_same (D seen : gset string) (x : string) :
  x ∈ seen -> size (D ∖ ({[x]} ∪ seen)) = size (D ∖ seen).
Proof.
  intros Hx. f_equal. apply set_eq. intros y.
  rewrite !elem_of_difference, elem_of_union, elem_of_singleton.
  split; [tauto|]. intros [? Hn]. split; [done|]. intros [->|?]; auto.
Qed.

Lemma substitute_walk_fuel (b : bindings) (arg : string) (n : nat) :
  forall fuel value seen,
    arg ∈ seen ->
    size (dom b ∖ seen) <= n ->
    2 * n + (if bool_decide (value = arg) then 2 else 1) <= fuel ->
    is_Some (substitute_walk fuel b arg value seen).
Proof.
  induction n as [n IH] using lt_wf_ind.
  assert (Hne : forall fuel value seen,
             value <> arg -> arg ∈ seen -> size (dom b ∖ seen) <= n ->
             2 * n + 1 <= fuel -> is_Some (substitute_walk fuel b arg value seen)).
  { intros [|fuel] value seen Hv Ha Hn Hf; [lia|]. simpl.
    destruct (b !! value) as [next|] eqn:Hb; [|eauto].
    rewrite (bool_decide_eq_false_2 (value = arg)) by done. simpl.
    rewrite andb_true_r.
    destruct (bool_decide (value ∈ seen)) eqn:Hs; [eauto|].
    apply bool_decide_eq_false in Hs.
    destruct (bool_decide (next = value)); [eauto|].
    pose proof (size_dom_diff_step b seen value) as E.
    assert (value ∈ dom b) by (apply elem_of_dom; eauto).
    destruct n as [|n]; [specialize (E ltac:(done) Hs); lia|].
    apply (IH n); [lia|set_solver|specialize (E ltac:(done) Hs); lia|].
    destruct (bool_decide (next = arg)); lia. }
  intros fuel value seen Ha Hn Hf.
  destruct (decide (value = arg)) as [->|Hv].
  - rewrite bool_decide_eq_true_2 in Hf by done.
    destruct fuel as [|fuel]; [lia|]. simpl.
    destruct (b !! arg) as [next|] eqn:Hb; [|eauto].
    rewrite (bool_decide_eq_true_2 (arg = arg)) by done. simpl. rewrite andb_false_r.
    destruct (bool_decide (next = arg)) eqn:Hnx; [eauto|].
    apply bool_decide_eq_false in Hnx.
    apply Hne; [done|set_solver| |lia].
    pose proof (size_diff_same (dom b) seen arg Ha) as E. simpl in E. rewrite E. done.
  - rewrite bool_decide_eq_false_2 in Hf by done. apply Hne; done.
Qed.

Lemma extract_walk_enough (b : bindings) (var value : string) :
  is_Some (extract_walk (size b + 1) b value {[var]}).
Proof.
  apply extract_walk_fuel. pose proof (size_dom_diff_le b {[var]}). lia.
Qed.

Lemma substitute_arg_walk (b : bindings) (arg : string) :
  substitute_walk (2 * size b + 2) b arg arg {[arg]} = Some (substitute_arg b arg).
Proof.
  unfold substitute_arg.
  destruct (substitute_walk_fuel b arg (size b) (2 * size b + 2) arg {[arg]})
    as [v ->]; [set_solver|apply size_dom_diff_le| |done].
  rewrite bool_decide_eq_true_2 by done. lia.
Qed.

(** ** Bounds and frame of the prover *)

Section Bounds.
Variable kb : KnowledgeBase.
Variable limit : nat.

Lemma extends_refl st : extends limit 0 st st.
Proof. unfold extends. repeat split; auto; lia. Qed.

Lemma extends_trans s1 s2 st1 st2 st3 :
  extends limit s1 st1 st2 -> extends limit s2 st2 st3 -> extends limit (s1 + s2) st1 st3.
Proof.
  unfold extends. intros (?&?&?&?&?) (?&?&?&?&?).
  repeat split; try congruence; try lia; auto.
Qed.

Lemma extends_weaken s s' st st' :
  extends limit s st st' -> s <= s' -> extends limit s' st st'.
Proof. unfold extends. intros (?&?&?&?&?) ?. repeat split; auto; lia. Qed.

Lemma stacks_within_print d m evs :
  stacks_within limit evs -> stacks_within limit (Print d m :: evs).
Proof.
  intros H stack Hin. apply elem_of_cons in Hin as [Hin|Hin]; [discriminate|auto].
Qed.

Lemma extends_print m st :
  (forall g, m <> TGoal g) -> extends limit 0 st (_trace_print m st).
Proof.
  intros Hm. unfold extends, expansions. simpl. repeat split; auto.
  - destruct m; try lia. exfalso. eapply Hm. reflexivity.
  - apply stacks_within_print.
Qed.

Lemma extends_record h mb st : extends limit 0 st (record_proved h mb st).
Proof. unfold extends, expansions. simpl. repeat split; auto; lia. Qed.

Lemma extends_rename r st : extends limit 0 st (snd (_rename_rule_variables r st)).
Proof. unfold extends, expansions. simpl. repeat split; auto; lia. Qed.

Lemma fold_extends {A : Type}
    (f : list bindings * prover_state -> A -> list bindings * prover_state)
    (k : nat) (R S : A -> nat) :
  (forall acc x,
      length (current_goals (snd acc)) + k <= limit ->
      length (fst (f acc x)) <= length (fst acc) + R x
      /\ extends limit (S x) (snd acc) (snd (f acc x))) ->
  forall xs acc,
    length (current_goals (snd acc)) + k <= limit ->
    length (fst (fold_left f xs acc)) <= length (fst acc) + sum_list (map R xs)
    /\ extends limit (sum_list (map S xs)) (snd acc) (snd (fold_left f xs acc)).
Proof.
  intros Hf. induction xs as [|x xs IH]; intros acc Hacc; simpl.
  - split; [lia|apply extends_refl].
  - destruct (Hf acc x Hacc) as [Hl He].
    assert (Hacc' : length (current_goals (snd (f acc x))) + k <= limit).
    { destruct He as (_&->&_). done. }
    destruct (IH _ Hacc') as [Hl' He']. split; [lia|].
    eapply extends_trans; eauto.
Qed.

Lemma fact_step_spec h b acc fact :
  length (fst (fact_step h b acc fact)) <= length (fst acc) + 1
  /\ extends limit 0 (snd acc) (snd (fact_step h b acc fact)).
Proof.
  unfold fact_step. destruct (Fact_match h fact b); simpl.
  - rewrite length_app. simpl. split; [lia|].
    apply (extends_trans 0 0 _ (_trace_print (TMatchedFact fact) (snd acc))).
    + apply extends_print. discriminate.
    + apply extends_record.
  - split; [lia|apply extends_refl].
Qed.

Lemma sum_list_const {A : Type} (c : nat) (xs : list A) :
  sum_list (map (fun _ => c) xs) = length xs * c.
Proof. induction xs; simpl; lia. Qed.

Section Premises.
Variables (k rb sb : nat).
Variable call : Fact -> bindings -> prover_state -> list bindings * prover_state.
Hypothesis Hcall : call_spec limit k rb sb call.

Lemma prove_premises_spec (ps : list Fact) :
  forall b st,
    length (current_goals st) + k <= limit ->
    length (fst (_prove_premises_with call ps b st))
      <= premises_results_bound rb (length ps)
    /\ extends limit (premises_steps_bound rb sb (length ps)) st
         (snd (_prove_premises_with call ps b st)).
Proof.
  induction ps as [|p ps IH]; intros b st Hst.
  - simpl. split; [lia|apply extends_refl].
  - cbn [_prove_premises_with length premises_results_bound premises_steps_bound].
    destruct (Hcall p b st Hst) as [Hl He].
    set (first := call p b st) in *.
    destruct (fst first) as [|r0 rs] eqn:Hfirst.
    + simpl. split; [lia|]. eapply extends_weaken; [exact He|lia].
    + cbv beta iota. rewrite <- Hfirst in Hl |- *. clear Hfirst r0 rs.
      assert (Hst1 : length (current_goals (snd first)) + k <= limit).
      { destruct He as (_&->&_). done. }
      match goal with |- context [fold_left ?f _ _] => set (body := f) end.
      destruct (fold_extends body k
                  (fun _ => premises_results_bound rb (length ps))
                  (fun _ => premises_steps_bound rb sb (length ps))) with
        (xs := fst first) (acc := ([] : list bindings, snd first)) as [Hl' He'].
      * intros acc x Hacc. unfold body. destruct ps as [|p' ps'].
        -- simpl. rewrite length_app. simpl. split; [lia|apply extends_refl].
        -- destruct (IH x (snd acc) Hacc) as [Hl1 He1].
           cbn [fst snd]. rewrite length_app. split; [lia|exact He1].
      * exact Hst1.
      * rewrite !sum_list_const in *. simpl in Hl'. split.
        -- etrans; [exact Hl'|]. apply Nat.mul_le_mono_r. exact Hl.
        -- eapply extends_weaken; [eapply extends_trans; [exact He|exact He']|].
           apply Nat.add_le_mono_l. apply Nat.mul_le_mono_r. exact Hl.
Qed.

Lemma rename_premises_length r st :
  length (premises (fst (_rename_rule_variables r st))) = length (premises r).
Proof. simpl. apply length_map. Qed.

Lemma rule_step_spec h b acc rule :
  length (current_goals (snd acc)) + k <= limit ->
  length (fst (rule_step call h b acc rule))
    <= length (fst acc) + premises_results_bound rb (length (premises rule))
  /\ extends limit (premises_steps_bound rb sb (length (premises rule))) (snd acc)
       (snd (rule_step call h b acc rule)).
Proof.
  intros Hacc. unfold rule_step.
  set (renamed := _rename_rule_variables rule (snd acc)).
  assert (Hr : extends limit 0 (snd acc) (snd renamed)) by apply extends_rename.
  destruct (Fact_match h (conclusion (fst renamed)) b) as [mb|]; cbn [fst snd].
  - set (st1 := _trace_print (TTryingRule rule) (snd renamed)).
    assert (H1 : extends limit 0 (snd acc) st1).
    { apply (extends_trans 0 0 _ (snd renamed)); [done|].
      apply extends_print. discriminate. }
    assert (Hst1 : length (current_goals st1) + k <= limit).
    { destruct H1 as (_&->&_). done. }
    destruct (prove_premises_spec (premises (fst renamed)) mb st1 Hst1) as [Hl He].
    unfold renamed in Hl, He. rewrite rename_premises_length in Hl, He.
    fold renamed in Hl, He.
    set (proved := _prove_premises_with call (premises (fst renamed)) mb st1) in *.
    assert (H2 : extends limit (premises_steps_bound rb sb (length (premises rule)))
                   (snd acc) (snd proved)).
    { apply (extends_trans 0 _ _ st1); done. }
    destruct (fst proved) as [|r0 rs] eqn:Hp; cbn [fst snd].
    + split; [lia|].
      eapply extends_weaken; [eapply extends_trans; [exact H2|]|].
      * apply extends_print. discriminate.
      * lia.
    + rewrite length_app. split; [lia|].
      eapply extends_weaken; [eapply extends_trans; [exact H2|]|].
      * apply (extends_trans 0 0 _ (_trace_print (TRuleSucceeded rule) (snd proved))).
        -- apply extends_print. discriminate.
        -- apply extends_record.
      * lia.
  - split; [lia|]. eapply extends_weaken; [exact Hr|lia].
Qed.
End Premises.

Lemma backchain_spec (n : nat) :
  call_spec limit n (results_bound kb n) (steps_bound kb n) (backchain kb n).
Proof.
  induction n as [|n IH]; intros h b st Hst.
  - simpl. split; [lia|]. unfold extends, expansions. simpl.
    repeat split; auto; try lia.
    intros H. do 2 apply stacks_within_print. exact H.
  - cbn [backchain results_bound steps_bound].
    set (bound := substitute h b).
    set (st1 := enter (_trace_print (TGoal bound) st)).
    destruct (bool_decide (bound ∈ current_goals st1)).
    { simpl. split; [lia|]. unfold extends, expansions. simpl.
      repeat split; auto; try lia.
      intros H. do 2 apply stacks_within_print. exact H. }
    destruct (bool_decide (bound ∈ proved_goals st1)).
    { simpl. split; [lia|]. unfold extends, expansions. simpl.
      repeat split; auto; try lia.
      intros H. do 2 apply stacks_within_print. exact H. }
    set (st2 := push_goal bound st1).
    assert (Hst2 : length (current_goals st2) + n <= limit).
    { simpl. rewrite length_app. simpl. lia. }
    destruct (fold_extends (fact_step h b) n (fun _ => 1) (fun _ => 0)) with
      (xs := facts kb) (acc := ([] : list bindings, st2)) as [Hlf Hef].
    { intros acc x _. apply fact_step_spec. }
    { exact Hst2. }
    set (after_facts := fold_left (fact_step h b) (facts kb) ([], st2)) in *.
    assert (Haf : length (current_goals (snd after_facts)) + n <= limit).
    { destruct Hef as (_&->&_). exact Hst2. }
    destruct (fold_extends (rule_step (backchain kb n) h b) n
                (fun r => premises_results_bound (results_bound kb n) (length (premises r)))
                (fun r => premises_steps_bound (results_bound kb n) (steps_bound kb n)
                            (length (premises r)))) with
      (xs := rules kb) (acc := after_facts) as [Hlr Her].
    { intros acc x Hacc.
      apply (rule_step_spec n (results_bound kb n) (steps_bound kb n) (backchain kb n) IH).
      exact Hacc. }
    { exact Haf. }
    set (after_rules := fold_left (rule_step (backchain kb n) h b) (rules kb) after_facts) in *.
    rewrite !sum_list_const in *. cbn [fst snd length] in *.
    split; [lia|].
    assert (H2 : extends limit
                   (sum_list (map (fun r => premises_steps_bound (results_bound kb n)
                                   (steps_bound kb n) (length (premises r))) (rules kb)))
                   st2 (snd after_rules)).
    { eapply extends_weaken; [eapply extends_trans; [exact Hef|exact Her]|]. lia. }
    set (st3 := match fst after_rules with
                | [] => _trace_print (TCannotProve bound) (snd after_rules)
                | _ => snd after_rules
                end).
    assert (H3 : extends limit
                   (sum_list (map (fun r => premises_steps_bound (results_bound kb n)
                                   (steps_bound kb n) (length (premises r))) (rules kb)))
                   st2 st3).
    { unfold st3. destruct (fst after_rules); [|exact H2].
      eapply extends_weaken; [eapply extends_trans; [exact H2|]|].
      - apply extends_print. discriminate.
      - lia. }
    clearbody st3. destruct H3 as (He&Hc&Ht&Hr&Hs).
    unfold extends, expansions in *. simpl in *.
    rewrite Hc, Ht. rewrite removelast_last. repeat split; auto; try lia.
    intros H. apply Hs. intros stack Hin.
    apply elem_of_cons in Hin as [Hin|Hin].
    + injection Hin as ->. rewrite length_app. simpl. lia.
    + revert stack Hin. apply stacks_within_print. exact H.
Qed.
End Bounds.

(** ** Substitution and matching on simple inputs *)

Lemma substitute_arg_unbound (b : bindings) (a : string) :
  b !! a = None -> substitute_arg b a = a.
Proof.
  intros H. unfold substitute_arg.
  replace (2 * size b + 2) with (S (2 * size b + 1)) by lia.
  simpl. rewrite H. reflexivity.
Qed.

Lemma substitute_unbound (f : Fact) (b : bindings) :
  (forall a, a ∈ args f -> b !! a = None) -> substitute f b = f.
Proof.
  destruct f as [p l]. unfold substitute. simpl. intros H. f_equal.
  induction l as [|a l IH]; [done|]. simpl. f_equal.
  - apply substitute_arg_unbound, H. left.
  - apply IH. intros a' Ha'. apply H. right. done.
Qed.

Lemma substitute_empty (f : Fact) : substitute f ∅ = f.
Proof. apply substitute_unbound. intros. apply lookup_empty. Qed.

Lemma is_ground_args (f : Fact) (a : string) :
  is_ground f = true -> a ∈ args f -> is_var a = false.
Proof.
  unfold is_ground. rewrite forallb_forall. intros H Ha.
  apply list_elem_of_In in Ha. apply H in Ha. destruct (is_var a); done.
Qed.

Lemma substitute_ground (f : Fact) (b : bindings) :
  is_ground f = true -> keys_are_vars b -> substitute f b = f.
Proof.
  intros Hg Hk. apply substitute_unbound. intros a Ha.
  destruct (b !! a) as [v|] eqn:Hb; [|done].
  apply Hk in Hb. rewrite (is_ground_args f a Hg Ha) in Hb. discriminate.
Qed.

Lemma match_arg_same (a : string) (b : bindings) : match_arg a a b = Some b.
Proof.
  unfold match_arg.
  set (r := if is_var a then _resolve_binding a b else a).
  destruct (is_var r); simpl.
  - rewrite bool_decide_eq_false_2; [done|]. intros H. by apply H.
  - rewrite bool_decide_eq_false_2; [done|]. intros H. by apply H.
Qed.

Lemma match_args_same (l : list string) (b : bindings) :
  match_args (zip l l) b = Some b.
Proof. induction l as [|a l IH]; [done|]. simpl. rewrite match_arg_same. exact IH. Qed.

Lemma Fact_match_same (f : Fact) (b : bindings) : Fact_match f f b = Some b.
Proof.
  unfold Fact_match.
  rewrite bool_decide_eq_false_2 by (intros H; by apply H).
  rewrite bool_decide_eq_false_2 by (intros H; by apply H).
  apply match_args_same.
Qed.

(** [Fact.match] only ever assigns to variables. *)
Lemma match_arg_keys (x y : string) (b b' : bindings) :
  keys_are_vars b -> match_arg x y b = Some b' -> keys_are_vars b'.
Proof.
  unfold match_arg.
  set (rs := if is_var x then _resolve_binding x b else x).
  set (ro := if is_var y then _resolve_binding y b else y).
  intros Hk H.
  assert (Hins : forall k v, is_var k = true -> keys_are_vars (<[k := v]> b)).
  { intros k v Hv k' v' Hl. apply lookup_insert_Some in Hl as [[<- _]|[_ Hl]]; eauto. }
  destruct (is_var rs) eqn:Hrs, (is_var ro) eqn:Hro; simpl in H;
    repeat case_bool_decide; simplify_eq; auto.
Qed.

Lemma match_args_keys (pairs : list (string * string)) :
  forall b b', keys_are_vars b -> match_args pairs b = Some b' -> keys_are_vars b'.
Proof.
  induction pairs as [|[x y] pairs IH]; intros b b' Hk H; simpl in H.
  - by simplify_eq.
  - destruct (match_arg x y b) as [b1|] eqn:H1; [|done].
    eapply IH; [|exact H]. eapply match_arg_keys; eauto.
Qed.

Lemma Fact_match_keys (f g : Fact) (b b' : bindings) :
  keys_are_vars b -> Fact_match f g b = Some b' -> keys_are_vars b'.
Proof.
  unfold Fact_match. intros Hk H. repeat case_bool_decide; try done.
  eapply match_args_keys; eauto.
Qed.

Lemma keys_are_vars_empty : keys_are_vars ∅.
Proof. intros k v H. by rewrite lookup_empty in H. Qed.

(** ** Solution surfacing on variable-free goals and empty environments *)

Lemma query_vars_ground (goal : Fact) : is_ground goal = true -> query_vars goal = [].
Proof.
  unfold is_ground, query_vars. induction (args goal) as [|a l IH]; [done|].
  simpl. intros H. apply andb_true_iff in H as [Ha Hl].
  rewrite filter_cons. destruct (decide (is_var a = true)) as [E|_].
  - rewrite E in Ha. discriminate.
  - auto.
Qed.

Lemma clean_bindings_of_empty (goal : Fact) : clean_bindings_of goal ∅ = ∅.
Proof.
  unfold clean_bindings_of. induction (query_vars goal) as [|v l IH]; [done|].
  simpl. unfold clean_step at 2. rewrite lookup_empty. exact IH.
Qed.

Lemma clean_bindings_of_ground (goal : Fact) (b : bindings) :
  is_ground goal = true -> clean_bindings_of goal b = ∅.
Proof. intros Hg. unfold clean_bindings_of. by rewrite (query_vars_ground goal Hg). Qed.

Lemma extract_ground (goal : Fact) (bl : list bindings) :
  is_ground goal = true -> extract_query_bindings goal bl = [].
Proof.
  intros Hg. unfold extract_query_bindings.
  assert (E : filter (fun clean : bindings => clean ≠ ∅)
                (map (clean_bindings_of goal) bl) = []).
  { induction bl as [|b bl IH]; [done|]. simpl. rewrite filter_cons.
    rewrite (clean_bindings_of_ground goal b Hg).
    destruct (decide ((∅ : bindings) ≠ ∅)); [done|exact IH]. }
  rewrite E. reflexivity.
Qed.

(** ** The scenarios of the demonstration *)

Example family_parents_of_alice :
  fst (solve (BackwardChainer_new family) (mkFact "parent" ["?X"; "alice"]))
  = [{["?X" := "tom"]}; {["?X" := "jane"]}].
Proof. vm_compute. reflexivity. Qed.

Example family_grandparents_of_alice :
  fst (solve (BackwardChainer_new family) (mkFact "grandparent" ["?X"; "alice"]))
  = [{["?X" := "john"]}; {["?X" := "susan"]}].
Proof. vm_compute. reflexivity. Qed.

Example family_susan_parent_of_tom :
  fst (prove (BackwardChainer_new family) (mkFact "parent" ["susan"; "tom"])) = true.
Proof. vm_compute. reflexivity. Qed.

Example animals_dog_is_mammal :
  fst (prove (BackwardChainer_new animals) (mkFact "mammal" ["dog"])) = true.
Proof. vm_compute. reflexivity. Qed.

(** ** The objects a program reaches *)

(** The test of line 213, made after the increment of line 205. *)
Lemma budget_is_depth_test (limit depth : nat) :
  limit - depth = 0 <-> S depth > limit.
Proof. lia. Qed.

Lemma backchain_frame (k : KnowledgeBase) (n : nat) (h : Fact) (b : bindings)
    (st : prover_state) :
  current_goals (snd (backchain k n h b st)) = current_goals st
  /\ trace_depth (snd (backchain k n h b st)) = trace_depth st
  /\ rule_counter st <= rule_counter (snd (backchain k n h b st)).
Proof.
  destruct (backchain_spec k (length (current_goals st) + n) n h b st) as [_ (_&?&?&?&_)];
    [lia|auto].
Qed.

Lemma backchain_trace_depth (k : KnowledgeBase) (n : nat) (h : Fact) (b : bindings)
    (st : prover_state) :
  trace_depth (snd (backchain k n h b st)) = trace_depth st.
Proof. apply backchain_frame. Qed.

Lemma reachable_inv (c : BackwardChainer) :
  reachable c ->
  current_goals (state c) = [] /\ trace_depth (state c) = 0
  /\ stacks_within (max_depth c) (history (state c)).
Proof.
  assert (Hstep : forall c h,
             current_goals (state c) = [] /\ trace_depth (state c) = 0
             /\ stacks_within (max_depth c) (history (state c)) ->
             let c' := snd (backchain_to_goal (at_entry c) h ∅) in
             current_goals (state c') = [] /\ trace_depth (state c') = 0
             /\ stacks_within (max_depth c') (history (state c'))).
  { intros c0 h (Hc&Ht&Hs). simpl.
    destruct (backchain_spec (kb c0) (max_depth c0) (max_depth c0 - trace_depth (state c0)) h ∅
                (clear_proved (state c0))) as [_ (_&E1&E2&_&E3)].
    { simpl. rewrite Hc. simpl. lia. }
    simpl in *. rewrite E1, E2. auto. }
  induction 1 as [k tr md|c h _ IH|c h _ IH].
  - simpl. repeat split; auto. intros stack H. by apply elem_of_nil in H.
  - apply (Hstep c h IH).
  - apply (Hstep c h IH).
Qed.

Lemma add_fact_empty (f : Fact) : add_fact empty_kb f = mkKB [f] [].
Proof.
  unfold add_fact, empty_kb. cbn [facts rules].
  rewrite bool_decide_eq_false_2 by apply not_elem_of_nil. reflexivity.
Qed.

Lemma backchain_single_fact (f : Fact) (n : nat) (st : prover_state) :
  current_goals st = [] -> proved_goals st = ∅ ->
  fst (backchain (mkKB [f] []) (S n) f ∅ st) = [∅].
Proof.
  intros Hc Hp. cbn [backchain]. rewrite substitute_empty.
  cbn [current_goals proved_goals enter _trace_print]. rewrite Hc, Hp.
  rewrite bool_decide_eq_false_2 by apply not_elem_of_nil.
  rewrite bool_decide_eq_false_2 by apply not_elem_of_empty.
  cbn [facts rules fold_left fst snd]. unfold fact_step.
  rewrite Fact_match_same. reflexivity.
Qed.

(** C1, as amended. For a fact [f] added to an otherwise empty knowledge
    base, and a prover with a depth limit of at least one, [prove f]
    returns true and [prove_with_bindings f] returns exactly one
    environment, the empty one; [extract_query_bindings] keeps only the
    environments that bind a query variable to a constant, so [solve f]
    returns no solution, and for every variable-free goal
    [extract_query_bindings] returns the empty list. *)
Theorem fact_round_trip (f : Fact) (tr : bool) (md : nat) (goal : Fact)
    (bindings_list : list bindings) :
  is_ground goal = true ->
  let c := BackwardChainer_init (add_fact empty_kb f) tr (S md) in
  fst (prove c f) = true
  /\ fst (prove_with_bindings c f) = [∅]
  /\ fst (solve c f) = []
  /\ extract_query_bindings goal bindings_list = [].
Proof.
  intros Hg c.
  assert (Hp : fst (prove_with_bindings c f) = [∅]).
  { unfold prove_with_bindings, backchain_to_goal, c, BackwardChainer_init, at_entry.
    cbn [fst snd kb max_depth state trace_depth clear_proved initial_state].
    rewrite add_fact_empty. rewrite Nat.sub_0_r.
    apply backchain_single_fact; reflexivity. }
  repeat split.
  - unfold prove. fold (prove_with_bindings c f). rewrite Hp. reflexivity.
  - exact Hp.
  - unfold solve. rewrite Hp. unfold extract_query_bindings.
    cbn [map]. rewrite filter_cons. rewrite clean_bindings_of_empty.
    destruct (decide ((∅ : bindings) ≠ ∅)); done.
  - apply extract_ground, Hg.
Qed.

(** The round trip of [likes(alice, bob)]. *)
Lemma fact_round_trip_witness :
  let f := mkFact "likes" ["alice"; "bob"] in
  let c := BackwardChainer_init (add_fact empty_kb f) false 50 in
  fst (prove c f) = true
  /\ fst (prove_with_bindings c f) = [∅]
  /\ fst (solve c f) = []
  /\ extract_query_bindings f [∅] = [].
Proof.
  exact (fact_round_trip (mkFact "likes" ["alice"; "bob"]) false 49
           (mkFact "likes" ["alice"; "bob"]) [∅] eq_refl).
Defined.

(** [solve] of a ground fact of the knowledge base does not return one
    solution. *)
Lemma solve_fact_not_one_solution :
  let f := mkFact "likes" ["alice"; "bob"] in
  length (fst (solve (BackwardChainer_new (add_fact empty_kb f)) f)) <> 1.
Proof. vm_compute. discriminate. Qed.

(** C5. If the goal, after the current environment is applied to it,
    already sits on the goal stack, [backchain_to_goal] returns no
    solution and expands nothing: the goal stack, the proved set and the
    rule counter are as before, and the call has only printed its
    [Goal] line and a cycle (or depth) line. *)
Theorem cycle_fails_branch (c : BackwardChainer) (hypothesis : Fact) (b : bindings) :
  substitute hypothesis b ∈ current_goals (state c) ->
  let r := backchain_to_goal c hypothesis b in
  fst r = []
  /\ current_goals (state (snd r)) = current_goals (state c)
  /\ proved_goals (state (snd r)) = proved_goals (state c)
  /\ rule_counter (state (snd r)) = rule_counter (state c)
  /\ trace_depth (state (snd r)) = trace_depth (state c)
  /\ exists m,
       (m = TCycle (substitute hypothesis b) \/ m = TMaxDepth (substitute hypothesis b))
       /\ history (state (snd r))
          = Print (S (trace_depth (state c))) m
              :: Print (trace_depth (state c)) (TGoal (substitute hypothesis b))
              :: history (state c).
Proof.
  intros Hin r. unfold r, backchain_to_goal. cbn [fst snd state].
  destruct (max_depth c - trace_depth (state c)) as [|n].
  - cbn. repeat split. eexists. split; [right; reflexivity|reflexivity].
  - cbn [backchain]. cbn [current_goals enter _trace_print].
    rewrite bool_decide_eq_true_2 by exact Hin.
    cbn. repeat split. eexists. split; [left; reflexivity|reflexivity].
Qed.

(** [p(?X)] under [?X := a], with [p(a)] on the stack. *)
Lemma cycle_fails_branch_witness :
  let c := mkChainer (mkKB [mkFact "p" ["a"]] []) false 50
             (mkState 1 ∅ 0 [mkFact "p" ["a"]] []) in
  fst (backchain_to_goal c (mkFact "p" ["?X"]) {["?X" := "a"]}) = [].
Proof.
  refine (proj1 (cycle_fails_branch
                   (mkChainer (mkKB [mkFact "p" ["a"]] []) false 50
                      (mkState 1 ∅ 0 [mkFact "p" ["a"]] []))
                   (mkFact "p" ["?X"]) {["?X" := "a"]} _)).
  vm_compute. apply list_elem_of_here.
Defined.

(** C6. The default depth limit is 50; a call of [prove] on an object
    driven through its public methods expands at most
    [steps_bound kb max_depth] goals, a number that depends on the
    knowledge base and the depth limit only, and never holds more than
    [max_depth] goals on its stack; a call made when [trace_depth] has
    reached the limit fails without touching the stack. *)
Theorem prove_bounded (c deep : BackwardChainer) (hypothesis : Fact) (b : bindings) :
  reachable c ->
  max_depth deep <= trace_depth (state deep) ->
  max_depth (BackwardChainer_new (kb c)) = 50
  /\ expansions (state (snd (prove c hypothesis)))
     <= expansions (state c) + steps_bound (kb c) (max_depth c)
  /\ stacks_within (max_depth c) (history (state (snd (prove c hypothesis))))
  /\ fst (backchain_to_goal deep hypothesis b) = []
  /\ current_goals (state (snd (backchain_to_goal deep hypothesis b)))
     = current_goals (state deep).
Proof.
  intros Hr Hd. destruct (reachable_inv c Hr) as (Hc&Ht&Hs).
  split; [reflexivity|].
  destruct (backchain_spec (kb c) (max_depth c) (max_depth c - trace_depth (state c))
              hypothesis ∅ (clear_proved (state c))) as [_ (He&_&_&_&Hst)].
  { cbn [current_goals clear_proved]. rewrite Hc. simpl. lia. }
  rewrite Ht, Nat.sub_0_r in *.
  split; [|split].
  - unfold prove, backchain_to_goal.
    cbn [fst snd state at_entry kb max_depth trace_depth clear_proved].
    rewrite Ht, Nat.sub_0_r. exact He.
  - unfold prove, backchain_to_goal.
    cbn [fst snd state at_entry kb max_depth trace_depth clear_proved].
    rewrite Ht, Nat.sub_0_r. apply Hst. exact Hs.
  - unfold backchain_to_goal. cbn [fst snd state].
    replace (max_depth deep - trace_depth (state deep)) with 0 by lia.
    split; reflexivity.
Qed.

(** A fresh prover over [animals], and one already at its depth limit. *)
Lemma prove_bounded_witness :
  let c := BackwardChainer_new animals in
  let deep := mkChainer animals false 1
                (mkState 1 ∅ 0 [mkFact "mammal" ["dog"]] []) in
  let g := mkFact "mammal" ["dog"] in
  max_depth (BackwardChainer_new (kb c)) = 50
  /\ expansions (state (snd (prove c g)))
     <= expansions (state c) + steps_bound (kb c) (max_depth c)
  /\ stacks_within (max_depth c) (history (state (snd (prove c g))))
  /\ fst (backchain_to_goal deep g ∅) = []
  /\ current_goals (state (snd (backchain_to_goal deep g ∅)))
     = current_goals (state deep).
Proof.
  refine (prove_bounded (BackwardChainer_new animals)
            (mkChainer animals false 1 (mkState 1 ∅ 0 [mkFact "mammal" ["dog"]] []))
            (mkFact "mammal" ["dog"]) ∅ (reachable_init animals false 50) _).
  simpl. lia.
Defined.

(** C4. The parser gives both occurrences of [_] in [likes(_, _)] the
    one name [?_], so they co-refer: the goal fails against
    [likes(alice, bob)], which two distinct variables match. *)
Theorem anonymous_variables_share_one_name :
  Parser.parse_prolog_fact "likes(_, _)" = Some (mkFact "likes" ["?_"; "?_"])
  /\ fst (prove (BackwardChainer_new (mkKB [mkFact "likes" ["alice"; "bob"]] []))
            (mkFact "likes" ["?_"; "?_"])) = false
  /\ fst (prove (BackwardChainer_new (mkKB [mkFact "likes" ["alice"; "bob"]] []))
            (mkFact "likes" ["?A"; "?B"])) = true.
Proof. repeat split; vm_compute; reflexivity. Qed.

(** C9. Two calls of [solve] on one prover, with the same knowledge
    base and goal, that differ: the goal variable [?B_1] collides with
    the variable [?B] of the rule renamed under the counter value 1 in
    the first call, and with nothing in the second. *)
Theorem repeated_solve_differs :
  let goal := mkFact "p" ["?B_1"; "?Z"] in
  let first := solve (BackwardChainer_new collision_kb) goal in
  let second := solve (snd first) goal in
  fst first = []
  /\ fst second = [<["?B_1" := "a"]> {["?Z" := "b"]}]
  /\ rule_counter (state (snd first)) = 3
  /\ rule_counter (state (snd second)) = 6.
Proof. repeat split; vm_compute; reflexivity. Qed.

(** ** The parser *)

Import Parser.


Lemma chars_str (l : list ascii) : chars (str l) = l.
Proof. apply list_ascii_of_string_of_list_ascii. Qed.

Lemma lstrip_chars_subset (p : ascii -> bool) (l : list ascii) (x : ascii) :
  x ∈ lstrip_chars p l -> x ∈ l.
Proof.
  induction l as [|c l IH]; simpl; [done|].
  destruct (p c); [|done]. intros H. right. auto.
Qed.

Lemma rstrip_chars_subset (p : ascii -> bool) (l : list ascii) (x : ascii) :
  x ∈ rstrip_chars p l -> x ∈ l.
Proof.
  unfold rstrip_chars. intros H.
  apply list_elem_of_In, in_rev, list_elem_of_In, lstrip_chars_subset in H.
  by apply list_elem_of_In, in_rev, list_elem_of_In in H.
Qed.

Lemma strip_subset (s : string) (x : ascii) : x ∈ chars (strip s) -> x ∈ chars s.
Proof.
  unfold strip. rewrite chars_str. intros H.
  by apply rstrip_chars_subset, lstrip_chars_subset in H.
Qed.

Lemma rstrip_dots_subset (s : string) (x : ascii) :
  x ∈ chars (rstrip_dots s) -> x ∈ chars s.
Proof. unfold rstrip_dots. rewrite chars_str. apply rstrip_chars_subset. Qed.

Lemma span_snd_subset (p : ascii -> bool) (l : list ascii) (x : ascii) :
  x ∈ snd (span p l) -> x ∈ l.
Proof.
  induction l as [|c l IH]; simpl; [done|].
  destruct (p c); simpl; [|done]. intros H. right. auto.
Qed.

Lemma is_char_true (a c : ascii) : is_char a c = true -> c = a.
Proof. unfold is_char. apply bool_decide_eq_true. Qed.

Lemma match_atom_needs_paren (s : string) :
  "("%char ∉ chars s -> match_atom s = None.
Proof.
  intros H. unfold match_atom.
  destruct (span is_word (chars s)) as [name rest] eqn:E.
  destruct name as [|c name]; [done|]. destruct rest as [|op rest]; [done|].
  destruct (is_char "(" op) eqn:Hop; [|done].
  apply is_char_true in Hop. subst op. exfalso. apply H.
  apply (span_snd_subset is_word). rewrite E. left.
Qed.

Lemma parse_prolog_fact_needs_paren (s : string) :
  "("%char ∉ chars s -> parse_prolog_fact s = None.
Proof.
  intros H. unfold parse_prolog_fact.
  rewrite match_atom_needs_paren; [done|].
  intros Hin. by apply rstrip_dots_subset, strip_subset in Hin.
Qed.

Lemma split_first_fst_subset (p l before after : list ascii) (x : ascii) :
  split_first p l = Some (before, after) -> x ∈ before -> x ∈ l.
Proof.
  revert before. induction l as [|c l IH]; intros before; simpl.
  - destruct (starts_with p []); [|done]. intros [= <- _] Hx. by apply elem_of_nil in Hx.
  - destruct (starts_with p (c :: l)).
    + intros [= <- _] Hx. by apply elem_of_nil in Hx.
    + destruct (split_first p l) as [[b a]|]; [|done]. simpl.
      intros [= <- <-] Hx. apply elem_of_cons in Hx as [->|Hx]; [left|right; eauto].
Qed.

Lemma parse_prolog_rule_needs_paren (s : string) :
  "("%char ∉ chars s -> parse_prolog_rule s = None.
Proof.
  intros H. unfold parse_prolog_rule, split_rule.
  destruct (split_first (chars ":-") (chars (rstrip_dots (strip s))))
    as [[before after]|] eqn:E; [|done].
  destruct (contains (chars ":-") after); [done|].
  rewrite parse_prolog_fact_needs_paren; [done|].
  intros Hin. apply strip_subset in Hin. rewrite chars_str in Hin.
  eapply split_first_fst_subset in Hin; [|exact E].
  by apply rstrip_dots_subset, strip_subset in Hin.
Qed.

(** C7, as amended. The parser recognises an atom only when an opening
    parenthesis follows its name: for a text without one,
    [parse_prolog_fact] and [parse_prolog_line] return nothing, so a
    bare identifier such as [happy.] is skipped; an atom without
    arguments is written [happy().]. *)
Theorem bare_identifier_not_parsed (s : string) :
  "("%char ∉ chars s ->
  parse_prolog_fact s = None
  /\ parse_prolog_line s = None
  /\ parse_prolog_fact "happy()." = Some (mkFact "happy" []).
Proof.
  intros H. split; [|split].
  - by apply parse_prolog_fact_needs_paren.
  - assert (Hs : "("%char ∉ chars (strip s)).
    { intros Hin. by apply strip_subset in Hin. }
    unfold parse_prolog_line.
    destruct (bool_decide (strip s = "") || starts_with (chars "%") (chars (strip s)));
      [done|].
    destruct (contains (chars ":-") (chars (strip s))).
    + by rewrite parse_prolog_rule_needs_paren.
    + by rewrite parse_prolog_fact_needs_paren.
  - vm_compute. reflexivity.
Qed.

(** The text [happy.] *)
Lemma bare_identifier_not_parsed_witness :
  parse_prolog_fact "happy." = None
  /\ parse_prolog_line "happy." = None
  /\ parse_prolog_fact "happy()." = Some (mkFact "happy" []).
Proof.
  refine (bare_identifier_not_parsed "happy." _).
  vm_compute. intros H. repeat (apply elem_of_cons in H as [H|H]; [discriminate|]).
  by apply elem_of_nil in H.
Defined.

(** The line [happy.] yields no clause. *)
Lemma bare_identifier_is_skipped : parse_prolog_line "happy." = None.
Proof. vm_compute. reflexivity. Qed.

(** *** Rule bodies *)








(** * Further properties of the prover *)

(** X1. The three loops that follow a chain of bindings
    ([Fact.substitute], [Fact._resolve_binding] and the loop of
    [extract_query_bindings]) stop for every environment, cyclic ones
    included: within [2 * size b + 2], [size b + 2] and [size b + 1]
    evaluations of their condition. *)
Theorem chain_walks_terminate (b : bindings) (arg value var : string) :
  substitute_walk (2 * size b + 2) b arg arg {[arg]} <> None
  /\ resolve_walk (size b + 2) b var {[var]} <> None
  /\ extract_walk (size b + 1) b value {[var]} <> None.
Proof.
  split; [|split].
  - rewrite substitute_arg_walk. discriminate.
  - rewrite resolve_binding_walk. discriminate.
  - destruct (extract_walk_enough b var value) as [v ->]. discriminate.
Qed.

(** ** Matching ground atoms *)

Lemma match_arg_ground (a c : string) (b : bindings) :
  is_var a = false -> is_var c = false ->
  match_arg a c b = if bool_decide (a = c) then Some b else None.
Proof.
  intros Ha Hc. unfold match_arg. rewrite Ha, Hc. simpl. rewrite Ha, Hc.
  destruct (decide (a = c)) as [E|E].
  - rewrite (bool_decide_eq_true_2 _ E). rewrite bool_decide_eq_false_2; [done|].
    intros H. by apply H.
  - rewrite (bool_decide_eq_false_2 _ E). by rewrite bool_decide_eq_true_2.
Qed.

Lemma match_args_ground (l1 l2 : list string) (b : bindings) :
  length l1 = length l2 ->
  Forall (fun a => is_var a = false) l1 -> Forall (fun a => is_var a = false) l2 ->
  match_args (zip l1 l2) b = if bool_decide (l1 = l2) then Some b else None.
Proof.
  revert l2. induction l1 as [|a l1 IH]; intros [|c l2] Hlen H1 H2;
    try discriminate Hlen.
  - rewrite bool_decide_eq_true_2 by done. reflexivity.
  - injection Hlen as Hlen.
    apply Forall_cons in H1 as [Ha H1]. apply Forall_cons in H2 as [Hc H2].
    cbn [zip zip_with match_args]. rewrite (match_arg_ground a c b Ha Hc).
    pose proof (IH l2 Hlen H1 H2) as Hrec.
    destruct (decide (a = c)) as [->|E].
    + rewrite bool_decide_eq_true_2 by done. rewrite Hrec.
      destruct (decide (l1 = l2)) as [->|E'].
      * by rewrite !bool_decide_eq_true_2.
      * rewrite !bool_decide_eq_false_2; [done| |done]. intros [=]. done.
    + rewrite bool_decide_eq_false_2 by done.
      rewrite bool_decide_eq_false_2; [done|]. intros [=]. done.
Qed.

Lemma is_ground_Forall (f : Fact) :
  is_ground f = true -> Forall (fun a => is_var a = false) (args f).
Proof.
  intros H. apply Forall_forall. intros a Ha. by apply (is_ground_args f).
Qed.

Lemma Fact_match_ground (f g : Fact) (b : bindings) :
  is_ground f = true -> is_ground g = true ->
  Fact_match f g b = if bool_decide (f = g) then Some b else None.
Proof.
  destruct f as [p l1], g as [q l2]. intros Hf Hg. unfold Fact_match. simpl.
  destruct (decide (p = q)) as [->|Hp].
  - rewrite (bool_decide_eq_false_2 (q <> q)) by (intros H; by apply H).
    destruct (decide (length l1 = length l2)) as [Hl|Hl].
    + rewrite (bool_decide_eq_false_2 (length l1 <> length l2)) by (intros H; by apply H).
      rewrite (match_args_ground l1 l2 b Hl (is_ground_Forall _ Hf) (is_ground_Forall _ Hg)).
      destruct (decide (l1 = l2)) as [->|E].
      * by rewrite !bool_decide_eq_true_2.
      * rewrite !bool_decide_eq_false_2; [done| |done]. intros [=]. done.
    + rewrite (bool_decide_eq_true_2 (length l1 <> length l2)) by done.
      rewrite bool_decide_eq_false_2; [done|]. intros [=]. subst. done.
  - rewrite (bool_decide_eq_true_2 (p <> q)) by done.
    rewrite bool_decide_eq_false_2; [done|]. intros [=]. done.
Qed.

(** X2. On two ground atoms [Fact.match] is an equality test: it
    returns the environment it was given when the atoms are equal and
    fails otherwise, whatever the environment holds, and it gives the
    same answer with the atoms exchanged. *)
Theorem ground_match_is_equality (f g : Fact) (b : bindings) :
  is_ground f = true -> is_ground g = true ->
  Fact_match f g b = (if bool_decide (f = g) then Some b else None)
  /\ Fact_match g f b = Fact_match f g b.
Proof.
  intros Hf Hg.
  split; [by apply Fact_match_ground|]. rewrite !Fact_match_ground by done.
  destruct (decide (f = g)) as [->|E]; [done|].
  rewrite !bool_decide_eq_false_2; [done| |done]. intros ->. done.
Qed.

(** [eats(dog, meat)] against [eats(cat, meat)]. *)
Lemma ground_match_is_equality_witness :
  Fact_match (mkFact "eats" ["dog"; "meat"]) (mkFact "eats" ["cat"; "meat"]) ∅ = None.
Proof.
  exact (proj1 (ground_match_is_equality (mkFact "eats" ["dog"; "meat"])
                  (mkFact "eats" ["cat"; "meat"]) ∅ eq_refl eq_refl)).
Defined.

(** ** Relations that every step of the prover respects *)

Section StateRelation.
Variable kb : KnowledgeBase.
Variable R : prover_state -> prover_state -> Prop.
Hypothesis R_refl : forall st, R st st.
Hypothesis R_trans : forall st1 st2 st3, R st1 st2 -> R st2 st3 -> R st1 st3.
Hypothesis R_print : forall m st, R st (_trace_print m st).
Hypothesis R_enter : forall st, R st (enter st).
Hypothesis R_leave : forall st, R st (leave st).
Hypothesis R_push : forall g st, R st (push_goal g st).
Hypothesis R_pop : forall st, R st (pop_goal st).
Hypothesis R_record : forall h mb st, R st (record_proved h mb st).
Hypothesis R_rename : forall r st, R st (snd (_rename_rule_variables r st)).

Lemma fold_rel {A : Type}
    (f : list bindings * prover_state -> A -> list bindings * prover_state) :
  (forall acc x, R (snd acc) (snd (f acc x))) ->
  forall xs acc, R (snd acc) (snd (fold_left f xs acc)).
Proof.
  intros Hf. induction xs as [|x xs IH]; intros acc; simpl; [apply R_refl|].
  eapply R_trans; [apply Hf|apply IH].
Qed.

Lemma fact_step_rel h b acc fact : R (snd acc) (snd (fact_step h b acc fact)).
Proof.
  unfold fact_step. destruct (Fact_match h fact b); simpl; [|apply R_refl].
  eapply R_trans; [apply R_print|apply R_record].
Qed.

Lemma prove_premises_rel
    (call : Fact -> bindings -> prover_state -> list bindings * prover_state) :
  (forall h b st, R st (snd (call h b st))) ->
  forall ps b st, R st (snd (_prove_premises_with call ps b st)).
Proof.
  intros Hcall. induction ps as [|p ps IH]; intros b st.
  - simpl. apply R_refl.
  - cbn [_prove_premises_with].
    destruct (fst (call p b st)) as [|r0 rs] eqn:E.
    + simpl. apply Hcall.
    + cbv beta iota. eapply R_trans; [apply (Hcall p b st)|].
      match goal with
      | |- R _ (snd (fold_left ?f ?xs ?acc)) => refine (fold_rel f _ xs acc)
      end.
      intros acc x. destruct ps; cbn [snd]; [apply R_refl|apply IH].
Qed.

Lemma rule_step_rel
    (call : Fact -> bindings -> prover_state -> list bindings * prover_state)
    h b acc rule :
  (forall h b st, R st (snd (call h b st))) ->
  R (snd acc) (snd (rule_step call h b acc rule)).
Proof.
  intros Hcall. unfold rule_step.
  set (renamed := _rename_rule_variables rule (snd acc)).
  assert (Hr : R (snd acc) (snd renamed)) by apply R_rename.
  destruct (Fact_match h (conclusion (fst renamed)) b) as [mb|]; [|exact Hr].
  set (proved := _prove_premises_with call (premises (fst renamed)) mb
                   (_trace_print (TTryingRule rule) (snd renamed))).
  assert (Hp : R (snd acc) (snd proved)).
  { eapply R_trans; [exact Hr|]. eapply R_trans; [apply R_print|].
    apply prove_premises_rel, Hcall. }
  destruct (fst proved); cbn [snd].
  - eapply R_trans; [exact Hp|apply R_print].
  - eapply R_trans; [exact Hp|]. eapply R_trans; [apply R_print|apply R_record].
Qed.

Lemma backchain_rel (n : nat) :
  forall h b st, R st (snd (backchain kb n h b st)).
Proof.
  induction n as [|n IH]; intros h b st.
  - simpl. eapply R_trans; [apply R_print|]. eapply R_trans; [apply R_enter|].
    eapply R_trans; [apply R_print|apply R_leave].
  - cbn [backchain].
    set (bound := substitute h b).
    set (st1 := enter (_trace_print (TGoal bound) st)).
    assert (H1 : R st st1).
    { eapply R_trans; [apply R_print|apply R_enter]. }
    destruct (bool_decide (bound ∈ current_goals st1)).
    { cbn [snd]. eapply R_trans; [exact H1|].
      eapply R_trans; [apply R_print|apply R_leave]. }
    destruct (bool_decide (bound ∈ proved_goals st1)).
    { cbn [snd]. eapply R_trans; [exact H1|].
      eapply R_trans; [apply R_print|apply R_leave]. }
    cbn [snd].
    set (after_facts := fold_left (fact_step h b) (facts kb) ([], push_goal bound st1)).
    set (after_rules := fold_left (rule_step (backchain kb n) h b) (rules kb) after_facts).
    assert (H2 : R st (snd after_rules)).
    { eapply R_trans; [exact H1|]. eapply R_trans; [apply R_push|].
      eapply R_trans.
      - exact (fold_rel (fact_step h b) (fact_step_rel h b) (facts kb)
                 ([], push_goal bound st1)).
      - refine (fold_rel (rule_step (backchain kb n) h b) _ (rules kb) after_facts).
        intros acc x. apply rule_step_rel. exact IH. }
    eapply R_trans; [|apply R_leave]. eapply R_trans; [|apply R_pop].
    destruct (fst after_rules); [|exact H2].
    eapply R_trans; [exact H2|apply R_print].
Qed.
End StateRelation.

(** ** Properties that every environment of a result has *)

Section ResultsInvariant.
Variable kb : KnowledgeBase.
Variable P : bindings -> Prop.
Hypothesis P_match : forall f g b b', P b -> Fact_match f g b = Some b' -> P b'.

Lemma fold_results {A : Type}
    (f : list bindings * prover_state -> A -> list bindings * prover_state) :
  (forall acc x, Forall P (fst acc) -> Forall P (fst (f acc x))) ->
  forall xs acc, Forall P (fst acc) -> Forall P (fst (fold_left f xs acc)).
Proof.
  intros Hf. induction xs as [|x xs IH]; intros acc Hacc; simpl; [done|].
  apply IH, Hf, Hacc.
Qed.

Lemma prove_premises_results
    (call : Fact -> bindings -> prover_state -> list bindings * prover_state) :
  (forall h b st, P b -> Forall P (fst (call h b st))) ->
  forall ps b st, P b -> Forall P (fst (_prove_premises_with call ps b st)).
Proof.
  intros Hcall. induction ps as [|p ps IH]; intros b st Hb.
  - simpl. by apply Forall_singleton.
  - cbn [_prove_premises_with].
    pose proof (Hcall p b st Hb) as Hfirst.
    destruct (fst (call p b st)) as [|r0 rs] eqn:E; [simpl; constructor|].
    revert Hfirst. generalize (r0 :: rs). intros first_results Hfirst.
    assert (Hgen : forall acc, Forall P (fst acc) ->
              Forall P (fst (fold_left
                (fun (acc : list bindings * prover_state) (rb : bindings) =>
                   match ps with
                   | [] => (fst acc ++ [rb], snd acc)
                   | _ :: _ =>
                       (fst acc ++ fst (_prove_premises_with call ps rb (snd acc)),
                        snd (_prove_premises_with call ps rb (snd acc)))
                   end) first_results acc))).
    { induction Hfirst as [|x xs Hx Hxs IHxs]; intros acc Hacc; simpl; [done|].
      apply IHxs. destruct ps; cbn [fst].
      - apply Forall_app. split; [done|by apply Forall_singleton].
      - apply Forall_app. split; [done|by apply IH]. }
    apply Hgen. constructor.
Qed.

Lemma backchain_results (n : nat) :
  forall h b st, P b -> Forall P (fst (backchain kb n h b st)).
Proof.
  induction n as [|n IH]; intros h b st Hb.
  - simpl. constructor.
  - cbn [backchain].
    destruct (bool_decide _); [simpl; constructor|].
    destruct (bool_decide _); [simpl; by apply Forall_singleton|].
    cbn [fst].
    apply fold_results.
    + intros acc rule Hacc. unfold rule_step.
      destruct (Fact_match h _ b) as [mb|] eqn:Hm; [|done].
      pose proof (prove_premises_results (backchain kb n) IH
                    (premises (fst (_rename_rule_variables rule (snd acc)))) mb
                    (_trace_print (TTryingRule rule)
                       (snd (_rename_rule_variables rule (snd acc))))
                    (P_match _ _ _ _ Hb Hm)) as Hp.
      destruct (fst (_prove_premises_with _ _ _ _)); cbn [fst]; [done|].
      apply Forall_app. split; done.
    + apply fold_results; [|constructor].
      intros acc fact Hacc. unfold fact_step.
      destruct (Fact_match h fact b) as [mb|] eqn:Hm; [|done]. cbn [fst].
      apply Forall_app. split; [done|]. apply Forall_singleton. eauto.
Qed.
End ResultsInvariant.

(** ** Memoisation *)

Lemma proved_goals_grow (k : KnowledgeBase) (n : nat) (h : Fact) (b : bindings)
    (st : prover_state) :
  proved_goals st ⊆ proved_goals (snd (backchain k n h b st)).
Proof.
  apply (backchain_rel k (fun st st' => proved_goals st ⊆ proved_goals st')); try done.
  - intros st1 st2 st3 H1 H2 x Hx. apply H2, H1, Hx.
  - intros h' mb st' x Hx. cbn [proved_goals record_proved].
    apply elem_of_union_r, Hx.
Qed.






(** ** Insertions into the proved set *)

Lemma grows_trans (st1 st2 st3 : prover_state) :
  grows st1 st2 -> grows st2 st3 -> grows st1 st3.
Proof. intros H1 H2 x Hx. apply H2, H1, Hx. Qed.

Lemma fact_step_grows (h : Fact) (b : bindings) (acc : list bindings * prover_state)
    (fact : Fact) :
  grows (snd acc) (snd (fact_step h b acc fact)).
Proof.
  unfold fact_step. destruct (Fact_match h fact b); [|by intros x Hx].
  intros x Hx. cbn [snd proved_goals record_proved]. apply elem_of_union_r, Hx.
Qed.

Lemma fold_grows {A : Type}
    (f : list bindings * prover_state -> A -> list bindings * prover_state) :
  (forall acc x, grows (snd acc) (snd (f acc x))) ->
  forall xs acc, grows (snd acc) (snd (fold_left f xs acc)).
Proof.
  intros Hf. induction xs as [|x xs IH]; intros acc; simpl; [by intros x Hx|].
  eapply grows_trans; [apply Hf|apply IH].
Qed.

Lemma rule_step_grows (k : KnowledgeBase) (n : nat) (h : Fact) (b : bindings)
    (acc : list bindings * prover_state) (rule : Rule) :
  grows (snd acc) (snd (rule_step (backchain k n) h b acc rule)).
Proof.
  apply (rule_step_rel grows); try (by intros; intros x Hx).
  - exact grows_trans.
  - intros h' mb st x Hx. cbn [proved_goals record_proved]. apply elem_of_union_r, Hx.
  - intros h' b' st. apply proved_goals_grow.
Qed.

Lemma facts_loop_inserts (h : Fact) (b : bindings) (fact : Fact) (mb : bindings) :
  Fact_match h fact b = Some mb ->
  forall fs acc, fact ∈ fs ->
    substitute h mb ∈ proved_goals (snd (fold_left (fact_step h b) fs acc)).
Proof.
  intros Hm. induction fs as [|f fs IH]; intros acc Hin; [by apply elem_of_nil in Hin|].
  apply elem_of_cons in Hin as [<-|Hin]; [|by apply IH].
  cbn [fold_left]. apply (fold_grows (fact_step h b) (fact_step_grows h b)).
  unfold fact_step. rewrite Hm. cbn [snd proved_goals record_proved].
  apply elem_of_union_l, elem_of_singleton. reflexivity.
Qed.

Lemma rule_step_inserts
    (call : Fact -> bindings -> prover_state -> list bindings * prover_state)
    (h : Fact) (b : bindings) (acc : list bindings * prover_state) (rule : Rule)
    (mb : bindings) :
  Fact_match h (conclusion (fst (_rename_rule_variables rule (snd acc)))) b = Some mb ->
  fst (_prove_premises_with call
         (premises (fst (_rename_rule_variables rule (snd acc)))) mb
         (_trace_print (TTryingRule rule) (snd (_rename_rule_variables rule (snd acc)))))
    <> [] ->
  substitute h mb ∈ proved_goals (snd (rule_step call h b acc rule)).
Proof.
  intros Hm Hp. unfold rule_step. rewrite Hm.
  destruct (fst (_prove_premises_with call _ mb _)) eqn:E; [done|].
  cbn [snd proved_goals record_proved].
  apply elem_of_union_l, elem_of_singleton. reflexivity.
Qed.

(** The proved set that a call which expands its goal leaves. *)
Lemma backchain_expands (k : KnowledgeBase) (n : nat) (h : Fact) (b : bindings)
    (st : prover_state) :
  substitute h b ∉ current_goals st ->
  substitute h b ∉ proved_goals st ->
  proved_goals (snd (backchain k (S n) h b st))
  = proved_goals
      (snd (fold_left (rule_step (backchain k n) h b) (rules k)
              (fold_left (fact_step h b) (facts k)
                 ([], push_goal (substitute h b)
                        (enter (_trace_print (TGoal (substitute h b)) st)))))).
Proof.
  intros Hs Hp. cbn [backchain]. cbn [current_goals proved_goals enter _trace_print].
  rewrite bool_decide_eq_false_2 by exact Hs.
  rewrite bool_decide_eq_false_2 by exact Hp.
  cbn [snd]. destruct (fst (fold_left _ (rules k) _)); reflexivity.
Qed.

(** C2, as amended. Insertion into the proved set is not gated on
    groundness. In a call of [backchain_to_goal] that expands its goal
    (the depth limit is not reached, the goal is neither on the stack
    nor in the proved set), every fact that the goal matches, and every
    rule whose conclusion the goal matches and whose premises succeed,
    puts the goal with the match bindings applied into the proved set,
    whatever that atom contains, and the atom is still there when the
    call returns. When the goal is ground and the environment binds
    variables only, that atom is the goal itself. *)
Theorem memo_insertion_not_gated (c : BackwardChainer) (hypothesis : Fact) (b : bindings) :
  trace_depth (state c) < max_depth c ->
  substitute hypothesis b ∉ current_goals (state c) ->
  substitute hypothesis b ∉ proved_goals (state c) ->
  let after := state (snd (backchain_to_goal c hypothesis b)) in
  (forall fact match_bindings,
     fact ∈ facts (kb c) ->
     Fact_match hypothesis fact b = Some match_bindings ->
     substitute hypothesis match_bindings ∈ proved_goals after)
  /\ (forall before rule rest match_bindings,
        rules (kb c) = before ++ rule :: rest ->
        let renamed :=
          _rename_rule_variables rule (rules_loop_state c hypothesis b before) in
        Fact_match hypothesis (conclusion (fst renamed)) b = Some match_bindings ->
        fst (_prove_premises (kb c) (max_depth c - S (trace_depth (state c)))
               (premises (fst renamed)) match_bindings
               (_trace_print (TTryingRule rule) (snd renamed))) <> [] ->
        substitute hypothesis match_bindings ∈ proved_goals after)
  /\ (forall other match_bindings,
        is_ground hypothesis = true -> keys_are_vars b ->
        Fact_match hypothesis other b = Some match_bindings ->
        substitute hypothesis match_bindings = hypothesis).
Proof.
  intros Hd Hs Hp after.
  assert (E : proved_goals after
              = proved_goals
                  (snd (fold_left
                          (rule_step
                             (backchain (kb c) (max_depth c - S (trace_depth (state c))))
                             hypothesis b) (rules (kb c))
                          (fold_left (fact_step hypothesis b) (facts (kb c))
                             ([], push_goal (substitute hypothesis b)
                                    (enter (_trace_print (TGoal (substitute hypothesis b))
                                              (state c)))))))).
  { unfold after, backchain_to_goal. cbn [snd state].
    replace (max_depth c - trace_depth (state c))
      with (S (max_depth c - S (trace_depth (state c)))) by lia.
    by apply backchain_expands. }
  split; [|split].
  - intros fact mb Hin Hm. rewrite E.
    apply (fold_grows _ (rule_step_grows (kb c) _ hypothesis b)).
    by apply (facts_loop_inserts hypothesis b fact mb Hm).
  - intros before rule rest mb Hr renamed Hm Hprem. rewrite E, Hr, fold_left_app.
    cbn [fold_left].
    apply (fold_grows _ (rule_step_grows (kb c) _ hypothesis b)).
    apply rule_step_inserts; [exact Hm|exact Hprem].
  - intros other mb Hg Hk Hm. apply substitute_ground; [exact Hg|].
    by apply (Fact_match_keys hypothesis other b mb).
Qed.

(** The rule of [animals] for the goal [mammal(?Who)]: the atom
    inserted is [mammal(?X_1)]. *)
Lemma memo_insertion_not_gated_witness :
  mkFact "mammal" ["?X_1"]
    ∈ proved_goals (state (snd (backchain_to_goal (BackwardChainer_new animals)
                                  (mkFact "mammal" ["?Who"]) ∅))).
Proof.
  refine (proj1 (proj2 (memo_insertion_not_gated (BackwardChainer_new animals)
                          (mkFact "mammal" ["?Who"]) ∅ _ _ _))
            [] (mkRule (mkFact "mammal" ["?X"])
                  [mkFact "has_fur" ["?X"]; mkFact "warm_blooded" ["?X"]])
            [] {["?Who" := "?X_1"]} eq_refl _ _).
  - simpl. lia.
  - vm_compute. intros H. by apply elem_of_nil in H.
  - vm_compute. discriminate.
  - vm_compute. reflexivity.
  - vm_compute. discriminate.
Defined.

(** After [prove(mammal(?Who))] the proved set holds [mammal(?X_1)]. *)
Lemma proved_set_holds_variable :
  exists a,
    a ∈ proved_goals (state (snd (prove (BackwardChainer_new animals)
                                    (mkFact "mammal" ["?Who"]))))
    /\ is_ground a = false.
Proof.
  exists (mkFact "mammal" ["?X_1"]). split; [|reflexivity].
  vm_compute. reflexivity.
Qed.





(** X4. [Fact.match] only ever assigns to variables, so every
    environment that [backchain_to_goal] returns from an environment
    keyed by variables, and every environment that
    [prove_with_bindings] returns, is keyed by variables: no constant is
    ever bound. *)
Theorem solutions_bind_variables_only (c : BackwardChainer) (h : Fact) (b : bindings) :
  keys_are_vars b ->
  Forall keys_are_vars (fst (backchain_to_goal c h b))
  /\ Forall keys_are_vars (fst (prove_with_bindings c h))
  /\ forall f g b', Fact_match f g b = Some b' -> keys_are_vars b'.
Proof.
  intros Hb. split; [|split].
  - unfold backchain_to_goal. cbn [fst].
    apply (backchain_results (kb c) keys_are_vars Fact_match_keys). exact Hb.
  - unfold prove_with_bindings, backchain_to_goal. cbn [fst].
    apply (backchain_results _ keys_are_vars Fact_match_keys).
    apply keys_are_vars_empty.
  - intros f g b'. apply Fact_match_keys. exact Hb.
Qed.

(** The grandparents of alice. *)
Lemma solutions_bind_variables_only_witness :
  Forall keys_are_vars
    (fst (prove_with_bindings (BackwardChainer_new family)
            (mkFact "grandparent" ["?X"; "alice"]))).
Proof.
  exact (proj1 (proj2 (solutions_bind_variables_only (BackwardChainer_new family)
                         (mkFact "grandparent" ["?X"; "alice"]) ∅ keys_are_vars_empty))).
Defined.

(** ** Goals that nothing matches *)

Lemma Fact_match_predicate (f g : Fact) (b b' : bindings) :
  Fact_match f g b = Some b' ->
  predicate f = predicate g /\ length (args f) = length (args g).
Proof.
  unfold Fact_match. intros H.
  destruct (decide (predicate f = predicate g)) as [Hp|Hp];
    [|by rewrite (bool_decide_eq_true_2 _ Hp) in H].
  destruct (decide (length (args f) = length (args g))) as [Hl|Hl]; [done|].
  rewrite (bool_decide_eq_true_2 _ Hl) in H. by case_bool_decide.
Qed.

Lemma fold_left_inv_in {A B : Type} (I : A -> Prop) (f : A -> B -> A) (xs : list B) :
  (forall acc x, x ∈ xs -> I acc -> I (f acc x)) ->
  forall acc, I acc -> I (fold_left f xs acc).
Proof.
  induction xs as [|x xs IH]; intros Hf acc Hacc; simpl; [done|].
  apply IH.
  - intros acc' x' Hx'. apply Hf. by right.
  - apply Hf; [left|done].
Qed.

Lemma Fact_match_other_predicate (f g : Fact) (b : bindings) :
  predicate g <> predicate f -> Fact_match f g b = None.
Proof.
  intros H. destruct (Fact_match f g b) eqn:E; [|done].
  apply Fact_match_predicate in E as [E _]. congruence.
Qed.

Lemma unknown_predicate_backchain (k : KnowledgeBase) (n : nat) (h : Fact)
    (b : bindings) (st : prover_state) :
  (forall f, f ∈ facts k -> predicate f <> predicate h) ->
  (forall r, r ∈ rules k -> predicate (conclusion r) <> predicate h) ->
  substitute h b ∉ proved_goals st ->
  fst (backchain k n h b st) = [].
Proof.
  intros Hf Hr Hp. destruct n as [|n]; [reflexivity|].
  cbn [backchain]. cbn [current_goals proved_goals enter _trace_print].
  destruct (bool_decide (substitute h b ∈ current_goals st)); [reflexivity|].
  rewrite bool_decide_eq_false_2 by exact Hp. cbn [fst].
  apply (fold_left_inv_in (fun acc : list bindings * prover_state => fst acc = [])).
  - intros acc rule Hin Hacc. unfold rule_step.
    rewrite Fact_match_other_predicate; [exact Hacc|].
    cbn [_rename_rule_variables fst conclusion rename_fact predicate]. by apply Hr.
  - apply (fold_left_inv_in (fun acc : list bindings * prover_state => fst acc = []));
      [|reflexivity].
    intros acc fact Hin Hacc. unfold fact_step.
    rewrite Fact_match_other_predicate; [exact Hacc|]. by apply Hf.
Qed.

(** X5. A goal whose predicate heads no fact and no rule of the
    knowledge base fails: [prove] returns false and
    [prove_with_bindings] and [solve] return no solution, whatever state
    the prover was left in. *)
Theorem unknown_predicate_fails (c : BackwardChainer) (h : Fact) :
  (forall f, f ∈ facts (kb c) -> predicate f <> predicate h) ->
  (forall r, r ∈ rules (kb c) -> predicate (conclusion r) <> predicate h) ->
  fst (prove c h) = false
  /\ fst (prove_with_bindings c h) = []
  /\ fst (solve c h) = [].
Proof.
  intros Hf Hr.
  assert (H : fst (prove_with_bindings c h) = []).
  { unfold prove_with_bindings, backchain_to_goal. cbn [fst].
    apply unknown_predicate_backchain; [exact Hf|exact Hr|].
    cbn [state at_entry proved_goals clear_proved]. apply not_elem_of_empty. }
  split; [|split].
  - unfold prove. fold (prove_with_bindings c h). rewrite H. reflexivity.
  - exact H.
  - unfold solve. rewrite H. reflexivity.
Qed.

(** [uncle(john, alice)] over [family]. *)
Lemma unknown_predicate_fails_witness :
  fst (prove (BackwardChainer_new family) (mkFact "uncle" ["john"; "alice"])) = false.
Proof.
  refine (proj1 (unknown_predicate_fails (BackwardChainer_new family)
                   (mkFact "uncle" ["john"; "alice"]) _ _)).
  - intros f Hf. cbn in Hf.
    repeat (apply elem_of_cons in Hf as [->|Hf]; [discriminate|]).
    by apply elem_of_nil in Hf.
  - intros r Hr. cbn in Hr.
    repeat (apply elem_of_cons in Hr as [->|Hr]; [discriminate|]).
    by apply elem_of_nil in Hr.
Defined.

(** * Renaming, plain fact bases and solution surfacing *)

(** ** Strings as lists of characters *)

Lemma chars_app (s1 s2 : string) : chars (s1 +:+ s2) = chars s1 ++ chars s2.
Proof. induction s1 as [|c s1 IH]; [done|]. simpl. by rewrite <- IH. Qed.

Lemma str_chars (s : string) : str (chars s) = s.
Proof. apply string_of_list_ascii_of_string. Qed.

Lemma chars_inj (s1 s2 : string) : chars s1 = chars s2 -> s1 = s2.
Proof. intros H. rewrite <- (str_chars s1), <- (str_chars s2). by rewrite H. Qed.

Lemma append_inj_l (s1 s2 suffix : string) :
  s1 +:+ suffix = s2 +:+ suffix -> s1 = s2.
Proof.
  intros H. apply chars_inj. apply (f_equal chars) in H. rewrite !chars_app in H.
  by apply app_inv_tail in H.
Qed.

Lemma is_var_append (a suffix : string) : is_var a = true -> is_var (a +:+ suffix) = true.
Proof. destruct a as [|c a]; [done|]. simpl. by destruct (Ascii.eqb_spec c "?"). Qed.

(** ** Rule renaming *)

Lemma renaming_of_lookup (suffix : string) (vars : list string) (a : string) :
  renaming_of suffix vars !! a
  = if bool_decide (a ∈ vars) then Some (a +:+ suffix) else None.
Proof.
  unfold renaming_of. induction vars as [|v vars IH]; cbn [map].
  - rewrite list_to_map_nil, lookup_empty.
    by rewrite bool_decide_eq_false_2 by apply not_elem_of_nil.
  - rewrite list_to_map_cons. destruct (decide (a = v)) as [->|Hne].
    + rewrite lookup_insert_eq. rewrite bool_decide_eq_true_2; [done|left].
    + rewrite lookup_insert_ne by done. rewrite IH.
      destruct (decide (a ∈ vars)) as [Hin|Hin].
      * rewrite !bool_decide_eq_true_2; [done|by right|done].
      * rewrite !bool_decide_eq_false_2; [done| |done].
        intros [->|H]%elem_of_cons; done.
Qed.

Lemma rename_fact_add_suffix (suffix : string) (vars : list string) (f : Fact) :
  (forall a, a ∈ args f -> is_var a = true -> a ∈ vars) ->
  (forall a, a ∈ vars -> is_var a = true) ->
  rename_fact (renaming_of suffix vars) f = add_suffix suffix f.
Proof.
  intros Hin Hvars. unfold rename_fact, add_suffix. f_equal.
  apply map_ext_in. intros a Ha. apply list_elem_of_In in Ha.
  rewrite renaming_of_lookup. destruct (is_var a) eqn:Hv.
  - rewrite bool_decide_eq_true_2 by auto. reflexivity.
  - rewrite bool_decide_eq_false_2; [done|]. intros H. apply Hvars in H. congruence.
Qed.

Lemma rule_variables_spec (r : Rule) (a : string) :
  a ∈ rule_variables r
  <-> is_var a = true
      /\ (a ∈ args (conclusion r) \/ exists p, p ∈ premises r /\ a ∈ args p).
Proof.
  unfold rule_variables. rewrite elem_of_app, list_elem_of_filter.
  assert (Hflat : a ∈ flat_map (fun p => filter (fun a => is_var a = true) (args p))
                         (premises r)
                  <-> exists p, p ∈ premises r /\ is_var a = true /\ a ∈ args p).
  { rewrite list_elem_of_In, in_flat_map. split.
    - intros [p [Hp Ha]]. exists p. rewrite list_elem_of_In.
      apply list_elem_of_In, list_elem_of_filter in Ha. tauto.
    - intros [p [Hp Ha]]. exists p. rewrite <- !list_elem_of_In, list_elem_of_filter.
      tauto. }
  rewrite Hflat. split.
  - intros [[? ?]|[p (?&?&?)]]; [auto|]. split; [done|]. right. eauto.
  - intros [Hv [?|[p [Hp Ha]]]]; [auto|]. right. eauto.
Qed.

(** X6. [_rename_rule_variables] increments the rule counter and
    returns the rule with the one suffix [_<counter>] appended to every
    variable of the conclusion and of the premises; constants and
    predicates are kept, so a ground atom is returned as it is, and two
    different arguments never become the same argument. *)
Theorem renaming_adds_one_suffix (r : Rule) (st : prover_state) :
  let suffix := suffix_of (S (rule_counter st)) in
  fst (_rename_rule_variables r st)
  = mkRule (add_suffix suffix (conclusion r)) (map (add_suffix suffix) (premises r))
  /\ rule_counter (snd (_rename_rule_variables r st)) = S (rule_counter st)
  /\ (forall a a', (if is_var a then a +:+ suffix else a)
                   = (if is_var a' then a' +:+ suffix else a') -> a = a')
  /\ (forall f, is_ground f = true -> add_suffix suffix f = f).
Proof.
  intros suffix. split; [|split; [reflexivity|split]].
  - cbn [_rename_rule_variables fst rule_counter]. fold suffix. f_equal.
    + apply rename_fact_add_suffix.
      * intros a Ha Hv. apply rule_variables_spec. auto.
      * intros a Ha. by apply rule_variables_spec in Ha as [? _].
    + apply map_ext_in. intros p Hp. apply list_elem_of_In in Hp.
      apply rename_fact_add_suffix.
      * intros a Ha Hv. apply rule_variables_spec. split; [done|]. right. eauto.
      * intros a Ha. by apply rule_variables_spec in Ha as [? _].
  - intros a a'. destruct (is_var a) eqn:Ha, (is_var a') eqn:Ha'; intros E.
    + by apply append_inj_l in E.
    + subst a'. by rewrite is_var_append in Ha'.
    + subst a. by rewrite is_var_append in Ha.
    + done.
  - intros [p l] Hg. unfold add_suffix. simpl. f_equal.
    rewrite <- (map_id l) at 2. apply map_ext_in. intros a Ha.
    apply list_elem_of_In in Ha.
    by rewrite (is_ground_args (mkFact p l) a Hg Ha).
Qed.

(** ** Ground questions to a knowledge base of ground facts *)

Lemma facts_loop_ground (g : Fact) (b : bindings) (fs : list Fact) :
  is_ground g = true -> Forall (fun f => is_ground f = true) fs ->
  forall acc,
    fst (fold_left (fact_step g b) fs acc)
    = fst acc ++ map (fun _ => b) (filter (fun f => g = f) fs).
Proof.
  intros Hg Hfs. induction Hfs as [|f fs Hf Hfs IH]; intros acc; simpl.
  - by rewrite app_nil_r.
  - rewrite IH. unfold fact_step. rewrite (Fact_match_ground g f b Hg Hf).
    rewrite filter_cons. destruct (decide (g = f)) as [E|E].
    + rewrite (bool_decide_eq_true_2 _ E). cbn [fst map]. by rewrite <- app_assoc.
    + by rewrite (bool_decide_eq_false_2 _ E).
Qed.

Lemma filter_eq_nil (g : Fact) (fs : list Fact) :
  filter (fun f => g = f) fs = [] <-> g ∉ fs.
Proof.
  split.
  - intros E Hin.
    assert (Hg : g ∈ filter (fun f => g = f) fs) by (apply list_elem_of_filter; auto).
    rewrite E in Hg. by apply elem_of_nil in Hg.
  - intros Hin. destruct (filter (fun f => g = f) fs) as [|x l] eqn:E; [done|].
    assert (Hx : x ∈ filter (fun f => g = f) fs) by (rewrite E; left).
    apply list_elem_of_filter in Hx as [-> Hx]. done.
Qed.

(** X7. On a knowledge base without rules whose facts are ground, a
    ground goal is proved exactly when it is one of the facts, and
    [prove_with_bindings] returns one empty environment for each
    occurrence of the goal among the facts. *)
Theorem ground_query_over_facts_is_membership (c : BackwardChainer) (g : Fact) :
  reachable c ->
  0 < max_depth c ->
  rules (kb c) = [] ->
  Forall (fun f => is_ground f = true) (facts (kb c)) ->
  is_ground g = true ->
  fst (prove c g) = bool_decide (g ∈ facts (kb c))
  /\ fst (prove_with_bindings c g)
     = map (fun _ => ∅) (filter (fun f => g = f) (facts (kb c))).
Proof.
  intros Hr Hmd Hrules Hfacts Hg.
  destruct (reachable_inv c Hr) as (Hc&Ht&_).
  assert (E : fst (prove_with_bindings c g)
              = map (fun _ => ∅) (filter (fun f => g = f) (facts (kb c)))).
  { unfold prove_with_bindings, backchain_to_goal.
    cbn [fst snd state at_entry kb max_depth trace_depth clear_proved].
    rewrite Ht, Nat.sub_0_r. destruct (max_depth c) as [|n]; [lia|].
    cbn [backchain]. rewrite substitute_empty.
    set (st1 := enter (_trace_print (TGoal g) (clear_proved (state c)))).
    assert (H1 : current_goals st1 = []) by exact Hc.
    assert (H2 : proved_goals st1 = ∅) by reflexivity.
    rewrite H1, H2.
    rewrite bool_decide_eq_false_2 by apply not_elem_of_nil.
    rewrite bool_decide_eq_false_2 by apply not_elem_of_empty.
    rewrite Hrules. cbn [fold_left fst].
    by rewrite (facts_loop_ground g ∅ (facts (kb c)) Hg Hfacts). }
  split; [|exact E].
  unfold prove. change (backchain_to_goal (at_entry c) g ∅) with (prove_with_bindings c g).
  cbn [fst]. rewrite E, length_map.
  destruct (decide (g ∈ facts (kb c))) as [Hin|Hin].
  - rewrite !bool_decide_eq_true_2; [done|done|].
    destruct (filter (fun f => g = f) (facts (kb c))) as [|x l] eqn:E'; [|simpl; lia].
    by apply filter_eq_nil in E'.
  - rewrite !bool_decide_eq_false_2; [done|done|].
    apply filter_eq_nil in Hin. rewrite Hin. simpl. lia.
Qed.

Lemma ground_query_over_facts_is_membership_witness :
  fst (prove (BackwardChainer_new (mkKB [mkFact "has_fur" ["dog"]; mkFact "has_fur" ["cat"]] []))
             (mkFact "has_fur" ["fish"])) = false.
Proof.
  refine (proj1 (ground_query_over_facts_is_membership
            (BackwardChainer_new (mkKB [mkFact "has_fur" ["dog"]; mkFact "has_fur" ["cat"]] []))
            (mkFact "has_fur" ["fish"]) (reachable_init _ false 50) _ eq_refl _ eq_refl)).
  - simpl. lia.
  - repeat constructor.
Defined.

(** ** What [extract_query_bindings] returns *)

Lemma unique_results_spec (result : list bindings) :
  forall seen,
    NoDup (unique_results seen result)
    /\ forall x, x ∈ unique_results seen result <-> x ∈ result /\ x ∉ seen.
Proof.
  induction result as [|y l IH]; intros seen; simpl.
  - split; [constructor|]. intros x. split; [intros H; by apply elem_of_nil in H|].
    intros [H _]. by apply elem_of_nil in H.
  - destruct (decide (y ∈ seen)) as [Hy|Hy].
    + rewrite (bool_decide_eq_true_2 _ Hy). destruct (IH seen) as [Hn Hm].
      split; [done|]. intros x. rewrite Hm, elem_of_cons. split; [tauto|].
      intros [[->|?] ?]; [done|tauto].
    + rewrite (bool_decide_eq_false_2 _ Hy). destruct (IH (y :: seen)) as [Hn Hm].
      split.
      * constructor; [|done]. rewrite Hm. rewrite elem_of_cons. tauto.
      * intros x. rewrite elem_of_cons, Hm, !elem_of_cons.
        destruct (decide (x = y)) as [->|]; tauto.
Qed.

(** ** Chains of bindings *)

Lemma chain_functional (b : bindings) (n : nat) (x v : string) :
  chain b n x v -> forall m w, chain b m x w -> n = m /\ v = w.
Proof.
  induction 1 as [value Hend|n value next_value v Hvar Hb _ IH]; intros m w Hc.
  - inversion Hc as [value' _|m' value' next' w' Hvar' Hb' _]; subst; [done|].
    destruct Hend as [Hend|Hend]; congruence.
  - inversion Hc as [value' Hend|m' value' next' w' Hvar' Hb' Hc']; subst.
    + destruct Hend as [Hend|Hend]; congruence.
    + assert (next' = next_value) as -> by congruence.
      destruct (IH m' w Hc') as [-> ->]. done.
Qed.

(** The loop of [extract_query_bindings] on a chain that ends: the
    variables seen so far are off the chain, and the loop returns its
    end. *)
Lemma extract_walk_chain (b : bindings) (n : nat) (value v : string) :
  chain b n value v ->
  forall seen fuel r,
    (forall y m w, y ∈ seen -> chain b m y w -> n < m) ->
    extract_walk fuel b value seen = Some r -> r = v.
Proof.
  induction 1 as [value Hend|n value next_value v Hvar Hb Hc IH];
    intros seen fuel r Hseen; (destruct fuel as [|fuel]; [done|]); cbn [extract_walk].
  - destruct Hend as [Hend|Hend]; rewrite Hend.
    + congruence.
    + destruct (b !! value); congruence.
  - rewrite Hb, Hvar. destruct (decide (value ∈ seen)) as [Hin|Hin].
    + pose proof (Hseen value (S n) v Hin (chain_next b n value next_value v Hvar Hb Hc)).
      lia.
    + rewrite (bool_decide_eq_false_2 _ Hin). apply IH.
      intros y m w [->%elem_of_singleton|Hy]%elem_of_union Hy'.
      * destruct (chain_functional b (S n) value v
                    (chain_next b n value next_value v Hvar Hb Hc) m w Hy') as [<- _].
        lia.
      * pose proof (Hseen y m w Hy Hy'). lia.
Qed.

(** A constant that the loop returns is the end of the chain. *)
Lemma extract_walk_constant (b : bindings) (fuel : nat) :
  forall value seen r,
    extract_walk fuel b value seen = Some r -> is_var r = false ->
    exists n, chain b n value r.
Proof.
  induction fuel as [|fuel IH]; intros value seen r; [done|]. cbn [extract_walk].
  destruct (b !! value) as [next_value|] eqn:Hb.
  - destruct (is_var value) eqn:Hvar.
    + destruct (bool_decide (value ∈ seen)).
      * intros [= <-] Hr. congruence.
      * intros Hw Hr. destruct (IH next_value _ r Hw Hr) as [n Hn].
        exists (S n). by apply (chain_next b n value next_value r).
    + intros [= <-] _. exists 0. apply chain_end. by right.
  - intros [= <-] _. exists 0. apply chain_end. by left.
Qed.

(** What one iteration over the variables of the query stores. *)
Lemma clean_step_reports (b clean : bindings) (var : string) :
  is_var var = true ->
  (exists v, clean_step b clean var = <[var := v]> clean
             /\ is_var v = false
             /\ exists first_value n, b !! var = Some first_value /\ chain b n first_value v)
  \/ (clean_step b clean var = clean
      /\ forall v first_value n,
           b !! var = Some first_value -> chain b n first_value v -> is_var v = true).
Proof.
  intros Hvar. unfold clean_step. destruct (b !! var) as [first_value|] eqn:Hb.
  2:{ right. split; [done|]. intros v first_value n [=]. }
  destruct (extract_walk_enough b var first_value) as [r Hr]. rewrite Hr.
  cbn [default from_option id]. destruct (is_var r) eqn:Hvr.
  - right. split; [done|]. intros v first' n [= <-] Hc.
    assert (r = v) as <-; [|done].
    apply (extract_walk_chain b n first_value v Hc {[var]} (size b + 1) r); [|done].
    intros y m w ->%elem_of_singleton Hy.
    inversion Hy as [value' Hend|m' value' next' w' _ Hb' Hc']; subst.
    + destruct Hend as [Hend|Hend]; congruence.
    + assert (next' = first_value) as -> by congruence.
      destruct (chain_functional b n first_value v Hc m' w Hc') as [-> _]. lia.
  - left. exists r. split; [done|]. split; [done|].
    destruct (extract_walk_constant b _ _ _ r Hr Hvr) as [n Hn]. eauto.
Qed.

Lemma fold_clean_step_reports (b : bindings) (l : list string) :
  Forall (fun var => is_var var = true) l ->
  forall acc var v,
    fold_left (clean_step b) l acc !! var = Some v <->
    (var ∈ l /\ is_var v = false
     /\ exists first_value n, b !! var = Some first_value /\ chain b n first_value v)
    \/ (acc !! var = Some v
        /\ (var ∈ l -> forall w first_value n,
              b !! var = Some first_value -> chain b n first_value w -> is_var w = true)).
Proof.
  induction 1 as [|x l Hx Hl IH]; intros acc var v; cbn [fold_left].
  - split.
    + intros H. right. split; [done|]. intros Hin. by apply elem_of_nil in Hin.
    + intros [[Hin _]|[H _]]; [by apply elem_of_nil in Hin|done].
  - rewrite IH. destruct (clean_step_reports b acc x Hx)
      as [(u&Es&Hu&first_value&n&Hb&Hc)|[Es Hnone]]; rewrite Es.
    + split.
      * intros [(Hin&Hv&Hex)|[Hlook Hno]].
        -- left. split; [by right|done].
        -- apply lookup_insert_Some in Hlook as [[<- <-]|[Hne Hlook]].
           ++ left. split; [by left|]. split; [done|]. eauto.
           ++ right. split; [done|]. intros [?|Hin]%elem_of_cons; [done|]. by apply Hno.
      * intros [(Hin&Hv&first'&n'&Hb'&Hc')|[Hlook Hno]].
        -- destruct (decide (var ∈ l)) as [Hl'|Hl'].
           ++ left. split; [done|]. split; [done|]. eauto.
           ++ apply elem_of_cons in Hin as [->|Hin]; [|done].
              right. split; [|done].
              assert (first' = first_value) as -> by congruence.
              destruct (chain_functional b n first_value u Hc n' v Hc') as [_ ->].
              by rewrite lookup_insert_eq.
        -- destruct (decide (var = x)) as [->|Hne].
           ++ exfalso. pose proof (Hno (ltac:(left)) u first_value n Hb Hc). congruence.
           ++ right. split; [by rewrite lookup_insert_ne|].
              intros Hin. apply Hno. by right.
    + split.
      * intros [(Hin&Hv&Hex)|[Hlook Hno]].
        -- left. split; [by right|done].
        -- right. split; [done|]. intros [->|Hin]%elem_of_cons; [exact Hnone|by apply Hno].
      * intros [(Hin&Hv&first'&n'&Hb'&Hc')|[Hlook Hno]].
        -- apply elem_of_cons in Hin as [->|Hin].
           ++ pose proof (Hnone v first' n' Hb' Hc'). congruence.
           ++ left. split; [done|]. split; [done|]. eauto.
        -- right. split; [done|]. intros Hin. apply Hno. by right.
Qed.

Lemma clean_bindings_of_reports (goal : Fact) (b : bindings) :
  reports goal b (clean_bindings_of goal b).
Proof.
  intros var v. unfold clean_bindings_of.
  rewrite fold_clean_step_reports.
  2:{ apply Forall_forall. intros x Hx. by apply list_elem_of_filter in Hx as [? _]. }
  rewrite lookup_empty. unfold query_vars. rewrite list_elem_of_filter. split.
  - intros [([Hvar Hin]&Hv&Hex)|[[=] _]]. done.
  - intros (Hin&Hvar&Hv&Hex). left. done.
Qed.

(** Two environments that report the same are one environment. *)
Lemma reports_unique (goal : Fact) (b clean clean' : bindings) :
  reports goal b clean -> reports goal b clean' -> clean = clean'.
Proof.
  intros H H'. apply map_eq. intros var. apply option_eq. intros v.
  by rewrite (H var v), (H' var v).
Qed.

(** X8. [extract_query_bindings] returns a list without duplicates,
    made of the non-empty cleaned environments of its input and of
    nothing else, where the cleaned environment of [b] binds exactly
    the variables of the query that [b] binds and whose chain of
    bindings in [b] ends at a constant, each to that constant. So a
    variable of the query that an environment of the input binds,
    directly or through other variables, to a constant is reported with
    that constant. *)
Theorem extracted_solutions_are_clean (goal : Fact) (bindings_list : list bindings) :
  NoDup (extract_query_bindings goal bindings_list)
  /\ (forall clean, clean ∈ extract_query_bindings goal bindings_list <->
        clean <> ∅ /\ exists b, b ∈ bindings_list /\ reports goal b clean)
  /\ (forall b var first_value n v,
        b ∈ bindings_list -> var ∈ args goal -> is_var var = true ->
        b !! var = Some first_value -> chain b n first_value v -> is_var v = false ->
        exists clean,
          clean ∈ extract_query_bindings goal bindings_list /\ clean !! var = Some v).
Proof.
  unfold extract_query_bindings.
  destruct (unique_results_spec
              (filter (fun clean : bindings => clean ≠ ∅)
                 (map (clean_bindings_of goal) bindings_list)) []) as [Hn Hm].
  assert (Hmem : forall clean,
            clean ∈ unique_results []
              (filter (fun clean : bindings => clean ≠ ∅)
                 (map (clean_bindings_of goal) bindings_list)) <->
            clean <> ∅ /\ exists b, b ∈ bindings_list /\ reports goal b clean).
  { intros clean. rewrite Hm, list_elem_of_filter. split.
    - intros [[Hne Hin] _]. split; [done|].
      apply list_elem_of_fmap in Hin as [b [-> Hb]].
      exists b. split; [done|]. apply clean_bindings_of_reports.
    - intros [Hne [b [Hb Hrep]]]. split; [|apply not_elem_of_nil].
      split; [done|]. apply list_elem_of_fmap. exists b. split; [|done].
      apply (reports_unique goal b); [done|]. apply clean_bindings_of_reports. }
  split; [exact Hn|]. split; [exact Hmem|].
  intros b var first_value n v Hb Hin Hvar Hlook Hc Hv.
  assert (Hl : clean_bindings_of goal b !! var = Some v).
  { apply clean_bindings_of_reports. split; [done|]. split; [done|]. split; [done|]. eauto. }
  exists (clean_bindings_of goal b). split; [|done].
  apply Hmem. split.
  - intros E. by rewrite E, lookup_empty in Hl.
  - exists b. split; [done|]. apply clean_bindings_of_reports.
Qed.

(** The query [mammal(?Who)] with [?Who] bound to [?X_1] and [?X_1]
    to [dog]: the solution binds [?Who] to [dog]. *)
Lemma extracted_solutions_are_clean_witness :
  exists clean,
    clean ∈ extract_query_bindings (mkFact "mammal" ["?Who"])
              [<["?Who" := "?X_1"]> {["?X_1" := "dog"]}]
    /\ clean !! "?Who" = Some "dog".
Proof.
  refine (proj2 (proj2 (extracted_solutions_are_clean (mkFact "mammal" ["?Who"])
                          [<["?Who" := "?X_1"]> {["?X_1" := "dog"]}]))
            (<["?Who" := "?X_1"]> {["?X_1" := "dog"]}) "?Who" "?X_1" 1 "dog"
            _ _ eq_refl _ _ eq_refl).
  - apply list_elem_of_here.
  - apply list_elem_of_here.
  - vm_compute. reflexivity.
  - apply (chain_next _ 0 "?X_1" "dog" "dog"); [reflexivity|vm_compute; reflexivity|].
    apply chain_end. left. vm_compute. reflexivity.
Defined.

(** * Printing and parsing *)

(** ** Stripping *)

Lemma lstrip_chars_app (p : ascii -> bool) (a b : list ascii) (c : ascii) :
  p c = false -> lstrip_chars p (a ++ c :: b) = lstrip_chars p a ++ c :: b.
Proof.
  intros Hc. induction a as [|x a IH]; simpl.
  - by rewrite Hc.
  - destruct (p x); [exact IH|done].
Qed.

Lemma lstrip_chars_all (p : ascii -> bool) (a : list ascii) :
  forallb p a = true -> lstrip_chars p a = [].
Proof.
  induction a as [|x a IH]; simpl; [done|].
  intros [Hx Ha]%andb_true_iff. rewrite Hx. auto.
Qed.

Lemma rstrip_chars_app (p : ascii -> bool) (a b : list ascii) (c : ascii) :
  p c = false -> rstrip_chars p (a ++ c :: b) = a ++ c :: rstrip_chars p b.
Proof.
  intros Hc. unfold rstrip_chars.
  rewrite rev_app_distr. simpl. rewrite <- app_assoc. simpl.
  rewrite (lstrip_chars_app p (rev b) (rev a) c Hc).
  rewrite rev_app_distr. simpl. rewrite rev_involutive.
  by rewrite <- app_assoc.
Qed.

Lemma rstrip_chars_nil (p : ascii -> bool) : rstrip_chars p [] = [].
Proof. reflexivity. Qed.

Lemma rstrip_chars_prefix (p : ascii -> bool) (l : list ascii) :
  exists r, l = rstrip_chars p l ++ r /\ forallb p r = true.
Proof.
  unfold rstrip_chars.
  assert (H : forall m, exists r, m = r ++ lstrip_chars p m /\ forallb p r = true).
  { induction m as [|x m [r [Hr Hp]]]; simpl.
    - by exists [].
    - destruct (p x) eqn:Hx.
      + exists (x :: r). simpl. rewrite Hx. split; [by rewrite <- Hr|done].
      + by exists []. }
  destruct (H (rev l)) as [r [Hr Hp]]. exists (rev r). split.
  - rewrite <- rev_app_distr, <- Hr. by rewrite rev_involutive.
  - rewrite forallb_forall in *. intros x Hx. apply Hp. by apply in_rev.
Qed.

(** ** Characters *)

Lemma is_word_not_space (c : ascii) : is_word c = true -> is_space c = false.
Proof. destruct c as [[] [] [] [] [] [] [] []]; vm_compute; congruence. Qed.

Lemma is_word_not_special (c : ascii) :
  is_word c = true ->
  c <> "%"%char /\ c <> ":"%char /\ c <> "\"%char /\ c <> "("%char /\ c <> ")"%char
  /\ c <> ","%char.
Proof. intros H. repeat split; intros ->; vm_compute in H; discriminate. Qed.

Lemma ok_char_spec (c : ascii) :
  ok_char c = true ->
  is_space c = false
  /\ c <> ","%char /\ c <> "("%char /\ c <> ")"%char /\ c <> ":"%char /\ c <> "\"%char.
Proof.
  unfold ok_char. intros [[_ H1]%andb_true_iff H2]%andb_true_iff.
  apply negb_true_iff in H1, H2. split; [done|].
  repeat split; intros ->; vm_compute in H2; discriminate.
Qed.

Lemma lstrip_chars_none (p : ascii -> bool) (l : list ascii) :
  forallb (fun c => negb (p c)) l = true -> lstrip_chars p l = l.
Proof.
  destruct l as [|c l]; [done|]. simpl. intros [Hc _]%andb_true_iff.
  apply negb_true_iff in Hc. by rewrite Hc.
Qed.

Lemma rstrip_chars_none (p : ascii -> bool) (l : list ascii) :
  forallb (fun c => negb (p c)) l = true -> rstrip_chars p l = l.
Proof.
  intros H. unfold rstrip_chars. rewrite lstrip_chars_none; [apply rev_involutive|].
  rewrite forallb_forall in *. intros x Hx. apply H. by apply in_rev.
Qed.

Lemma lstrip_chars_skip (p : ascii -> bool) (ws l : list ascii) :
  forallb p ws = true -> lstrip_chars p (ws ++ l) = lstrip_chars p l.
Proof.
  induction ws as [|x ws IH]; simpl; [done|].
  intros [Hx Hws]%andb_true_iff. rewrite Hx. auto.
Qed.

(** [strip] on a text without white space, behind white space. *)
Lemma strip_plain (ws : list ascii) (a : string) :
  forallb is_space ws = true ->
  forallb (fun c => negb (is_space c)) (chars a) = true ->
  strip (str (ws ++ chars a)) = a.
Proof.
  intros Hws Ha. unfold strip. rewrite chars_str, lstrip_chars_skip by done.
  rewrite lstrip_chars_none, rstrip_chars_none by done. apply str_chars.
Qed.

(** ** The pieces of the regular expression *)

Lemma span_app (p : ascii -> bool) (a b : list ascii) (c : ascii) :
  forallb p a = true -> p c = false -> span p (a ++ c :: b) = (a, c :: b).
Proof.
  intros Ha Hc. induction a as [|x a IH]; simpl.
  - by rewrite Hc.
  - simpl in Ha. apply andb_true_iff in Ha as [Hx Ha]. rewrite Hx, (IH Ha). done.
Qed.

Lemma is_char_refl (a : ascii) : is_char a a = true.
Proof. unfold is_char. by apply bool_decide_eq_true_2. Qed.

Lemma is_char_ne (a c : ascii) : c <> a -> is_char a c = false.
Proof. intros H. unfold is_char. by apply bool_decide_eq_false_2. Qed.

Lemma until_close_app (inner rest : list ascii) :
  ")"%char ∉ inner -> "010"%char ∉ inner ->
  until_close (inner ++ ")"%char :: rest) = Some inner.
Proof.
  induction inner as [|c inner IH]; intros H1 H2.
  - cbn [app until_close]. by rewrite is_char_refl.
  - apply not_elem_of_cons in H1 as [Hc1 H1]. apply not_elem_of_cons in H2 as [Hc2 H2].
    cbn [app until_close]. rewrite !is_char_ne by congruence.
    by rewrite (IH H1 H2).
Qed.

Lemma split_commas_plain (l : list ascii) :
  ","%char ∉ l -> split_commas l = [l].
Proof.
  induction l as [|c l IH]; intros H; [done|].
  apply not_elem_of_cons in H as [Hc H].
  cbn [split_commas]. rewrite is_char_ne by congruence.
  by rewrite (IH H).
Qed.

Lemma split_commas_app (l rest : list ascii) :
  ","%char ∉ l -> split_commas (l ++ ","%char :: rest) = l :: split_commas rest.
Proof.
  induction l as [|c l IH]; intros H.
  - cbn [app split_commas]. by rewrite is_char_refl.
  - apply not_elem_of_cons in H as [Hc H].
    cbn [app split_commas]. rewrite is_char_ne by congruence.
    by rewrite (IH H).
Qed.

(** ** The text of a printed atom *)

Lemma chars_concat (a : string) (l : list string) :
  chars (String.concat ", " (a :: l)) = chars a ++ more_args l.
Proof.
  revert a. induction l as [|x l IH]; intros a.
  - simpl. by rewrite app_nil_r.
  - change (String.concat ", " (a :: x :: l))
      with (a +:+ ", " +:+ String.concat ", " (x :: l)).
    rewrite !chars_app, IH. reflexivity.
Qed.

Lemma chars_Fact_repr (p a : string) (l : list string) :
  chars (Fact_repr (mkFact p (a :: l)))
  = chars p ++ "("%char :: (chars a ++ more_args l) ++ [")"%char].
Proof.
  unfold Fact_repr. cbn [args predicate]. rewrite !chars_app, chars_concat. done.
Qed.

Lemma split_commas_more (pre : list ascii) (l : list string) :
  ","%char ∉ pre -> Forall (fun x => ","%char ∉ chars x) l ->
  split_commas (pre ++ more_args l) = pre :: map (fun x => " "%char :: chars x) l.
Proof.
  revert pre. induction l as [|x l IH]; intros pre Hpre Hl.
  - simpl. rewrite app_nil_r. by apply split_commas_plain.
  - apply Forall_cons in Hl as [Hx Hl].
    change (more_args (x :: l)) with (","%char :: (" "%char :: chars x) ++ more_args l).
    rewrite (split_commas_app pre _ Hpre). f_equal. apply IH; [|done].
    apply not_elem_of_cons. split; [done|exact Hx].
Qed.

Lemma elem_of_more_args (x : ascii) (l : list string) :
  x ∈ more_args l -> x = ","%char \/ x = " "%char \/ exists a, a ∈ l /\ x ∈ chars a.
Proof.
  unfold more_args. rewrite list_elem_of_In, in_flat_map. intros [a [Ha Hx]].
  apply list_elem_of_In in Ha. destruct Hx as [<-|[<-|Hx]]; [by left|right; by left|].
  right. right. exists a. split; [done|by apply list_elem_of_In].
Qed.

Lemma reloadable_arg_spec (a : string) :
  reloadable_arg a = true ->
  chars a <> [] /\ convert_arg a = a
  /\ forall x, x ∈ chars a ->
       is_space x = false
       /\ x <> ","%char /\ x <> "("%char /\ x <> ")"%char /\ x <> ":"%char
       /\ x <> "\"%char.
Proof.
  unfold reloadable_arg. destruct (chars a) as [|c cs] eqn:E; [done|].
  intros [[H1 H2]%andb_true_iff H3]%andb_true_iff.
  apply negb_true_iff in H1, H2. apply bool_decide_eq_false in H2.
  split; [done|]. split.
  - unfold convert_arg. rewrite bool_decide_eq_false_2 by done.
    destruct a as [|c' a]; [done|]. injection E as -> _. by rewrite H1.
  - intros x Hx. apply ok_char_spec. rewrite forallb_forall in H3. apply H3.
    by apply list_elem_of_In.
Qed.

Lemma reloadable_arg_strip (ws : list ascii) (a : string) :
  forallb is_space ws = true -> reloadable_arg a = true ->
  strip (str (ws ++ chars a)) = a.
Proof.
  intros Hws Ha. apply strip_plain; [done|].
  apply reloadable_arg_spec in Ha as (_&_&Ha). apply forallb_forall. intros x Hx.
  apply list_elem_of_In, Ha in Hx as [-> _]. done.
Qed.

Lemma is_identifier_spec (p : string) :
  is_identifier p = true -> chars p <> [] /\ forallb is_word (chars p) = true.
Proof. unfold is_identifier. by destruct (chars p). Qed.

(** The characters between the parentheses of a printed atom. *)
Lemma printed_args_chars (a : string) (l : list string) (x : ascii) :
  forallb reloadable_arg (a :: l) = true ->
  x ∈ chars a ++ more_args l ->
  x <> ")"%char /\ x <> "010"%char /\ x <> "("%char /\ x <> ":"%char /\ x <> "\"%char.
Proof.
  intros Hall Hx.
  assert (Harg : forall b, b ∈ a :: l -> x ∈ chars b ->
            x <> ")"%char /\ x <> "010"%char /\ x <> "("%char /\ x <> ":"%char
            /\ x <> "\"%char).
  { intros b Hb Hxb. rewrite forallb_forall in Hall.
    apply list_elem_of_In, Hall, reloadable_arg_spec in Hb as (_&_&Hb).
    destruct (Hb x Hxb) as (Hs&?&?&?&?&?).
    repeat split; try done. intros ->. by vm_compute in Hs. }
  apply elem_of_app in Hx as [Hx|Hx].
  - apply (Harg a); [left|done].
  - apply elem_of_more_args in Hx as [->|[->|[b [Hb Hx]]]]; [done|done|].
    apply (Harg b); [by right|done].
Qed.

(** The text that [parse_prolog_fact] hands to the regular expression,
    for a printed atom between white space and any text. *)
Lemma strip_printed (ws tail body : list ascii) (c : ascii) (name : list ascii) :
  forallb is_space ws = true -> is_space c = false ->
  strip (str (ws ++ ((c :: name) ++ body ++ [")"%char]) ++ tail))
  = str ((c :: name) ++ body ++ ")"%char :: rstrip_chars is_space tail).
Proof.
  intros Hws Hc. unfold strip. rewrite chars_str, lstrip_chars_skip by done.
  f_equal. cbn [app lstrip_chars]. rewrite Hc.
  change (c :: (name ++ body ++ [")"%char]) ++ tail)
    with ((c :: name ++ body ++ [")"%char]) ++ tail).
  replace ((c :: name ++ body ++ [")"%char]) ++ tail)
    with ((c :: name ++ body) ++ ")"%char :: tail)
    by (simpl; by rewrite <- !app_assoc).
  rewrite rstrip_chars_app by done. simpl. by rewrite <- app_assoc.
Qed.

Lemma rstrip_dots_printed (pre tail : list ascii) :
  rstrip_dots (str (pre ++ ")"%char :: tail))
  = str (pre ++ ")"%char :: rstrip_chars (is_char ".") tail).
Proof. unfold rstrip_dots. rewrite chars_str. by rewrite rstrip_chars_app. Qed.

Lemma parse_printed (p a : string) (l : list string) (ws tail : list ascii) :
  is_identifier p = true -> forallb reloadable_arg (a :: l) = true ->
  forallb is_space ws = true ->
  parse_prolog_fact (str (ws ++ chars (Fact_repr (mkFact p (a :: l))) ++ tail))
  = Some (mkFact p (a :: l)).
Proof.
  intros Hp Hargs Hws. apply is_identifier_spec in Hp as [Hne Hw].
  rewrite chars_Fact_repr. set (inner := chars a ++ more_args l).
  destruct (chars p) as [|c name] eqn:Ep; [done|].
  assert (Hc : is_space c = false).
  { apply is_word_not_space. simpl in Hw. by apply andb_true_iff in Hw as [-> _]. }
  unfold parse_prolog_fact.
  change ((c :: name) ++ "("%char :: inner ++ [")"%char])
    with ((c :: name) ++ ("("%char :: inner) ++ [")"%char]).
  rewrite (strip_printed ws tail ("("%char :: inner) c name Hws Hc).
  rewrite app_assoc, rstrip_dots_printed.
  set (tail' := rstrip_chars (is_char ".") (rstrip_chars is_space tail)).
  unfold match_atom. rewrite chars_str, <- app_assoc.
  change (("("%char :: inner) ++ ")"%char :: tail')
    with ("("%char :: inner ++ ")"%char :: tail').
  rewrite (span_app is_word (c :: name) _ "("%char Hw eq_refl).
  rewrite is_char_refl.
  rewrite until_close_app;
    [|intros H; by apply (printed_args_chars a l _ Hargs) in H as (?&?&?)
     |intros H; by apply (printed_args_chars a l _ Hargs) in H as (?&?&?)].
  assert (Hinner : str inner <> "").
  { intros E. apply (f_equal chars) in E. rewrite chars_str in E.
    unfold inner in E. apply app_eq_nil in E as [E _].
    cbn [forallb] in Hargs. apply andb_true_iff in Hargs as [Ha _].
    by apply reloadable_arg_spec in Ha as [Ha _]. }
  rewrite bool_decide_eq_false_2 by done. rewrite chars_str. unfold inner.
  rewrite <- Ep, str_chars. f_equal. f_equal.
  assert (Hall : Forall (fun b => reloadable_arg b = true) (a :: l)).
  { apply Forall_forall. intros b Hb. rewrite forallb_forall in Hargs.
    by apply Hargs, list_elem_of_In. }
  assert (Hcomma : Forall (fun b => ","%char ∉ chars b) (a :: l)).
  { eapply Forall_impl; [exact Hall|]. intros b Hb Hin.
    apply reloadable_arg_spec in Hb as (_&_&Hb). by apply Hb in Hin as (_&?&_). }
  apply Forall_cons in Hcomma as [Ha Hl].
  rewrite (split_commas_more (chars a) l Ha Hl). cbn [map].
  apply Forall_cons in Hall as [Hra Hrl].
  pose proof (reloadable_arg_strip [] a eq_refl Hra) as Ea. cbn [app] in Ea. rewrite Ea.
  rewrite (proj1 (proj2 (reloadable_arg_spec a Hra))). f_equal.
  rewrite !map_map. rewrite <- (map_id l) at 2. apply map_ext_in.
  intros b Hb. apply list_elem_of_In in Hb. rewrite Forall_forall in Hrl.
  change (" "%char :: chars b) with ([" "%char] ++ chars b).
  rewrite (reloadable_arg_strip [" "%char] b eq_refl (Hrl b Hb)).
  apply (reloadable_arg_spec b (Hrl b Hb)).
Qed.

(** ** [contains] *)

Lemma starts_with_app (p a b : list ascii) :
  starts_with p a = true -> starts_with p (a ++ b) = true.
Proof.
  revert a. induction p as [|x p IH]; intros a; [done|].
  destruct a as [|y a]; [done|]. cbn [starts_with app].
  intros [H1 H2]%andb_true_iff. rewrite H1. simpl. auto.
Qed.

Lemma contains_here (p l : list ascii) : starts_with p l = true -> contains p l = true.
Proof. intros H. destruct l; simpl; by rewrite H. Qed.

Lemma contains_app_true (p a b : list ascii) :
  contains p a = true -> contains p (a ++ b) = true.
Proof.
  induction a as [|y a IH]; intros E.
  - simpl in E. rewrite orb_false_r in E.
    destruct p; [|done]. by destruct b.
  - cbn [contains app] in *. apply orb_true_iff in E as [E|E].
    + pose proof (starts_with_app _ _ b E) as E'. cbn [app] in E'. by rewrite E'.
    + rewrite (IH E). by rewrite orb_true_r.
Qed.

Lemma contains_app_l (p a b : list ascii) :
  contains p (a ++ b) = false -> contains p a = false.
Proof.
  intros H. destruct (contains p a) eqn:E; [|done].
  by rewrite (contains_app_true p a b E) in H.
Qed.

Lemma contains_skip (x : ascii) (p a b : list ascii) :
  x ∉ a -> contains (x :: p) (a ++ b) = contains (x :: p) b.
Proof.
  induction a as [|y a IH]; intros H; [done|].
  apply not_elem_of_cons in H as [Hy H]. cbn [app contains starts_with].
  rewrite bool_decide_eq_false_2 by done. simpl. by apply IH.
Qed.

(** ** Printed atoms come back *)

Lemma Fact_repr_shape (f : Fact) :
  reloadable f = true ->
  exists p a l c name,
    f = mkFact p (a :: l) /\ is_identifier p = true
    /\ forallb reloadable_arg (a :: l) = true
    /\ chars p = c :: name /\ is_word c = true
    /\ chars (Fact_repr f)
       = (c :: name) ++ ("("%char :: chars a ++ more_args l) ++ [")"%char]
    /\ (":"%char ∉ chars (Fact_repr f)) /\ ("\"%char ∉ chars (Fact_repr f)).
Proof.
  destruct f as [p [|a l]]; unfold reloadable; cbn [predicate args].
  - by rewrite andb_false_r.
  - intros [Hp Hargs]%andb_true_iff.
    destruct (is_identifier_spec p Hp) as [Hne Hw].
    destruct (chars p) as [|c name] eqn:Ep; [done|].
    assert (Hc : is_word c = true) by (simpl in Hw; by apply andb_true_iff in Hw as [-> _]).
    exists p, a, l, c, name. rewrite chars_Fact_repr, Ep.
    assert (Hno : forall x, x ∈ (c :: name) ++ "("%char :: (chars a ++ more_args l) ++ [")"%char] ->
              x <> ":"%char /\ x <> "\"%char).
    { intros x Hx. apply elem_of_app in Hx as [Hx|Hx].
      - rewrite forallb_forall in Hw. apply list_elem_of_In, Hw in Hx.
        by apply is_word_not_special in Hx as (?&?&?&_).
      - apply elem_of_cons in Hx as [->|Hx]; [done|].
        apply elem_of_app in Hx as [Hx|Hx].
        + by apply (printed_args_chars a l x Hargs) in Hx as (?&?&?&?&?).
        + apply list_elem_of_singleton in Hx as ->. done. }
    repeat split; try done.
    + intros Hx. by apply Hno in Hx as [? _].
    + intros Hx. by apply Hno in Hx as [_ ?].
Qed.

Lemma strip_Fact_repr (f : Fact) (ws tail : list ascii) :
  reloadable f = true -> forallb is_space ws = true ->
  strip (str (ws ++ chars (Fact_repr f) ++ tail))
  = str (chars (Fact_repr f) ++ rstrip_chars is_space tail).
Proof.
  intros Hf Hws. destruct (Fact_repr_shape f Hf) as (p&a&l&c&name&_&_&_&_&Hc&E&_).
  rewrite E. rewrite strip_printed; [|done|by apply is_word_not_space].
  f_equal. rewrite <- !app_assoc. reflexivity.
Qed.

Lemma parse_prolog_fact_printed (f : Fact) :
  reloadable f = true ->
  forall ws tail, forallb is_space ws = true ->
    parse_prolog_fact (str (ws ++ chars (Fact_repr f) ++ tail)) = Some f.
Proof.
  intros Hf ws tail Hws.
  destruct (Fact_repr_shape f Hf) as (p&a&l&c&name&->&Hp&Hargs&_).
  by apply parse_printed.
Qed.

Lemma parse_prolog_fact_repr (f : Fact) :
  reloadable f = true -> parse_prolog_fact (Fact_repr f) = Some f.
Proof.
  intros Hf. pose proof (parse_prolog_fact_printed f Hf [] [] eq_refl) as H.
  cbn [app] in H. by rewrite app_nil_r, str_chars in H.
Qed.

(** X9. A printed atom comes back: for an atom [f] of the reloadable
    kind, hence made of ASCII characters, [parse_prolog_fact] returns
    [f] on the text of [f] behind ASCII white space and before any
    ASCII text at all ([re.match] does not look beyond the closing
    parenthesis), and [parse_prolog_line] does so when the text that
    follows holds no [:-]. *)
Theorem printed_fact_reloads (f : Fact) (ws rest : string) :
  reloadable f = true ->
  forallb is_space (chars ws) = true ->
  ascii_text rest = true ->
  parse_prolog_fact (ws +:+ Fact_repr f +:+ rest) = Some f
  /\ (contains (chars ":-") (chars rest) = false ->
      parse_prolog_line (ws +:+ Fact_repr f +:+ rest) = Some (ParsedFact f)).
Proof.
  intros Hf Hws _. pose proof (parse_prolog_fact_printed f Hf) as Hparse.
  assert (Etext : ws +:+ Fact_repr f +:+ rest
                  = str (chars ws ++ chars (Fact_repr f) ++ chars rest)).
  { apply chars_inj. by rewrite chars_str, !chars_app. }
  rewrite Etext. split; [by apply Hparse|]. intros Hrest.
  unfold parse_prolog_line. rewrite (strip_Fact_repr f _ _ Hf Hws).
  destruct (Fact_repr_shape f Hf) as (p&a&l&c&name&_&_&_&_&Hc&E&Hcolon&_).
  set (tail := rstrip_chars is_space (chars rest)).
  assert (Hne : str (chars (Fact_repr f) ++ tail) <> "").
  { intros H. apply (f_equal chars) in H. rewrite chars_str, E in H. done. }
  rewrite (bool_decide_eq_false_2 _ Hne). rewrite chars_str.
  assert (Hpc : starts_with (chars "%") (chars (Fact_repr f) ++ tail) = false).
  { rewrite E. cbn [chars list_ascii_of_string app starts_with].
    rewrite bool_decide_eq_false_2; [done|].
    intros <-. by apply is_word_not_special in Hc as (?&_). }
  rewrite Hpc. cbn [orb].
  assert (Hrule : contains (chars ":-") (chars (Fact_repr f) ++ tail) = false).
  { change (chars ":-") with [":"%char; "-"%char]. rewrite contains_skip by done.
    destruct (rstrip_chars_prefix is_space (chars rest)) as [r [Hr _]].
    fold tail in Hr. change (chars ":-") with [":"%char; "-"%char] in Hrest.
    rewrite Hr in Hrest. by apply contains_app_l in Hrest. }
  rewrite Hrule. change (chars (Fact_repr f) ++ tail) with ([] ++ chars (Fact_repr f) ++ tail).
  by rewrite Hparse.
Qed.

Lemma printed_fact_reloads_witness :
  parse_prolog_line (" " +:+ Fact_repr (mkFact "friends" ["mordecai"; "?Who"]) +:+ ".")
  = Some (ParsedFact (mkFact "friends" ["mordecai"; "?Who"])).
Proof.
  exact (proj2 (printed_fact_reloads (mkFact "friends" ["mordecai"; "?Who"]) " " "."
                  eq_refl eq_refl eq_refl) eq_refl).
Defined.

(** ** Printed rules come back *)

Lemma split_first_skip (a b : list ascii) :
  ":"%char ∉ a ->
  split_first (chars ":-") (a ++ ":"%char :: "-"%char :: b) = Some (a, b).
Proof.
  change (chars ":-") with [":"%char; "-"%char].
  induction a as [|y a IH]; intros H.
  - cbn [app split_first starts_with]. rewrite !bool_decide_eq_true_2 by done. done.
  - apply not_elem_of_cons in H as [Hy H]. cbn [app split_first starts_with].
    rewrite (bool_decide_eq_false_2 (":"%char = y)) by done. cbn [andb].
    by rewrite (IH H).
Qed.

(** The loop of [split_premises] over characters that are no
    parenthesis, and no comma outside parentheses. *)
Lemma split_premises_loop_plain (a rest : list ascii) (premises : list string)
    (current : list ascii) (depth : Z) :
  (forall x, x ∈ a -> x <> "("%char /\ x <> ")"%char /\ (x = ","%char -> depth <> 0%Z)) ->
  split_premises_loop (a ++ rest) premises current depth
  = split_premises_loop rest premises (current ++ a) depth.
Proof.
  revert current. induction a as [|y a IH]; intros current H.
  - by rewrite app_nil_r.
  - destruct (H y) as (H1&H2&H3); [left|]. cbn [app split_premises_loop].
    rewrite !is_char_ne by done.
    assert (E : is_char "," y && bool_decide (depth = 0%Z) = false).
    { destruct (is_char "," y) eqn:Ey; [|done]. apply is_char_true in Ey.
      by rewrite bool_decide_eq_false_2 by auto. }
    rewrite E, IH by (intros x Hx; apply H; by right).
    by rewrite <- app_assoc.
Qed.

Lemma split_premises_loop_atom (f : Fact) (rest : list ascii) (premises : list string)
    (current : list ascii) :
  reloadable f = true ->
  split_premises_loop (chars (Fact_repr f) ++ rest) premises current 0
  = split_premises_loop rest premises (current ++ chars (Fact_repr f)) 0.
Proof.
  intros Hf. destruct (Fact_repr_shape f Hf) as (p&a&l&c&name&->&Hp&Hargs&Ep&Hc&E&_).
  rewrite E. apply is_identifier_spec in Hp as [_ Hw]. rewrite Ep in Hw.
  rewrite <- !app_assoc. rewrite split_premises_loop_plain.
  - cbn [app split_premises_loop]. rewrite is_char_refl.
    rewrite split_premises_loop_plain.
    + cbn [app split_premises_loop]. rewrite is_char_ne by done. rewrite is_char_refl.
      rewrite <- !app_assoc. reflexivity.
    + intros x Hx. apply (printed_args_chars a l x Hargs) in Hx as (?&?&?&?&?).
      repeat split; try done.
  - intros x Hx. rewrite forallb_forall in Hw. apply list_elem_of_In, Hw in Hx.
    apply is_word_not_special in Hx as (?&?&?&?&?&?). repeat split; done.
Qed.

Lemma strip_Fact_repr_ws (f : Fact) (ws : list ascii) :
  reloadable f = true -> forallb is_space ws = true ->
  strip (str (ws ++ chars (Fact_repr f))) = Fact_repr f.
Proof.
  intros Hf Hws. pose proof (strip_Fact_repr f ws [] Hf Hws) as E.
  rewrite (app_nil_r (chars (Fact_repr f))) in E. rewrite E.
  change (rstrip_chars is_space []) with (@nil ascii). by rewrite app_nil_r, str_chars.
Qed.

Lemma split_premises_loop_atoms (qs : list Fact) :
  forall (q : Fact) (premises : list string) (ws : list ascii),
    forallb is_space ws = true ->
    forallb reloadable (q :: qs) = true ->
    let r := split_premises_loop (chars (Fact_repr q) ++ more_args (map Fact_repr qs))
               premises ws 0 in
    fst r ++ [strip (str (snd r))] = premises ++ map Fact_repr (q :: qs)
    /\ strip (str (snd r)) <> "".
Proof.
  induction qs as [|x qs IH]; intros q premises ws Hws Hall;
    cbn [forallb] in Hall; apply andb_true_iff in Hall as [Hq Hall].
  - cbn [map more_args flat_map]. rewrite split_premises_loop_atom by done.
    cbn [split_premises_loop fst snd].
    rewrite (strip_Fact_repr_ws q ws Hq Hws). split; [done|].
    intros H. apply (f_equal chars) in H.
    destruct (Fact_repr_shape q Hq) as (?&?&?&?&?&_&_&_&_&_&E'&_). by rewrite E' in H.
  - change (more_args (map Fact_repr (x :: qs)))
      with (","%char :: " "%char :: chars (Fact_repr x) ++ more_args (map Fact_repr qs)).
    rewrite split_premises_loop_atom by done.
    cbn [split_premises_loop]. rewrite !is_char_ne by done. rewrite is_char_refl.
    rewrite bool_decide_eq_true_2 by done. cbn [andb].
    rewrite !is_char_ne by done. cbn [andb app].
    rewrite (strip_Fact_repr_ws q ws Hq Hws).
    destruct (IH x (premises ++ [Fact_repr q]) [" "%char] eq_refl Hall) as [H1 H2].
    split; [|exact H2]. rewrite H1. by rewrite <- app_assoc.
Qed.

Lemma split_premises_printed (q : Fact) (qs : list Fact) :
  forallb reloadable (q :: qs) = true ->
  split_premises (str (chars (Fact_repr q) ++ more_args (map Fact_repr qs)))
  = map Fact_repr (q :: qs).
Proof.
  intros Hall. unfold split_premises. rewrite chars_str.
  destruct (split_premises_loop_atoms qs q [] [] eq_refl Hall) as [H1 H2].
  rewrite bool_decide_eq_false_2 by exact H2. exact H1.
Qed.

Ltac norm_app := repeat (progress (rewrite <- ?app_assoc; cbn [app])).

Lemma rstrip_chars_suffix (p : ascii -> bool) (l r : list ascii) :
  forallb p r = true -> rstrip_chars p (l ++ r) = rstrip_chars p l.
Proof.
  intros Hr. unfold rstrip_chars. rewrite rev_app_distr, lstrip_chars_skip; [done|].
  rewrite forallb_forall in *. intros x Hx. apply Hr. by apply in_rev.
Qed.

Lemma rstrip_chars_all (p : ascii -> bool) (l : list ascii) :
  forallb p l = true -> rstrip_chars p l = [].
Proof.
  intros H. pose proof (rstrip_chars_suffix p [] l H) as E. by rewrite app_nil_l in E.
Qed.

(** A text that starts with a character other than white space and
    ends with a closing parenthesis, between white space and before
    periods: what [strip] and [rstrip('.')] leave. *)
Lemma strip_framed (ws mid dots ws2 : list ascii) (c : ascii) :
  forallb is_space ws = true -> is_space c = false ->
  forallb (is_char ".") dots = true -> forallb is_space ws2 = true ->
  strip (str (ws ++ (c :: mid ++ [")"%char]) ++ dots ++ ws2))
  = str ((c :: mid ++ [")"%char]) ++ dots).
Proof.
  intros Hws Hc Hdots Hws2. unfold strip. rewrite chars_str, lstrip_chars_skip by done.
  f_equal. cbn [app lstrip_chars]. rewrite Hc.
  replace (c :: (mid ++ [")"%char]) ++ dots ++ ws2)
    with ((c :: mid) ++ ")"%char :: dots ++ ws2)
    by (simpl; by rewrite <- !app_assoc).
  rewrite rstrip_chars_app by done. rewrite rstrip_chars_suffix by done.
  rewrite rstrip_chars_none.
  - simpl. by rewrite <- !app_assoc.
  - rewrite forallb_forall in *. intros x Hx. apply Hdots, is_char_true in Hx as ->. done.
Qed.

Lemma rstrip_dots_framed (body dots : list ascii) :
  forallb (is_char ".") dots = true ->
  rstrip_dots (str ((body ++ [")"%char]) ++ dots)) = str (body ++ [")"%char]).
Proof.
  intros Hdots. unfold rstrip_dots. rewrite chars_str. f_equal.
  rewrite <- app_assoc. cbn [app]. rewrite rstrip_chars_app by done.
  by rewrite rstrip_chars_all.
Qed.

Lemma contains_none (x : ascii) (p l : list ascii) :
  x ∉ l -> contains (x :: p) l = false.
Proof.
  intros H. pose proof (contains_skip x p l [] H) as E. by rewrite app_nil_r in E.
Qed.

Lemma more_args_printed_chars (qs : list Fact) (x : ascii) :
  forallb reloadable qs = true -> x ∈ more_args (map Fact_repr qs) ->
  x <> ":"%char.
Proof.
  intros Hall Hx. apply elem_of_more_args in Hx as [->|[->|[s [Hs Hx]]]]; [done|done|].
  apply list_elem_of_fmap in Hs as [q [-> Hq]].
  rewrite forallb_forall in Hall. apply list_elem_of_In, Hall in Hq.
  destruct (Fact_repr_shape q Hq) as (?&?&?&?&?&_&_&_&_&_&_&Hcolon&_).
  intros ->. done.
Qed.

Lemma printed_atoms_end (q : Fact) (qs : list Fact) :
  forallb reloadable (q :: qs) = true ->
  exists c mid,
    chars (Fact_repr q) ++ more_args (map Fact_repr qs) = c :: mid ++ [")"%char]
    /\ is_space c = false.
Proof.
  revert q. induction qs as [|x qs IH]; intros q Hall;
    cbn [forallb] in Hall; apply andb_true_iff in Hall as [Hq Hall].
  - destruct (Fact_repr_shape q Hq) as (p&a&l&c&name&_&_&_&_&Hc&E&_).
    exists c, (name ++ "("%char :: chars a ++ more_args l). split.
    + cbn [map more_args flat_map]. rewrite app_nil_r, E. by norm_app.
    + by apply is_word_not_space.
  - destruct (IH x Hall) as (c'&mid'&E'&_).
    destruct (Fact_repr_shape q Hq) as (p&a&l&c&name&_&_&_&_&Hc&E&_).
    change (more_args (map Fact_repr (x :: qs)))
      with (","%char :: " "%char :: chars (Fact_repr x) ++ more_args (map Fact_repr qs)).
    rewrite E', E.
    exists c, (name ++ ("("%char :: chars a ++ more_args l) ++ [")"%char]
               ++ ","%char :: " "%char :: c' :: mid').
    split; [|by apply is_word_not_space].
    by norm_app.
Qed.

Lemma parse_premises_printed (qs : list Fact) :
  forallb reloadable_premise qs = true ->
  parse_premises (map Fact_repr qs) = qs.
Proof.
  induction qs as [|q qs IH]; [done|]. cbn [forallb map parse_premises].
  intros [Hq Hall]%andb_true_iff. unfold reloadable_premise in Hq.
  apply andb_true_iff in Hq as [Hq Hu]. apply negb_true_iff in Hu.
  destruct (Fact_repr_shape q Hq) as (p&a&l&c&name&->&_&_&Ep&_&E&_&Hback).
  assert (Hskip : skipped (Fact_repr (mkFact p (a :: l))) = false).
  { unfold skipped. change (chars "\=") with ["\"%char; "="%char].
    rewrite contains_none by done. rewrite E. cbn [predicate] in Hu. rewrite Ep in Hu.
    exact Hu. }
  rewrite Hskip, (parse_prolog_fact_repr _ Hq). by rewrite (IH Hall).
Qed.

Lemma reloadable_premises_reloadable (qs : list Fact) :
  forallb reloadable_premise qs = true -> forallb reloadable qs = true.
Proof.
  rewrite !forallb_forall. intros H x Hx. apply H in Hx.
  unfold reloadable_premise in Hx. by apply andb_true_iff in Hx as [? _].
Qed.

(** The text of a printed rule with premises. *)
Lemma chars_Rule_repr (c q : Fact) (qs : list Fact) :
  chars (Rule_repr (mkRule c (q :: qs)))
  = chars (Fact_repr c) ++ " "%char :: ":"%char :: "-"%char :: " "%char
    :: chars (Fact_repr q) ++ more_args (map Fact_repr qs).
Proof.
  unfold Rule_repr. cbn [premises conclusion map]. rewrite !chars_app, chars_concat.
  reflexivity.
Qed.

Lemma parse_prolog_rule_printed (r : Rule) (dots : list ascii) :
  reloadable_rule r = true -> forallb (is_char ".") dots = true ->
  parse_prolog_rule (str (chars (Rule_repr r) ++ dots)) = Some r.
Proof.
  destruct r as [c [|q qs]]; unfold reloadable_rule; cbn [conclusion premises];
    [by rewrite andb_false_r|].
  intros [Hc Hqs]%andb_true_iff Hdots.
  pose proof (reloadable_premises_reloadable _ Hqs) as Hqs'.
  destruct (printed_atoms_end q qs Hqs') as (c2&mid2&Ebody&Hc2).
  destruct (Fact_repr_shape c Hc) as (p&a&l&c1&name&_&_&_&_&Hc1&Ec&Hcolon&_).
  assert (Hbody : ":"%char ∉ chars (Fact_repr q) ++ more_args (map Fact_repr qs)).
  { intros [Hx|Hx]%elem_of_app.
    - cbn [forallb] in Hqs'. apply andb_true_iff in Hqs' as [Hq _].
      by destruct (Fact_repr_shape q Hq) as (?&?&?&?&?&_&_&_&_&_&_&?&_).
    - cbn [forallb] in Hqs'. apply andb_true_iff in Hqs' as [_ Hqs'].
      by apply (more_args_printed_chars qs _ Hqs') in Hx. }
  unfold parse_prolog_rule. rewrite chars_Rule_repr, Ebody.
  set (whole := chars (Fact_repr c) ++ " "%char :: ":"%char :: "-"%char :: " "%char
                :: c2 :: mid2 ++ [")"%char]).
  assert (Ew : exists mid, whole = c1 :: mid ++ [")"%char]).
  { exists (name ++ ("("%char :: chars a ++ more_args l) ++ [")"%char]
            ++ " "%char :: ":"%char :: "-"%char :: " "%char :: c2 :: mid2).
    unfold whole. rewrite Ec. by norm_app. }
  destruct Ew as [mid Ew].
  pose proof (strip_framed [] mid dots [] c1 eq_refl (is_word_not_space _ Hc1) Hdots eq_refl)
    as Estrip.
  cbn [app] in Estrip. rewrite app_nil_r in Estrip.
  pose proof (rstrip_dots_framed (c1 :: mid) dots Hdots) as Edots. cbn [app] in Edots.
  rewrite Ew. cbn [app]. rewrite Estrip, Edots. rewrite <- Ew.
  unfold split_rule. rewrite chars_str. unfold whole.
  replace (chars (Fact_repr c) ++ " "%char :: ":"%char :: "-"%char :: " "%char
           :: c2 :: mid2 ++ [")"%char])
    with ((chars (Fact_repr c) ++ [" "%char]) ++ ":"%char :: "-"%char
          :: (" "%char :: c2 :: mid2 ++ [")"%char]))
    by (by norm_app).
  rewrite split_first_skip.
  2:{ intros [Hx|Hx]%elem_of_app; [done|]. by apply list_elem_of_singleton in Hx. }
  change (chars ":-") with [":"%char; "-"%char].
  rewrite contains_none.
  2:{ rewrite <- Ebody. intros [Hx|Hx]%elem_of_cons; [done|]. done. }
  pose proof (strip_Fact_repr c [] [" "%char] Hc eq_refl) as Econ.
  cbn [app] in Econ. rewrite Econ.
  change (rstrip_chars is_space [" "%char]) with (@nil ascii).
  rewrite app_nil_r, str_chars. rewrite (parse_prolog_fact_repr c Hc).
  pose proof (strip_framed [" "%char] mid2 [] [] c2 eq_refl Hc2 eq_refl eq_refl) as Eprem.
  cbn [app] in Eprem. rewrite !app_nil_r in Eprem. rewrite Eprem.
  change (c2 :: mid2 ++ [")"%char]) with (c2 :: mid2 ++ [")"%char]).
  rewrite <- Ebody. rewrite (split_premises_printed q qs Hqs').
  by rewrite (parse_premises_printed (q :: qs) Hqs).
Qed.

Lemma Rule_repr_shape (r : Rule) :
  reloadable_rule r = true ->
  exists c1 mid,
    chars (Rule_repr r) = c1 :: mid ++ [")"%char] /\ is_word c1 = true
    /\ forall tail, contains (chars ":-") (chars (Rule_repr r) ++ tail) = true.
Proof.
  destruct r as [c [|q qs]]; unfold reloadable_rule; cbn [conclusion premises];
    [by rewrite andb_false_r|].
  intros [Hc Hqs]%andb_true_iff.
  pose proof (reloadable_premises_reloadable _ Hqs) as Hqs'.
  destruct (printed_atoms_end q qs Hqs') as (c2&mid2&Ebody&Hc2).
  destruct (Fact_repr_shape c Hc) as (p&a&l&c1&name&_&_&_&_&Hc1&Ec&Hcolon&_).
  exists c1, (name ++ ("("%char :: chars a ++ more_args l) ++ [")"%char]
              ++ " "%char :: ":"%char :: "-"%char :: " "%char :: c2 :: mid2).
  split; [|split; [done|]].
  - rewrite chars_Rule_repr, Ebody, Ec. by norm_app.
  - intros tail. rewrite chars_Rule_repr. change (chars ":-") with [":"%char; "-"%char].
    rewrite <- app_assoc. rewrite contains_skip by done.
    cbn [app].
    match goal with
    | |- contains _ (?y :: ?rest) = true => change (y :: rest) with ([y] ++ rest)
    end.
    rewrite (contains_skip ":" ["-"%char] [" "%char]) by (by intros ?%list_elem_of_singleton).
    apply contains_here. cbn [starts_with]. by rewrite !bool_decide_eq_true_2.
Qed.

(** X10. A printed rule comes back: for a rule whose conclusion and
    premises are reloadable, hence made of ASCII characters, with at
    least one premise and no premise predicate starting with an
    underscore, [parse_prolog_rule] returns the rule on its text, and
    [parse_prolog_line] does so on the text between ASCII white space
    and followed by periods. *)
Theorem printed_rule_reloads (r : Rule) (ws dots ws2 : string) :
  reloadable_rule r = true ->
  forallb is_space (chars ws) = true ->
  forallb (is_char ".") (chars dots) = true ->
  forallb is_space (chars ws2) = true ->
  parse_prolog_rule (Rule_repr r) = Some r
  /\ parse_prolog_line (ws +:+ Rule_repr r +:+ dots +:+ ws2) = Some (ParsedRule r).
Proof.
  intros Hr Hws Hdots Hws2. split.
  - pose proof (parse_prolog_rule_printed r [] Hr eq_refl) as H.
    by rewrite app_nil_r, str_chars in H.
  - assert (Etext : ws +:+ Rule_repr r +:+ dots +:+ ws2
                    = str (chars ws ++ chars (Rule_repr r) ++ chars dots ++ chars ws2)).
    { apply chars_inj. by rewrite chars_str, !chars_app. }
    rewrite Etext. unfold parse_prolog_line.
    destruct (Rule_repr_shape r Hr) as (c1&mid&E&Hc1&Hcontains).
    pose proof (strip_framed (chars ws) mid (chars dots) (chars ws2) c1 Hws
                  (is_word_not_space _ Hc1) Hdots Hws2) as Estrip.
    rewrite <- E in Estrip. rewrite Estrip.
    rewrite bool_decide_eq_false_2.
    2:{ intros H. apply (f_equal chars) in H. by rewrite chars_str, E in H. }
    rewrite chars_str, Hcontains.
    assert (Hpc : starts_with (chars "%") (chars (Rule_repr r) ++ chars dots) = false).
    { rewrite E. cbn [chars list_ascii_of_string app starts_with].
      rewrite bool_decide_eq_false_2; [done|].
      intros <-. by apply is_word_not_special in Hc1 as (?&_). }
    rewrite Hpc. cbn [orb]. by rewrite (parse_prolog_rule_printed r _ Hr Hdots).
Qed.

Lemma printed_rule_reloads_witness :
  parse_prolog_line
    (Rule_repr (mkRule (mkFact "mammal" ["?X"])
                  [mkFact "has_fur" ["?X"]; mkFact "warm_blooded" ["?X"]]) +:+ ".")
  = Some (ParsedRule (mkRule (mkFact "mammal" ["?X"])
                        [mkFact "has_fur" ["?X"]; mkFact "warm_blooded" ["?X"]])).
Proof.
  exact (proj2 (printed_rule_reloads
                  (mkRule (mkFact "mammal" ["?X"])
                     [mkFact "has_fur" ["?X"]; mkFact "warm_blooded" ["?X"]])
                  "" "." "" eq_refl eq_refl eq_refl eq_refl)).
Defined.

(** * Stored documents and knowledge base files *)

(** ** Stored clauses *)

Lemma create_fact_document_prolog (f : Fact) (d : document) :
  create_fact_document f = Some d -> prolog d = Fact_repr f.
Proof.
  unfold create_fact_document. intros H.
  apply bind_Some in H as (descr&_&[= <-]). reflexivity.
Qed.

Lemma clause_repr_shape (c : clause) :
  reloadable_clause c = true ->
  exists c1 mid,
    chars (clause_repr c) = c1 :: mid ++ [")"%char] /\ is_word c1 = true.
Proof.
  destruct c as [f|r]; cbn [reloadable_clause clause_repr]; intros Hc.
  - destruct (Fact_repr_shape f Hc) as (p&a&l&c&name&_&_&_&_&Hcw&E&_).
    exists c, (name ++ "("%char :: chars a ++ more_args l). split; [|done].
    rewrite E. by norm_app.
  - destruct (Rule_repr_shape r Hc) as (c1&mid&E&Hc1&_). eauto.
Qed.

(** [parse_prolog_line] on the text of a clause between white space and
    followed by periods. *)
Lemma parse_prolog_line_printed (c : clause) (ws dots ws2 : list ascii) :
  reloadable_clause c = true ->
  forallb is_space ws = true -> forallb (is_char ".") dots = true ->
  forallb is_space ws2 = true ->
  parse_prolog_line (str (ws ++ chars (clause_repr c) ++ dots ++ ws2)) = Some c.
Proof.
  intros Hc Hws Hdots Hws2.
  destruct (clause_repr_shape c Hc) as (c1&mid&E&Hc1).
  unfold parse_prolog_line.
  pose proof (strip_framed ws mid dots ws2 c1 Hws (is_word_not_space _ Hc1) Hdots Hws2)
    as Es.
  rewrite <- E in Es. rewrite Es. clear Es.
  rewrite bool_decide_eq_false_2.
  2:{ intros H. apply (f_equal chars) in H. by rewrite chars_str, E in H. }
  rewrite chars_str.
  assert (Hpc : starts_with (chars "%") (chars (clause_repr c) ++ dots) = false).
  { rewrite E. cbn [chars list_ascii_of_string app starts_with].
    rewrite bool_decide_eq_false_2; [done|].
    intros <-. by apply is_word_not_special in Hc1 as (?&_). }
  rewrite Hpc. cbn [orb]. clear Hpc E Hc1.
  destruct c as [f|r]; cbn [reloadable_clause clause_repr] in *.
  - destruct (Fact_repr_shape f Hc) as (p&a&l&c&name&_&_&_&_&_&_&Hcolon&_).
    change (chars ":-") with [":"%char; "-"%char]. rewrite contains_skip by done.
    rewrite contains_none.
    2:{ intros Hin. rewrite forallb_forall in Hdots.
        by apply list_elem_of_In, Hdots, is_char_true in Hin. }
    pose proof (parse_prolog_fact_printed f Hc [] dots eq_refl) as Hp.
    cbn [app] in Hp. by rewrite Hp.
  - destruct (Rule_repr_shape r Hc) as (?&?&_&_&Hcontains).
    by rewrite Hcontains, (parse_prolog_rule_printed r dots Hc Hdots).
Qed.

Lemma document_of_prolog (c : clause) (d : document) :
  reloadable_clause c = true -> document_of c = Some d ->
  parse_prolog_line (prolog d) = Some c.
Proof.
  intros Hc Hd.
  assert (E : prolog d = clause_repr c).
  { destruct c as [f|r]; cbn [document_of clause_repr] in *.
    - by apply create_fact_document_prolog.
    - by injection Hd as <-. }
  pose proof (parse_prolog_line_printed c [] [] [] Hc eq_refl eq_refl eq_refl) as Hp.
  cbn [app] in Hp. rewrite app_nil_r, str_chars in Hp. by rewrite E.
Qed.

(** ** Rebuilding a knowledge base from stored documents *)

Lemma build_kb_fold (entries : list clause) (docs : list document) :
  Forall2 (fun c d => reloadable_clause c = true /\ document_of c = Some d) entries docs ->
  forall kb, fold_left build_kb_step docs kb = fold_left add_clause entries kb.
Proof.
  induction 1 as [|c d entries docs [Hc Hd] _ IH]; intros kb; [done|].
  cbn [fold_left]. rewrite IH. f_equal. unfold build_kb_step.
  rewrite (document_of_prolog c d Hc Hd). by destruct c.
Qed.

Lemma add_clause_facts (kb : KnowledgeBase) (c : clause) :
  NoDup (facts kb) ->
  NoDup (facts (add_clause kb c))
  /\ (forall f, f ∈ facts (add_clause kb c) <-> f ∈ facts kb \/ clause_fact c = Some f)
  /\ rules (add_clause kb c) = rules kb ++ option_list (clause_rule c).
Proof.
  intros Hnd. destruct c as [g|r]; cbn [add_clause clause_fact clause_rule option_list].
  - unfold add_fact. destruct (decide (g ∈ facts kb)) as [Hin|Hin].
    + rewrite (bool_decide_eq_true_2 _ Hin). split; [done|]. split; [|by rewrite app_nil_r].
      intros f. split; [auto|]. intros [?|[= <-]]; done.
    + rewrite (bool_decide_eq_false_2 _ Hin). cbn [facts rules]. split; [|split].
      * apply NoDup_app. split; [done|]. split; [|apply NoDup_singleton].
        intros x Hx ->%list_elem_of_singleton. done.
      * intros f. rewrite elem_of_app, list_elem_of_singleton. split.
        -- intros [?| ->]; auto.
        -- intros [?|[= <-]]; auto.
      * by rewrite app_nil_r.
  - cbn [facts rules]. split; [done|]. split; [|done].
    intros f. split; [auto|]. intros [?|?]; done.
Qed.

Lemma fold_add_clause (entries : list clause) :
  forall kb, NoDup (facts kb) ->
    let kb' := fold_left add_clause entries kb in
    NoDup (facts kb')
    /\ (forall f, f ∈ facts kb' <-> f ∈ facts kb \/ ParsedFact f ∈ entries)
    /\ rules kb' = rules kb ++ omap clause_rule entries.
Proof.
  induction entries as [|c entries IH]; intros kb Hnd; cbn [fold_left omap].
  - split; [done|]. split; [|by rewrite app_nil_r].
    intros f. split; [auto|]. intros [?|H]; [done|]. by apply elem_of_nil in H.
  - destruct (add_clause_facts kb c Hnd) as (H1&H2&H3).
    destruct (IH (add_clause kb c) H1) as (H4&H5&H6).
    split; [exact H4|]. split.
    + intros f. rewrite H5, H2, elem_of_cons. split.
      * intros [[?|Hc]|?]; [auto| |auto]. right. left. destruct c; by simplify_eq/=.
      * intros [?|[<-|?]]; [auto| |auto]. left. by right.
    + rewrite H6, H3. rewrite <- app_assoc. f_equal. by destruct c.
Qed.

Lemma build_kb_from_retrieved_spec (entries : list clause) (docs : list document) :
  forallb reloadable_clause entries = true ->
  mapM document_of entries = Some docs ->
  NoDup (facts (build_kb_from_retrieved docs))
  /\ (forall f, f ∈ facts (build_kb_from_retrieved docs) <-> ParsedFact f ∈ entries)
  /\ rules (build_kb_from_retrieved docs) = omap clause_rule entries.
Proof.
  intros Hall Hdocs. apply mapM_Some in Hdocs.
  assert (H2 : Forall2 (fun c d => reloadable_clause c = true /\ document_of c = Some d)
                 entries docs).
  { rewrite forallb_forall in Hall. clear -Hall Hdocs.
    induction Hdocs as [|c d entries docs Hd _ IH]; constructor.
    - split; [|done]. apply Hall. by left.
    - apply IH. intros x Hx. apply Hall. by right. }
  unfold build_kb_from_retrieved. rewrite (build_kb_fold entries docs H2).
  destruct (fold_add_clause entries empty_kb (NoDup_nil_2 (A:=Fact))) as (H3&H4&H5).
  split; [exact H3|]. split; [|exact H5].
  intros f. rewrite H4. split; [|auto]. intros [H|?]; [|done]. by apply elem_of_nil in H.
Qed.

(** X11. Storing clauses and rebuilding the knowledge base: when
    reloadable clauses (made of ASCII characters) are stored as the
    documents that
    [create_fact_document] and [create_rule_document] build, then
    [build_kb_from_retrieved] on these documents, in whatever order
    and number they are retrieved, returns a knowledge base whose
    facts are those of the clauses, each once, and whose rules are
    those of the clauses, in the order of the documents. *)
Theorem stored_clauses_rebuild (entries : list clause) (docs : list document) :
  forallb reloadable_clause entries = true ->
  mapM document_of entries = Some docs ->
  NoDup (facts (build_kb_from_retrieved docs))
  /\ (forall f, f ∈ facts (build_kb_from_retrieved docs) <-> ParsedFact f ∈ entries)
  /\ rules (build_kb_from_retrieved docs) = omap clause_rule entries.
Proof. apply build_kb_from_retrieved_spec. Qed.

Lemma stored_clauses_rebuild_witness :
  rules (build_kb_from_retrieved
           [create_rule_document (mkRule (mkFact "in_charge_of" ["?X"; "?Y"])
                                    [mkFact "reports_to" ["?Y"; "?X"]])])
  = [mkRule (mkFact "in_charge_of" ["?X"; "?Y"]) [mkFact "reports_to" ["?Y"; "?X"]]].
Proof.
  exact (proj2 (proj2 (stored_clauses_rebuild
           [ParsedRule (mkRule (mkFact "in_charge_of" ["?X"; "?Y"])
                          [mkFact "reports_to" ["?Y"; "?X"]])]
           _ eq_refl eq_refl))).
Defined.

(** ** What the store does not give back *)

Lemma Fact_repr_no_args (p : string) : Fact_repr (mkFact p []) = p.
Proof. reflexivity. Qed.

Lemma is_identifier_no_paren (p : string) :
  is_identifier p = true -> "("%char ∉ chars p.
Proof.
  intros [_ Hw]%is_identifier_spec Hin. rewrite forallb_forall in Hw.
  by apply list_elem_of_In, Hw, is_word_not_special in Hin as (_&_&_&?&_).
Qed.

Lemma parse_prolog_line_identifier (p : string) :
  is_identifier p = true -> parse_prolog_line p = None.
Proof.
  intros Hp. unfold parse_prolog_line.
  assert (Hn : parse_prolog_fact (strip p) = None).
  { apply parse_prolog_fact_needs_paren. intros Hin%strip_subset.
    by apply (is_identifier_no_paren p Hp). }
  assert (Hr : parse_prolog_rule (strip p) = None).
  { unfold parse_prolog_rule.
    assert (E : split_rule (rstrip_dots (strip (strip p))) = None); [|by rewrite E].
    unfold split_rule.
    destruct (split_first (chars ":-") (chars (rstrip_dots (strip (strip p)))))
      as [[before after]|] eqn:E; [|done].
    exfalso. apply is_identifier_spec in Hp as [_ Hw]. rewrite forallb_forall in Hw.
    assert (Hcolon : ":"%char ∈ chars (rstrip_dots (strip (strip p)))).
    { clear -E. revert before E.
      induction (chars (rstrip_dots (strip (strip p)))) as [|y l IH]; intros before.
      - simpl. discriminate.
      - cbn [split_first]. destruct (starts_with (chars ":-") (y :: l)) eqn:Es.
        + cbn [chars list_ascii_of_string starts_with] in Es.
          apply andb_true_iff in Es as [Es _]. apply bool_decide_eq_true in Es as <-.
          intros _. left.
        + destruct (split_first (chars ":-") l) as [[b a]|]; [|done].
          intros [= <- <-]. right. by apply (IH b). }
    apply rstrip_dots_subset, strip_subset, strip_subset, list_elem_of_In, Hw in Hcolon.
    by apply is_word_not_special in Hcolon as (_&?&_). }
  rewrite Hn, Hr. by repeat case_match.
Qed.

(** X12. What the store does not give back. An atom without arguments
    is what [parse_prolog_fact] returns on [p()], for [p] a run of
    ASCII word characters, yet its document is dropped by
    [build_kb_from_retrieved]: it prints as the bare predicate, which
    does not parse. A rule without premises, with a reloadable
    conclusion (made of ASCII characters), prints as its conclusion, so
    its document comes back as a fact. *)
Theorem stored_clauses_not_rebuilt (kb : KnowledgeBase) (p : string) (c : Fact)
    (d : document) :
  is_identifier p = true ->
  reloadable c = true ->
  create_fact_document (mkFact p []) = Some d ->
  parse_prolog_fact (p +:+ "()") = Some (mkFact p [])
  /\ build_kb_step kb d = kb
  /\ build_kb_step kb (create_rule_document (mkRule c [])) = add_fact kb c.
Proof.
  intros Hp Hc Hd. split; [|split].
  - destruct (is_identifier_spec p Hp) as [Hne Hw].
    destruct (chars p) as [|c1 name] eqn:Ep; [done|].
    assert (Hc1 : is_word c1 = true) by (simpl in Hw; by apply andb_true_iff in Hw as [-> _]).
    assert (Et : p +:+ "()" = str ((c1 :: (name ++ ["("%char]) ++ [")"%char]))).
    { apply chars_inj. rewrite chars_str, chars_app, Ep. by norm_app. }
    unfold parse_prolog_fact. rewrite Et.
    pose proof (strip_framed [] (name ++ ["("%char]) [] [] c1 eq_refl
                  (is_word_not_space _ Hc1) eq_refl eq_refl) as Es.
    cbn [app] in Es. rewrite !app_nil_r in Es. rewrite Es.
    pose proof (rstrip_dots_framed (c1 :: name ++ ["("%char]) [] eq_refl) as Ed.
    cbn [app] in Ed. rewrite !app_nil_r in Ed. rewrite Ed.
    unfold match_atom. rewrite chars_str.
    replace (c1 :: (name ++ ["("%char]) ++ [")"%char])
      with ((c1 :: name) ++ "("%char :: [")"%char]) by (by norm_app).
    rewrite (span_app is_word (c1 :: name) _ "("%char Hw eq_refl).
    rewrite is_char_refl. cbn [until_close]. rewrite is_char_refl.
    change (str []) with "". rewrite bool_decide_eq_true_2 by done.
    by rewrite <- Ep, str_chars.
  - unfold build_kb_step. rewrite (create_fact_document_prolog _ d Hd).
    rewrite Fact_repr_no_args. by rewrite (parse_prolog_line_identifier p Hp).
  - unfold build_kb_step. cbn [create_rule_document prolog].
    change (Rule_repr (mkRule c [])) with (clause_repr (ParsedFact c)).
    pose proof (parse_prolog_line_printed (ParsedFact c) [] [] [] Hc eq_refl eq_refl eq_refl)
      as Hl.
    cbn [app] in Hl. rewrite app_nil_r, str_chars in Hl. by rewrite Hl.
Qed.

Lemma stored_clauses_not_rebuilt_witness :
  build_kb_step empty_kb (create_rule_document (mkRule (mkFact "happy" ["?X"]) []))
  = add_fact empty_kb (mkFact "happy" ["?X"]).
Proof.
  exact (proj2 (proj2 (stored_clauses_not_rebuilt empty_kb "raining" (mkFact "happy" ["?X"])
                         _ eq_refl eq_refl eq_refl))).
Defined.

(** ** Reading a file of clauses *)

Lemma ends_with_dot_last (l : list ascii) (c : ascii) :
  ends_with_dot (str (l ++ [c])) = is_char "." c.
Proof. unfold ends_with_dot. by rewrite chars_str, rev_app_distr. Qed.

Lemma file_step_clause (c : clause) (fs : list Fact) (rs : list Rule) :
  reloadable_clause c = true ->
  file_step (fs, rs, "") (clause_line c)
  = (fs ++ option_list (clause_fact c), rs ++ option_list (clause_rule c), "").
Proof.
  intros Hc. destruct (clause_repr_shape c Hc) as (c1&mid&E&Hc1).
  pose proof (is_word_not_space _ Hc1) as Hs.
  assert (El : clause_line c
               = str ([] ++ (c1 :: mid ++ [")"%char]) ++ ["."%char] ++ ["010"%char])).
  { apply chars_inj. unfold clause_line. rewrite chars_str, !chars_app, E. reflexivity. }
  unfold file_step. rewrite El.
  rewrite (strip_framed [] mid ["."%char] ["010"%char] c1 eq_refl Hs eq_refl eq_refl).
  rewrite bool_decide_eq_false_2.
  2:{ intros H. apply (f_equal chars) in H. by rewrite chars_str in H. }
  rewrite chars_str. cbn [app chars list_ascii_of_string starts_with].
  rewrite bool_decide_eq_false_2.
  2:{ intros <-. by apply is_word_not_special in Hc1 as (?&_). }
  cbn [andb orb].
  assert (Ec : "" +:+ " " +:+ str (c1 :: (mid ++ [")"%char]) ++ ["."%char])
               = str ([" "%char] ++ chars (clause_repr c) ++ ["."%char] ++ [])).
  { apply chars_inj. rewrite !chars_app, !chars_str, E. by norm_app. }
  rewrite Ec.
  pose proof (strip_framed [" "%char] mid ["."%char] [] c1 eq_refl Hs eq_refl eq_refl)
    as Es.
  rewrite <- E in Es. rewrite Es, ends_with_dot_last, is_char_refl.
  rewrite (parse_prolog_line_printed c [" "%char] ["."%char] [] Hc eq_refl eq_refl eq_refl).
  destruct c; cbn [clause_fact clause_rule option_list]; by rewrite app_nil_r.
Qed.

Lemma fold_file_step_clauses (entries : list clause) :
  forallb reloadable_clause entries = true ->
  forall fs rs,
    fold_left file_step (map clause_line entries) (fs, rs, "")
    = (fs ++ omap clause_fact entries, rs ++ omap clause_rule entries, "").
Proof.
  induction entries as [|c entries IH]; intros Hall fs rs.
  - cbn [map fold_left omap]. by rewrite !app_nil_r.
  - cbn [forallb] in Hall. apply andb_true_iff in Hall as [Hc Hall].
    cbn [map fold_left]. rewrite (file_step_clause c fs rs Hc), (IH Hall).
    rewrite <- !app_assoc. by destruct c.
Qed.

(** X13. A file with one reloadable clause (made of ASCII characters)
    on each line, printed as by [__repr__] and followed by a period,
    is read back by
    [parse_prolog_file] as the facts and the rules of these clauses, in
    their order. *)
Theorem file_of_clauses_parses (entries : list clause) :
  forallb reloadable_clause entries = true ->
  parse_prolog_file (map clause_line entries)
  = (omap clause_fact entries, omap clause_rule entries).
Proof.
  intros Hall. unfold parse_prolog_file.
  by rewrite (fold_file_step_clauses entries Hall [] []).
Qed.

Lemma file_of_clauses_parses_witness :
  parse_prolog_file
    (map clause_line
       [ParsedFact (mkFact "reports_to" ["rigby"; "benson"]);
        ParsedRule (mkRule (mkFact "in_charge_of" ["?X"; "?Y"])
                      [mkFact "reports_to" ["?Y"; "?X"]])])
  = ([mkFact "reports_to" ["rigby"; "benson"]],
     [mkRule (mkFact "in_charge_of" ["?X"; "?Y"]) [mkFact "reports_to" ["?Y"; "?X"]]]).
Proof.
  exact (file_of_clauses_parses
           [ParsedFact (mkFact "reports_to" ["rigby"; "benson"]);
            ParsedRule (mkRule (mkFact "in_charge_of" ["?X"; "?Y"])
                          [mkFact "reports_to" ["?Y"; "?X"]])] eq_refl).
Defined.

(** ** One clause at most for each line that ends a statement *)

Lemma lstrip_chars_head (p : ascii -> bool) (l : list ascii) :
  lstrip_chars p l = [] \/ exists c t, lstrip_chars p l = c :: t /\ p c = false.
Proof.
  induction l as [|x l IH]; [by left|]. simpl. destruct (p x) eqn:Hx; [exact IH|].
  right. eauto.
Qed.

Lemma strip_last (s : string) :
  strip s <> "" ->
  exists body c, chars (strip s) = body ++ [c] /\ is_space c = false.
Proof.
  unfold strip. rewrite chars_str. unfold rstrip_chars.
  set (m := rev (lstrip_chars is_space (chars s))).
  destruct (lstrip_chars_head is_space m) as [E|(c&t&E&Hc)]; rewrite E.
  - intros H. by destruct H.
  - intros _. exists (rev t), c. by split.
Qed.

Lemma ends_with_dot_statement (current line : string) :
  strip line <> "" ->
  ends_with_dot (strip (current +:+ " " +:+ strip line)) = ends_with_dot (strip line).
Proof.
  intros Hne. destruct (strip_last line Hne) as (body&c&E&Hc).
  assert (E1 : strip line = str (body ++ [c])) by (apply chars_inj; by rewrite chars_str).
  rewrite E1 at 2. rewrite ends_with_dot_last.
  unfold strip at 1. rewrite !chars_app, E.
  replace (chars current ++ chars " " ++ body ++ [c])
    with ((chars current ++ chars " " ++ body) ++ c :: []) by (by rewrite <- !app_assoc).
  rewrite lstrip_chars_app by done. rewrite rstrip_chars_app by done.
  change (rstrip_chars is_space []) with (@nil ascii). by rewrite ends_with_dot_last.
Qed.

Lemma file_step_count (acc : list Fact * list Rule * string) (line : string) :
  clauses_read (file_step acc line)
  <= clauses_read acc + (if closes_statement line then 1 else 0).
Proof.
  destruct acc as [[fs rs] cur]. unfold file_step, closes_statement.
  destruct (decide (strip line = "")) as [He|He].
  - rewrite (bool_decide_eq_true_2 _ He). cbn [orb]. lia.
  - rewrite (bool_decide_eq_false_2 _ He). cbn [orb].
    destruct (starts_with (chars "%") (chars (strip line))); [lia|]. cbn [negb andb].
    rewrite (ends_with_dot_statement cur line He).
    destruct (ends_with_dot (strip line)); [|unfold clauses_read; cbn [fst snd]; lia].
    destruct (parse_prolog_line (cur +:+ " " +:+ strip line)) as [[f|r]|];
      unfold clauses_read; cbn [fst snd]; rewrite ?length_app; simpl; lia.
Qed.

(** X14. On a file of ASCII lines [parse_prolog_file] returns at most
    one clause for each line that ends a statement (a line that is no
    comment and whose last character, white space apart, is a period):
    nothing is returned for a file without such a line, and further
    statements on a line are lost. *)
Theorem parse_prolog_file_bounded (lines : list string) :
  forallb ascii_text lines = true ->
  length (fst (parse_prolog_file lines)) + length (snd (parse_prolog_file lines))
  <= length (filter (fun line => closes_statement line = true) lines).
Proof.
  intros _. unfold parse_prolog_file.
  assert (H : forall acc,
            clauses_read (fold_left file_step lines acc)
            <= clauses_read acc
               + length (filter (fun line => closes_statement line = true) lines)).
  { induction lines as [|l lines IH]; intros acc; cbn [fold_left]; [simpl; lia|].
    specialize (IH (file_step acc l)). pose proof (file_step_count acc l) as Hs.
    rewrite filter_cons. destruct (closes_statement l) eqn:E.
    - destruct (decide (true = true)); [|done]. simpl. lia.
    - destruct (decide (false = true)); [done|]. lia. }
  specialize (H ([], [], "")). unfold clauses_read in H. simpl in H. exact H.
Qed.

(** Two statements on the one line of a file: one clause is returned. *)
Lemma parse_prolog_file_bounded_witness :
  length (fst (parse_prolog_file ["p(a). q(b)." +:+ String "010"%char ""]))
  + length (snd (parse_prolog_file ["p(a). q(b)." +:+ String "010"%char ""]))
  <= 1.
Proof.
  exact (parse_prolog_file_bounded ["p(a). q(b)." +:+ String "010"%char ""] eq_refl).
Defined.

(** ** Converting arguments *)

Lemma is_var_question (s : string) : is_var ("?" +:+ s) = true.
Proof. reflexivity. Qed.

(** X15. The two conversions of an argument, the one inside
    [parse_prolog_fact] and [convert_to_python_variable], change
    nothing when applied a second time; for an ASCII argument the
    result is a variable of the prover exactly when the argument
    starts with [?] or with an upper case letter, or, for the first
    one, is [_]. *)
Theorem argument_conversion_idempotent (a : string) :
  ascii_text a = true ->
  convert_arg (convert_arg a) = convert_arg a
  /\ convert_to_python_variable (convert_to_python_variable a)
     = convert_to_python_variable a
  /\ is_var (convert_to_python_variable a)
     = is_var a || match a with String c _ => is_upper c | EmptyString => false end
  /\ is_var (convert_arg a)
     = is_var (convert_to_python_variable a) || bool_decide (a = "_").
Proof.
  intros _.
  assert (Hq : forall s, convert_to_python_variable ("?" +:+ s) = "?" +:+ s) by done.
  assert (Hq' : forall s, convert_arg ("?" +:+ s) = "?" +:+ s).
  { intros s. unfold convert_arg. rewrite bool_decide_eq_false_2; [done|].
    destruct s; discriminate. }
  destruct a as [|c s].
  - by vm_compute.
  - unfold convert_arg at 2 3 4. unfold convert_to_python_variable at 2 3 4 5.
    destruct (decide (String c s = "_")) as [E|E].
    + rewrite !(bool_decide_eq_true_2 _ E). injection E as -> ->. by vm_compute.
    + rewrite !(bool_decide_eq_false_2 _ E). destruct (is_upper c) eqn:Hu.
      * rewrite Hq, Hq', !is_var_question. by rewrite !orb_true_r.
      * rewrite !orb_false_r. repeat split.
        -- unfold convert_arg. by rewrite (bool_decide_eq_false_2 _ E), Hu.
        -- unfold convert_to_python_variable. by rewrite Hu.
Qed.

(** The argument [Who] becomes the variable [?Who], once. *)
Lemma argument_conversion_idempotent_witness :
  convert_arg (convert_arg "Who") = convert_arg "Who"
  /\ is_var (convert_arg "Who") = true.
Proof.
  destruct (argument_conversion_idempotent "Who" eq_refl) as (H1&_&_&H4).
  split; [exact H1|exact H4].
Defined.


(** * Answers *)

(** ** Matching a query against ground atoms *)

Lemma answer_empty : answer ∅.
Proof. intros k v H. by rewrite lookup_empty in H. Qed.

Lemma answer_unbound (b : bindings) (v : string) :
  answer b -> is_var v = false -> b !! v = None.
Proof.
  intros Hb Hv. destruct (b !! v) as [w|] eqn:E; [|done].
  apply Hb in E as [E _]. congruence.
Qed.

Lemma answer_insert (b : bindings) (x y : string) :
  answer b -> is_var x = true -> is_var y = false -> answer (<[x := y]> b).
Proof.
  intros Hb Hx Hy k v Hl. apply lookup_insert_Some in Hl as [[<- <-]|[_ Hl]]; eauto.
Qed.

Lemma resolve_binding_answer (b : bindings) (x : string) :
  answer b -> _resolve_binding x b = default x (b !! x).
Proof.
  intros Hb. unfold _resolve_binding.
  replace (size b + 2) with (S (S (size b))) by lia. cbn [resolve_walk].
  destruct (b !! x) as [v|] eqn:E; [|done].
  destruct (Hb x v E) as [Hx Hv].
  rewrite bool_decide_eq_false_2 by (intros ->; congruence).
  rewrite bool_decide_eq_false_2.
  2:{ intros ->%elem_of_singleton. congruence. }
  cbn [orb]. by rewrite (answer_unbound b v Hb Hv).
Qed.

Lemma substitute_arg_answer (b : bindings) (x : string) :
  answer b -> substitute_arg b x = default x (b !! x).
Proof.
  intros Hb. unfold substitute_arg.
  replace (2 * size b + 2) with (S (S (2 * size b))) by lia. cbn [substitute_walk].
  destruct (b !! x) as [v|] eqn:E; [|done].
  destruct (Hb x v E) as [Hx Hv].
  rewrite (bool_decide_eq_true_2 (x = x)) by done. rewrite andb_false_r.
  rewrite bool_decide_eq_false_2 by (intros ->; congruence).
  by rewrite (answer_unbound b v Hb Hv).
Qed.

(** One step of [Fact.match] against a constant, in an answer. *)
Lemma match_arg_answer (x y : string) (b : bindings) :
  answer b -> is_var y = false ->
  match_arg x y b
  = if is_var x then
      match b !! x with
      | None => Some (<[x := y]> b)
      | Some v => if bool_decide (v = y) then Some b else None
      end
    else if bool_decide (x = y) then Some b else None.
Proof.
  intros Hb Hy. unfold match_arg. rewrite Hy.
  destruct (is_var x) eqn:Hx.
  - rewrite (resolve_binding_answer b x Hb).
    destruct (b !! x) as [v|] eqn:E; cbn [default from_option id].
    + destruct (Hb x v E) as [_ Hv]. rewrite Hv, Hy. cbn [andb].
      destruct (decide (v = y)) as [->|Hne].
      * rewrite bool_decide_eq_false_2 by (intros H; by apply H).
        by rewrite bool_decide_eq_true_2.
      * rewrite bool_decide_eq_true_2 by done. by rewrite bool_decide_eq_false_2.
    + by rewrite Hx, Hy.
  - rewrite Hx, Hy. cbn [andb]. destruct (decide (x = y)) as [->|Hne].
    + rewrite bool_decide_eq_false_2 by (intros H; by apply H).
      by rewrite bool_decide_eq_true_2.
    + rewrite bool_decide_eq_true_2 by done. by rewrite bool_decide_eq_false_2.
Qed.

Lemma match_args_answer (xs : list string) :
  forall ys b b',
    length xs = length ys -> answer b -> Forall (fun y => is_var y = false) ys ->
    match_args (zip xs ys) b = Some b' ->
    answer b' /\ b ⊆ b'
    /\ (forall k, is_Some (b' !! k) -> is_Some (b !! k) \/ k ∈ xs)
    /\ Forall2 (fun x y => default x (b' !! x) = y) xs ys.
Proof.
  induction xs as [|x xs IH]; intros [|y ys] b b' Hlen Hb Hys H;
    try discriminate Hlen.
  - cbn in H. injection H as <-.
    split; [done|]. split; [done|]. split; [auto|constructor].
  - injection Hlen as Hlen. apply Forall_cons in Hys as [Hy Hys].
    cbn [zip zip_with match_args] in H.
    rewrite (match_arg_answer x y b Hb Hy) in H.
    assert (Hstep : exists b1, match_args (zip xs ys) b1 = Some b' /\ answer b1
                      /\ b ⊆ b1 /\ default x (b1 !! x) = y
                      /\ (forall k, is_Some (b1 !! k) -> is_Some (b !! k) \/ k = x)).
    { destruct (is_var x) eqn:Hx.
      - destruct (b !! x) as [v|] eqn:E.
        + destruct (decide (v = y)) as [->|Hne].
          * rewrite bool_decide_eq_true_2 in H by done. exists b.
            split; [done|]. split; [done|]. split; [done|].
            split; [by rewrite E|auto].
          * by rewrite bool_decide_eq_false_2 in H.
        + exists (<[x := y]> b). split; [done|]. split; [by apply answer_insert|].
          split; [by apply insert_subseteq|]. split; [by rewrite lookup_insert_eq|].
          intros k Hk. destruct (decide (k = x)) as [->|Hne]; [by right|].
          left. by rewrite lookup_insert_ne in Hk.
      - destruct (decide (x = y)) as [->|Hne].
        + rewrite bool_decide_eq_true_2 in H by done. exists b.
          split; [done|]. split; [done|]. split; [done|].
          split; [by rewrite (answer_unbound b y Hb Hy)|auto].
        + by rewrite bool_decide_eq_false_2 in H. }
    destruct Hstep as (b1&H1&Hb1&Hsub&Hx&Hdom).
    destruct (IH ys b1 b' Hlen Hb1 Hys H1) as (Hb'&Hsub'&Hdom'&Hall).
    split; [done|]. split; [by etrans|]. split.
    + intros k Hk. apply Hdom' in Hk as [Hk|Hk]; [|right; by right].
      apply Hdom in Hk as [Hk| ->]; [by left|right; left].
    + constructor; [|done].
      destruct (b1 !! x) as [v|] eqn:E.
      * by rewrite (lookup_weaken _ _ _ _ E Hsub').
      * cbn in Hx. subst y. by rewrite (answer_unbound b' x Hb' Hy).
Qed.

Lemma match_args_complete (xs : list string) :
  forall ys b sigma,
    answer sigma -> b ⊆ sigma -> Forall (fun y => is_var y = false) ys ->
    Forall2 (fun x y => default x (sigma !! x) = y) xs ys ->
    exists b', match_args (zip xs ys) b = Some b' /\ b' ⊆ sigma.
Proof.
  induction xs as [|x xs IH]; intros ys b sigma Hs Hsub Hys Hall.
  - apply Forall2_nil_inv_l in Hall as ->. by exists b.
  - apply Forall2_cons_inv_l in Hall as (y&ys'&Hx&Hall&->).
    apply Forall_cons in Hys as [Hy Hys].
    assert (Hb : answer b).
    { intros k v Hk. apply Hs. by apply (lookup_weaken _ _ _ _ Hk Hsub). }
    cbn [zip zip_with match_args]. rewrite (match_arg_answer x y b Hb Hy).
    destruct (is_var x) eqn:Hvx.
    + destruct (sigma !! x) as [w|] eqn:Es; cbn [default from_option id] in Hx;
        [subst w|congruence].
      destruct (b !! x) as [v|] eqn:E.
      * pose proof (lookup_weaken _ _ _ _ E Hsub) as E'. rewrite Es in E'.
        injection E' as <-. rewrite bool_decide_eq_true_2 by done. by apply IH.
      * apply IH; [done| |done|done]. by apply insert_subseteq_l.
    + rewrite (answer_unbound sigma x Hs Hvx) in Hx. cbn in Hx. subst y.
      rewrite bool_decide_eq_true_2 by done. by apply IH.
Qed.

Lemma Fact_match_answers (goal f : Fact) (b : bindings) :
  is_ground f = true -> Fact_match goal f ∅ = Some b ->
  answer b /\ substitute goal b = f /\ (forall k, is_Some (b !! k) -> k ∈ args goal).
Proof.
  intros Hf. unfold Fact_match.
  destruct (decide (predicate goal = predicate f)) as [Hp|Hp];
    [|by rewrite bool_decide_eq_true_2].
  rewrite (bool_decide_eq_false_2 _ (fun H => H Hp)).
  destruct (decide (length (args goal) = length (args f))) as [Hl|Hl];
    [|by rewrite bool_decide_eq_true_2].
  rewrite (bool_decide_eq_false_2 _ (fun H => H Hl)). intros H.
  destruct (match_args_answer (args goal) (args f) ∅ b Hl answer_empty
              (is_ground_Forall f Hf) H) as (Hb&_&Hdom&Hall).
  split; [done|]. split.
  - destruct goal as [p xs], f as [q ys]. cbn [predicate args] in *. subst q.
    unfold substitute. cbn [predicate args]. f_equal.
    clear -Hall Hb. induction Hall as [|x y xs ys Hx _ IH]; [done|].
    cbn [map]. by rewrite (substitute_arg_answer b x Hb), Hx, IH.
  - intros k Hk. apply Hdom in Hk as [Hk|Hk]; [|done].
    rewrite lookup_empty in Hk. by destruct Hk.
Qed.

Lemma Fact_match_complete (goal f : Fact) (sigma : bindings) :
  is_ground f = true -> answer sigma -> substitute goal sigma = f ->
  exists b, Fact_match goal f ∅ = Some b /\ b ⊆ sigma.
Proof.
  intros Hf Hs <-. unfold Fact_match, substitute. cbn [predicate args].
  rewrite bool_decide_eq_false_2 by (intros H; by apply H).
  rewrite length_map, bool_decide_eq_false_2 by (intros H; by apply H).
  apply match_args_complete; [done|apply map_empty_subseteq| |].
  - exact (is_ground_Forall _ Hf).
  - clear Hf. induction (args goal) as [|x xs IH]; [constructor|].
    cbn [map]. constructor; [|exact IH]. by rewrite (substitute_arg_answer sigma x Hs).
Qed.

(** X16. [Fact.match] of a query against a ground atom, from the empty
    environment, computes the most general answer: when it succeeds
    the environment binds variables of the query to constants and
    substituting it in the query gives the atom; and whenever some
    answer makes the query equal to the atom, it succeeds with a part
    of that answer. *)
Theorem match_against_ground_atom (goal f : Fact) :
  is_ground f = true ->
  (forall b, Fact_match goal f ∅ = Some b ->
     answer b /\ substitute goal b = f /\ forall k, is_Some (b !! k) -> k ∈ args goal)
  /\ (forall sigma, answer sigma -> substitute goal sigma = f ->
        exists b, Fact_match goal f ∅ = Some b /\ b ⊆ sigma).
Proof.
  intros Hf. split.
  - intros b. by apply Fact_match_answers.
  - intros sigma. by apply Fact_match_complete.
Qed.

Lemma match_against_ground_atom_witness :
  exists b, Fact_match (mkFact "friends" ["mordecai"; "?Who"])
              (mkFact "friends" ["mordecai"; "rigby"]) ∅ = Some b
            /\ b ⊆ {["?Who" := "rigby"]}.
Proof.
  refine (proj2 (match_against_ground_atom (mkFact "friends" ["mordecai"; "?Who"])
                   (mkFact "friends" ["mordecai"; "rigby"]) eq_refl)
            {["?Who" := "rigby"]} _ _).
  - intros k v Hl. apply lookup_singleton_Some in Hl as [<- <-]. by split.
  - by vm_compute.
Defined.

(** ** Queries to a base of ground facts *)

Lemma facts_loop_results (goal : Fact) (b : bindings) (fs : list Fact) :
  forall acc,
    fst (fold_left (fact_step goal b) fs acc)
    = fst acc ++ omap (fun f => Fact_match goal f b) fs.
Proof.
  induction fs as [|f fs IH]; intros acc; cbn [fold_left].
  - simpl. by rewrite app_nil_r.
  - rewrite IH. unfold fact_step. simpl.
    destruct (Fact_match goal f b) as [b'|]; simpl; [|done].
    by rewrite <- app_assoc.
Qed.

Lemma prove_with_bindings_facts (c : BackwardChainer) (goal : Fact) :
  reachable c -> 0 < max_depth c -> rules (kb c) = [] ->
  fst (prove_with_bindings c goal) = omap (fun f => Fact_match goal f ∅) (facts (kb c)).
Proof.
  intros Hr Hmd Hrules. destruct (reachable_inv c Hr) as (Hc&Ht&_).
  unfold prove_with_bindings, backchain_to_goal.
  cbn [fst snd state at_entry kb max_depth trace_depth clear_proved].
  rewrite Ht, Nat.sub_0_r. destruct (max_depth c) as [|n]; [lia|].
  cbn [backchain]. rewrite substitute_empty.
  set (st1 := enter (_trace_print (TGoal goal) (clear_proved (state c)))).
  assert (H1 : current_goals st1 = []) by exact Hc.
  assert (H2 : proved_goals st1 = ∅) by reflexivity.
  rewrite H1, H2.
  rewrite bool_decide_eq_false_2 by apply not_elem_of_nil.
  rewrite bool_decide_eq_false_2 by apply not_elem_of_empty.
  rewrite Hrules. cbn [fold_left fst]. by rewrite facts_loop_results.
Qed.

Lemma clean_step_answer (b acc : bindings) (var : string) :
  answer b ->
  clean_step b acc var = match b !! var with Some v => <[var := v]> acc | None => acc end.
Proof.
  intros Hb. unfold clean_step. destruct (b !! var) as [v|] eqn:E; [|done].
  destruct (Hb var v E) as [_ Hv].
  replace (size b + 1) with (S (size b)) by lia. cbn [extract_walk].
  rewrite (answer_unbound b v Hb Hv). cbn [default from_option id]. by rewrite Hv.
Qed.

Lemma fold_clean_step_lookup (b : bindings) (l : list string) :
  answer b ->
  forall acc k,
    fold_left (clean_step b) l acc !! k
    = match (if bool_decide (k ∈ l) then b !! k else None) with
      | Some v => Some v
      | None => acc !! k
      end.
Proof.
  intros Hb. induction l as [|x l IH]; intros acc k.
  - cbn [fold_left]. by rewrite bool_decide_eq_false_2 by apply not_elem_of_nil.
  - cbn [fold_left]. rewrite IH, (clean_step_answer b acc x Hb).
    destruct (decide (k ∈ l)) as [Hl|Hl].
    + rewrite (bool_decide_eq_true_2 _ Hl).
      rewrite (bool_decide_eq_true_2 (k ∈ x :: l)) by (by right).
      destruct (b !! k) as [v|] eqn:E; [done|].
      destruct (b !! x) as [w|] eqn:Ex; [|done].
      rewrite lookup_insert_ne; [done|]. intros ->. congruence.
    + rewrite (bool_decide_eq_false_2 _ Hl). destruct (decide (k = x)) as [->|Hne].
      * rewrite bool_decide_eq_true_2 by left.
        destruct (b !! x) as [w|] eqn:Ex; [by rewrite lookup_insert_eq|done].
      * rewrite bool_decide_eq_false_2.
        2:{ intros [?|?]%elem_of_cons; done. }
        destruct (b !! x) as [w|] eqn:Ex; [|done]. by rewrite lookup_insert_ne.
Qed.

Lemma clean_bindings_of_answer (goal : Fact) (b : bindings) :
  answer b -> (forall k, is_Some (b !! k) -> k ∈ args goal) ->
  clean_bindings_of goal b = b.
Proof.
  intros Hb Hdom. apply map_eq. intros k. unfold clean_bindings_of.
  rewrite (fold_clean_step_lookup b (query_vars goal) Hb), lookup_empty.
  destruct (b !! k) as [v|] eqn:E.
  - rewrite bool_decide_eq_true_2; [done|]. apply list_elem_of_filter.
    split; [by apply (Hb k v)|]. apply Hdom. by rewrite E.
  - by destruct (bool_decide (k ∈ query_vars goal)).
Qed.

(** X17. Queries to a base of ground facts without rules:
    [prove_with_bindings] returns the matches of the query against the
    facts, in the order of the facts; every environment returned is an
    answer that makes the query a fact of the base, every fact that is
    an instance of the query is found, and [extract_query_bindings]
    returns these answers as they are, without the empty one and
    without repetitions. *)
Theorem fact_base_answers (c : BackwardChainer) (goal : Fact) :
  reachable c -> 0 < max_depth c -> rules (kb c) = [] ->
  Forall (fun f => is_ground f = true) (facts (kb c)) ->
  fst (prove_with_bindings c goal) = omap (fun f => Fact_match goal f ∅) (facts (kb c))
  /\ (forall b, b ∈ fst (prove_with_bindings c goal) ->
        answer b /\ substitute goal b ∈ facts (kb c))
  /\ (forall f sigma, f ∈ facts (kb c) -> answer sigma -> substitute goal sigma = f ->
        exists b, b ∈ fst (prove_with_bindings c goal) /\ b ⊆ sigma
                  /\ substitute goal b = f)
  /\ fst (solve c goal)
     = unique_results []
         (filter (fun b : bindings => b <> ∅) (fst (prove_with_bindings c goal))).
Proof.
  intros Hr Hmd Hrules Hfacts.
  pose proof (prove_with_bindings_facts c goal Hr Hmd Hrules) as E.
  rewrite Forall_forall in Hfacts.
  split; [exact E|]. unfold solve. cbn [fst]. rewrite E. split; [|split].
  - intros b Hb. apply list_elem_of_omap in Hb as (f&Hf&Hm).
    destruct (Fact_match_answers goal f b (Hfacts f Hf) Hm) as (Ha&Hs&_).
    split; [done|]. by rewrite Hs.
  - intros f sigma Hf Hs Hsub.
    destruct (Fact_match_complete goal f sigma (Hfacts f Hf) Hs Hsub) as (b&Hm&Hb).
    exists b. split; [|split; [done|]].
    + apply list_elem_of_omap. eauto.
    + by apply (Fact_match_answers goal f b (Hfacts f Hf) Hm).
  - unfold extract_query_bindings. do 2 f_equal.
    rewrite <- (map_id (omap _ _)) at 2. apply map_ext_in. intros b Hb.
    apply list_elem_of_In, list_elem_of_omap in Hb as (f&Hf&Hm).
    destruct (Fact_match_answers goal f b (Hfacts f Hf) Hm) as (Ha&_&Hd).
    by apply clean_bindings_of_answer.
Qed.

Lemma fact_base_answers_witness :
  fst (prove_with_bindings (BackwardChainer_new (mkKB (facts family) []))
         (mkFact "father" ["john"; "?Child"]))
  = omap (fun f => Fact_match (mkFact "father" ["john"; "?Child"]) f ∅) (facts family).
Proof.
  refine (proj1 (fact_base_answers (BackwardChainer_new (mkKB (facts family) []))
                   (mkFact "father" ["john"; "?Child"])
                   (reachable_init _ false 50) _ eq_refl _)).
  - simpl. lia.
  - repeat constructor.
Defined.

(** * The reasoning pipelines *)

(** ** The retrieval loop *)

Section RetrievalLoop.

Context {Score : Type} (below : Score -> bool) (zero : Score).
Context (query_kb : string -> nat -> list document).
Context (judge : LangGraph.ReasoningState Score -> Score * string * string).

Lemma judge_relevancy_node_frame (st : LangGraph.ReasoningState Score) :
  let st1 := LangGraph.judge_relevancy_node below judge st in
  LangGraph.question st1 = LangGraph.question st
  /\ LangGraph.retrieved_docs st1 = LangGraph.retrieved_docs st
  /\ LangGraph.iteration st1 = LangGraph.iteration st
  /\ LangGraph.max_iterations st1 = LangGraph.max_iterations st.
Proof.
  unfold LangGraph.judge_relevancy_node. by destruct (judge st) as [[score e] r].
Qed.

Lemma graph_step_invariant (q : string) (max_iter : Z)
    (cfg : LangGraph.node * LangGraph.ReasoningState Score) :
  retrieval_invariant query_kb q max_iter cfg ->
  retrieval_invariant query_kb q max_iter (LangGraph.graph_step below query_kb judge cfg).
Proof.
  destruct cfg as [[] st]; unfold retrieval_invariant; cbn [fst snd LangGraph.graph_step];
    intros (Hq&Hm&Hi&Hr&Hp&Hd&He).
  - cbn [LangGraph.retrieve_node LangGraph.question LangGraph.max_iterations
         LangGraph.iteration LangGraph.retrieved_docs].
    repeat split; try done; try lia.
    intros _. rewrite (He eq_refl). exists []. by rewrite app_nil_r.
  - destruct (judge_relevancy_node_frame st) as (Hq'&Hd'&Hi'&Hm').
    set (st1 := LangGraph.judge_relevancy_node below judge st) in *.
    rewrite Hq', Hm', Hi', Hd'. repeat split; try done; try lia.
    + destruct (LangGraph.should_refine st1) eqn:E; [|done]. intros _.
      unfold LangGraph.should_refine in E.
      destruct (LangGraph.needs_refinement st1); [|done]. cbn [andb] in E.
      destruct (decide (LangGraph.iteration st1 < LangGraph.max_iterations st1)%Z) as [Hlt|Hlt].
      * rewrite Hi', Hm' in Hlt. lia.
      * by rewrite (bool_decide_eq_false_2 _ Hlt) in E.
    + by destruct (LangGraph.should_refine st1) eqn:E.
    + intros _. by apply Hd.
    + by destruct (LangGraph.should_refine st1).
  - specialize (Hr eq_refl). destruct (Hd ltac:(done)) as [more Hmore].
    cbn [LangGraph.refine_node LangGraph.question LangGraph.max_iterations
         LangGraph.iteration LangGraph.retrieved_docs].
    repeat split; try done; try lia.
    intros _. rewrite Hmore, <- app_assoc. eauto.
  - repeat split; try done; lia.
Qed.

Lemma run_invariant (q : string) (max_iter : Z) (steps : nat) :
  forall cfg,
    retrieval_invariant query_kb q max_iter cfg ->
    retrieval_invariant query_kb q max_iter (LangGraph.run below query_kb judge steps cfg).
Proof.
  induction steps as [|steps IH]; intros cfg Hinv; cbn [LangGraph.run]; [done|].
  by apply IH, graph_step_invariant.
Qed.

Lemma graph_step_leaves_entry (cfg : LangGraph.node * LangGraph.ReasoningState Score) :
  fst (LangGraph.graph_step below query_kb judge cfg) <> LangGraph.at_retrieve.
Proof.
  destruct cfg as [[] st]; cbn [fst LangGraph.graph_step]; try done.
  by destruct (LangGraph.should_refine _).
Qed.

Lemma run_leaves_entry (steps : nat) :
  forall cfg, fst cfg <> LangGraph.at_retrieve ->
    fst (LangGraph.run below query_kb judge steps cfg) <> LangGraph.at_retrieve.
Proof.
  induction steps as [|steps IH]; intros cfg Hn; cbn [LangGraph.run]; [done|].
  apply IH, graph_step_leaves_entry.
Qed.

(** Every step towards [parse] is one step less to go. *)
Lemma graph_step_progress (cfg : LangGraph.node * LangGraph.ReasoningState Score) :
  fst cfg <> LangGraph.at_parse ->
  steps_to_parse (LangGraph.graph_step below query_kb judge cfg) < steps_to_parse cfg.
Proof.
  destruct cfg as [[] st]; cbn [fst LangGraph.graph_step steps_to_parse]; try done; intros _.
  - cbn [LangGraph.retrieve_node LangGraph.max_iterations LangGraph.iteration]. lia.
  - destruct (judge_relevancy_node_frame st) as (_&_&Hi&Hm).
    set (st1 := LangGraph.judge_relevancy_node below judge st) in *.
    destruct (LangGraph.should_refine st1) eqn:E; cbn [steps_to_parse]; [|lia].
    rewrite Hi, Hm. unfold LangGraph.should_refine in E.
    destruct (LangGraph.needs_refinement st1); [|done]. cbn [andb] in E.
    destruct (decide (LangGraph.iteration st1 < LangGraph.max_iterations st1)%Z) as [Hlt|Hlt].
    + rewrite Hi, Hm in Hlt. lia.
    + by rewrite (bool_decide_eq_false_2 _ Hlt) in E.
  - cbn [LangGraph.refine_node LangGraph.max_iterations LangGraph.iteration].
    replace (LangGraph.max_iterations st - (LangGraph.iteration st + 1))%Z
      with (LangGraph.max_iterations st - LangGraph.iteration st - 1)%Z by lia.
    lia.
Qed.

Lemma run_reaches_parse (steps : nat) :
  forall cfg, steps_to_parse cfg <= steps ->
    fst (LangGraph.run below query_kb judge steps cfg) = LangGraph.at_parse.
Proof.
  induction steps as [|steps IH]; intros cfg Hle; cbn [LangGraph.run].
  - destruct cfg as [[] st]; cbn [steps_to_parse] in Hle; try lia. done.
  - apply IH. destruct cfg as [nd st].
    destruct nd;
      [pose proof (graph_step_progress (LangGraph.at_retrieve, st) ltac:(done))
      |pose proof (graph_step_progress (LangGraph.at_judge_relevancy, st) ltac:(done))
      |pose proof (graph_step_progress (LangGraph.at_refine, st) ltac:(done))
      |cbn [LangGraph.graph_step steps_to_parse]]; lia.
Qed.

(** X18. The retrieval loop of the graph, for every number of steps
    that the run is allowed (the library ends the run with an error at
    its recursion limit): whatever the vector store returns and
    whatever the language model judges, the state has the question
    unchanged and [0 <= iteration <= max(0, max_iterations)], so the
    node [refine] runs at most [max(0, max_iterations)] times; from the
    first step on, the documents of the first retrieval, made with the
    empty [refinement_query] of the initial state and not with the
    question, are at the head of the list; the node [refine] is only
    entered with [iteration < max_iterations], and [parse] only when
    [should_refine] says so; and after [2 * max(0, max_iterations) + 2]
    steps the node to run is [parse]. *)
Theorem retrieval_loop_bounded (q : string) (max_iter : Z) (steps : nat) :
  let cfg := LangGraph.run below query_kb judge steps
               (LangGraph.at_retrieve, LangGraph.initial_state zero q max_iter) in
  (0 <= LangGraph.iteration (snd cfg) <= Z.max 0 max_iter)%Z
  /\ LangGraph.question (snd cfg) = q
  /\ (1 <= steps ->
      exists more, LangGraph.retrieved_docs (snd cfg) = query_kb "" 15 ++ more)
  /\ (fst cfg = LangGraph.at_refine -> (LangGraph.iteration (snd cfg) < max_iter)%Z)
  /\ (fst cfg = LangGraph.at_parse -> LangGraph.should_refine (snd cfg) = LangGraph.parse)
  /\ (2 * Z.to_nat max_iter + 2 <= steps -> fst cfg = LangGraph.at_parse).
Proof.
  intros cfg.
  assert (Hinv : retrieval_invariant query_kb q max_iter cfg).
  { apply run_invariant. unfold retrieval_invariant.
    cbn [fst snd LangGraph.initial_state LangGraph.question LangGraph.max_iterations
         LangGraph.iteration LangGraph.refinement_query].
    repeat split; try done; lia. }
  destruct Hinv as (Hq&Hm&Hi&Hr&Hp&Hd&_).
  split; [exact Hi|]. split; [exact Hq|]. split; [|split; [exact Hr|split; [exact Hp|]]].
  - intros Hs. apply Hd. unfold cfg. destruct steps as [|steps]; [lia|].
    cbn [LangGraph.run]. apply run_leaves_entry, graph_step_leaves_entry.
  - intros Hs. apply run_reaches_parse.
    cbn [steps_to_parse LangGraph.initial_state LangGraph.max_iterations LangGraph.iteration].
    rewrite Z.sub_0_r. lia.
Qed.

End RetrievalLoop.

(** ** From the question to the verdict *)

Lemma prove_ground_facts (c : BackwardChainer) (g : Fact) :
  reachable c -> 0 < max_depth c -> rules (kb c) = [] ->
  Forall (fun f => is_ground f = true) (facts (kb c)) ->
  is_ground g = true ->
  fst (prove c g) = bool_decide (g ∈ facts (kb c)).
Proof.
  intros Hr Hmd Hrules Hfacts Hg. unfold prove.
  change (backchain_to_goal (at_entry c) g ∅) with (prove_with_bindings c g).
  cbn [fst]. rewrite (prove_with_bindings_facts c g Hr Hmd Hrules).
  rewrite Forall_forall in Hfacts. apply bool_decide_ext. split.
  - destruct (omap _ _) as [|b l] eqn:E; [simpl; lia|]. intros _.
    assert (Hb : b ∈ omap (fun f => Fact_match g f ∅) (facts (kb c))) by (rewrite E; left).
    apply list_elem_of_omap in Hb as (f&Hf&Hm).
    rewrite (Fact_match_ground g f ∅ Hg (Hfacts f Hf)) in Hm.
    destruct (decide (g = f)) as [->|Hne]; [done|].
    by rewrite bool_decide_eq_false_2 in Hm.
  - intros Hin.
    assert (Hb : ∅ ∈ omap (fun f => Fact_match g f ∅) (facts (kb c))).
    { apply list_elem_of_omap. exists g. split; [done|]. apply Fact_match_same. }
    destruct (omap _ _); [by apply elem_of_nil in Hb|simpl; lia].
Qed.

Lemma document_of_repr (c : clause) (d : document) :
  document_of c = Some d -> prolog d = clause_repr c.
Proof.
  destruct c as [f|r]; cbn [document_of clause_repr]; intros Hd.
  - by apply create_fact_document_prolog.
  - by injection Hd as <-.
Qed.

(** X19. From the question to the verdict: when the documents
    retrieved for the question are those of reloadable ground facts
    (made of ASCII characters), and the answer of the language model,
    an ASCII text, parses once cleaned as a ground atom, [reason]
    answers [True] exactly when the atom is one of the retrieved facts,
    and reports the atom, the texts retrieved and no rule. *)
Theorem reason_over_ground_facts (query_kb : string -> nat -> list document)
    (parse_chain : string -> option string) (question : string) (verbose : bool)
    (entries : list clause) (g : Fact) :
  forallb reloadable_clause entries = true ->
  forallb (fun c => match c with
                    | ParsedFact f => is_ground f
                    | ParsedRule _ => false
                    end) entries = true ->
  mapM document_of entries = Some (query_kb question 15) ->
  (forall content, parse_chain question = Some content -> ascii_text content = true) ->
  LangChain.parse_question_to_fact parse_chain question = Some g ->
  is_ground g = true ->
  exists trace kb_facts,
    LangChain.reason query_kb parse_chain question verbose
    = LangChain.Answered question (Fact_repr g) (bool_decide (ParsedFact g ∈ entries))
        trace (map clause_repr entries) kb_facts 0.
Proof.
  intros Hre Hgr Hdocs _ Hparse Hg. unfold LangChain.reason. rewrite Hparse.
  set (docs := query_kb question 15) in *.
  destruct (build_kb_from_retrieved_spec entries docs Hre Hdocs) as (_&Hmem&Hrules).
  assert (Hnorules : rules (build_kb_from_retrieved docs) = []).
  { rewrite Hrules. clear -Hgr. induction entries as [|c entries IH]; [done|].
    cbn [forallb] in Hgr. apply andb_true_iff in Hgr as [Hc Hgr].
    destruct c; [|done]. simpl. by apply IH. }
  assert (Hground : Forall (fun f => is_ground f = true)
                      (facts (build_kb_from_retrieved docs))).
  { apply Forall_forall. intros f Hf. apply Hmem in Hf.
    rewrite forallb_forall in Hgr. by apply list_elem_of_In, Hgr in Hf. }
  eexists _, _. f_equal.
  - rewrite (prove_ground_facts (BackwardChainer_init (build_kb_from_retrieved docs)
                                   verbose 50) g (reachable_init _ _ _));
      [|simpl; lia|exact Hnorules|exact Hground|exact Hg].
    apply bool_decide_ext. apply Hmem.
  - apply mapM_Some in Hdocs. clear -Hdocs.
    induction Hdocs as [|c d entries docs Hd _ IH]; [done|].
    cbn [map]. by rewrite IH, (document_of_repr c d Hd).
  - by rewrite Hnorules.
Qed.

Lemma reason_over_ground_facts_witness :
  exists trace kb_facts,
    LangChain.reason
      (fun _ _ => [mkDocument "rigby reports to benson" "reports_to(rigby, benson)"
                     "reports_to" "fact"])
      (fun _ => Some "```reports_to(rigby, benson)```")
      "Does Rigby report to Benson?" false
    = LangChain.Answered "Does Rigby report to Benson?" "reports_to(rigby, benson)"
        true trace ["reports_to(rigby, benson)"] kb_facts 0.
Proof.
  refine (reason_over_ground_facts
            (fun _ _ => [mkDocument "rigby reports to benson" "reports_to(rigby, benson)"
                           "reports_to" "fact"])
            (fun _ => Some "```reports_to(rigby, benson)```")
            "Does Rigby report to Benson?" false
            [ParsedFact (mkFact "reports_to" ["rigby"; "benson"])]
            (mkFact "reports_to" ["rigby"; "benson"])
            eq_refl eq_refl eq_refl _ eq_refl eq_refl).
  intros content [= <-]. reflexivity.
Defined.

(** ** What the parser returns *)

Lemma strip_head (s : string) :
  chars (strip s) = [] \/ exists c t, chars (strip s) = c :: t /\ is_space c = false.
Proof.
  unfold strip. rewrite chars_str.
  destruct (lstrip_chars_head is_space (chars s)) as [E|(c&t&E&Hc)]; rewrite E.
  - by left.
  - destruct (rstrip_chars_prefix is_space (c :: t)) as (r&Hr&_).
    destruct (rstrip_chars is_space (c :: t)) as [|c' t'] eqn:E'; [by left|].
    right. exists c', t'. split; [done|]. injection Hr as <- _. done.
Qed.

Lemma strip_fixed (l : list ascii) (c c' : ascii) (body t : list ascii) :
  l = c :: t -> l = body ++ [c'] -> is_space c = false -> is_space c' = false ->
  strip (str l) = str l.
Proof.
  intros E1 E2 Hc Hc'. unfold strip. rewrite chars_str. f_equal.
  rewrite E1. cbn [lstrip_chars]. rewrite Hc, <- E1, E2.
  rewrite rstrip_chars_app by done. done.
Qed.

Lemma strip_idempotent (s : string) : strip (strip s) = strip s.
Proof.
  destruct (strip_head s) as [E|(c&t&E&Hc)].
  - assert (E' : strip s = "") by (apply chars_inj; by rewrite E). by rewrite E'.
  - assert (Hne : strip s <> "") by (intros H; by rewrite H in E).
    destruct (strip_last s Hne) as (body&c'&E'&Hc').
    rewrite <- (str_chars (strip s)). by apply (strip_fixed _ c c' body t).
Qed.

Lemma strip_question (s : string) :
  strip s <> "" -> strip ("?" +:+ strip s) = "?" +:+ strip s.
Proof.
  intros Hne. destruct (strip_last s Hne) as (body&c'&E'&Hc').
  rewrite <- (str_chars ("?" +:+ strip s)).
  apply (strip_fixed _ "?"%char c' ("?"%char :: body) (chars (strip s))).
  - by rewrite chars_app.
  - by rewrite chars_app, E'.
  - done.
  - done.
Qed.

Lemma span_fst_all (p : ascii -> bool) (l : list ascii) :
  forallb p (fst (span p l)) = true.
Proof.
  induction l as [|c l IH]; [done|]. simpl. destruct (p c) eqn:E; [|done].
  simpl. by rewrite E, IH.
Qed.

Lemma until_close_chars (l inner : list ascii) (x : ascii) :
  until_close l = Some inner -> x ∈ inner -> x <> ")"%char /\ x <> "010"%char.
Proof.
  revert inner. induction l as [|c l IH]; intros inner; [done|]. cbn [until_close].
  destruct (is_char ")" c) eqn:E1; [intros [= <-] H; by apply elem_of_nil in H|].
  destruct (is_char "010" c) eqn:E2; [done|].
  destruct (until_close l) as [inner'|]; [|done]. intros [= <-] [->|Hx]%elem_of_cons.
  - split; intros ->; [by rewrite is_char_refl in E1|by rewrite is_char_refl in E2].
  - by apply (IH inner').
Qed.

Lemma split_commas_pieces (l piece : list ascii) (x : ascii) :
  piece ∈ split_commas l -> x ∈ piece -> x ∈ l /\ x <> ","%char.
Proof.
  revert piece. induction l as [|c l IH]; intros piece.
  - intros ->%list_elem_of_singleton H. by apply elem_of_nil in H.
  - cbn [split_commas]. destruct (is_char "," c) eqn:E.
    + intros [->|Hp]%elem_of_cons Hx; [by apply elem_of_nil in Hx|].
      destruct (IH piece Hp Hx). split; [by right|done].
    + destruct (split_commas l) as [|p0 ps] eqn:Es.
      * intros ->%list_elem_of_singleton ->%list_elem_of_singleton.
        split; [left|]. intros ->. by rewrite is_char_refl in E.
      * intros [->|Hp]%elem_of_cons Hx.
        -- apply elem_of_cons in Hx as [->|Hx].
           ++ split; [left|]. intros ->. by rewrite is_char_refl in E.
           ++ destruct (IH p0 (ltac:(left)) Hx). split; [by right|done].
        -- destruct (IH piece (ltac:(by right)) Hx). split; [by right|done].
Qed.

Lemma convert_arg_parsed (piece : list ascii) :
  (forall x, x ∈ piece -> x <> ","%char /\ x <> ")"%char /\ x <> "010"%char) ->
  parsed_arg (convert_arg (strip (str piece))).
Proof.
  intros Hp. set (a := strip (str piece)).
  assert (Ha : forall x, x ∈ chars a -> x <> ","%char /\ x <> ")"%char /\ x <> "010"%char).
  { intros x Hx. apply Hp. apply strip_subset in Hx. by rewrite chars_str in Hx. }
  assert (Hfix : strip a = a) by apply strip_idempotent.
  unfold convert_arg. destruct (decide (a = "_")) as [E|E].
  - rewrite (bool_decide_eq_true_2 _ E). repeat split; try done.
    + by intros c r [= <- _].
    + by intros [[=]|[[=]|H%elem_of_nil]%elem_of_cons]%elem_of_cons.
    + by intros [[=]|[[=]|H%elem_of_nil]%elem_of_cons]%elem_of_cons.
    + by intros [[=]|[[=]|H%elem_of_nil]%elem_of_cons]%elem_of_cons.
  - rewrite (bool_decide_eq_false_2 _ E). destruct a as [|c r] eqn:Ea.
    + repeat split; try done; by intros H%elem_of_nil.
    + destruct (is_upper c) eqn:Hu.
      * assert (Hne : strip (str piece) <> "") by (fold a; by rewrite Ea).
        pose proof (strip_question (str piece) Hne) as Hq. fold a in Hq.
        rewrite Ea in Hq.
        assert (Hin : forall x, x ∈ chars ("?" +:+ String c r) ->
                        x <> ","%char /\ x <> ")"%char /\ x <> "010"%char).
        { intros x. rewrite chars_app. intros [Hx|Hx]%elem_of_app.
          - apply list_elem_of_singleton in Hx as ->. done.
          - by apply Ha. }
        split; [exact Hq|]. split; [done|]. split; [by intros c0 r0 [= <- _]|].
        repeat split; intros Hx; by apply Hin in Hx as (?&?&?).
      * split; [done|]. split; [done|]. split; [by intros c0 r0 [= <- _]|].
        repeat split; intros Hx; by apply Ha in Hx as (?&?&?).
Qed.

(** X20. What [parse_prolog_fact] returns on an ASCII text is well
    formed: the predicate is a non-empty run of word characters, and
    every argument
    is free of surrounding white space, of commas, closing parentheses
    and line feeds, is not [_] and does not start with an upper case
    letter (such arguments have become variables). *)
Theorem parsed_fact_well_formed (s : string) (f : Fact) :
  ascii_text s = true ->
  parse_prolog_fact s = Some f ->
  is_identifier (predicate f) = true /\ Forall parsed_arg (args f).
Proof.
  intros _. unfold parse_prolog_fact, match_atom.
  destruct (span is_word (chars (rstrip_dots (strip s)))) as [name rest] eqn:Es.
  destruct name as [|c name]; [done|]. destruct rest as [|op rest]; [done|].
  destruct (is_char "(" op); [|done].
  destruct (until_close rest) as [inner|] eqn:Ei; [|done].
  assert (Hid : is_identifier (str (c :: name)) = true).
  { unfold is_identifier. rewrite chars_str.
    pose proof (span_fst_all is_word (chars (rstrip_dots (strip s)))) as H.
    by rewrite Es in H. }
  destruct (bool_decide (str inner = "")).
  - intros [= <-]. split; [exact Hid|constructor].
  - intros [= <-]. split; [exact Hid|]. cbn [args]. rewrite chars_str.
    apply Forall_forall. intros a Ha.
    apply list_elem_of_fmap in Ha as (a'&->&Ha').
    apply list_elem_of_fmap in Ha' as (piece&->&Hpiece).
    apply convert_arg_parsed. intros x Hx.
    destruct (split_commas_pieces inner piece x Hpiece Hx) as [Hin Hcomma].
    destruct (until_close_chars rest inner x Ei Hin). done.
Qed.

Lemma parsed_fact_well_formed_witness :
  is_identifier "parent" = true /\ Forall parsed_arg ["?X"; "tom"].
Proof.
  exact (parsed_fact_well_formed " parent( X ,tom ) ." (mkFact "parent" ["?X"; "tom"])
           eq_refl eq_refl).
Defined.
